(** * CasADi MX nodes: reduction norms and nonzero selection

    A shallow embedding of [casadi/mx/norm.cpp] and
    [symbolic/mx/getnonzeros.cpp].

    - A C++ [double] is an IEEE-754 binary64 value, modelled by the Standard
      Library's [spec_float] at precision 53 and maximal exponent 1024.
    - A [std::vector<T>] is a [list T]; an access outside the vector is
      undefined behaviour in C++ and is modelled by [None].
    - An [int] is a [Z]; the loops below count list positions, so no
      arithmetic of the model leaves the range of a machine integer.
    - A thrown [CasadiException] is an outcome of its own, which keeps the
      buffers as they were when the exception left the function. *)

From Stdlib Require Import ZArith List String Lia.
From Stdlib Require Import Floats.SpecFloat.
From stdpp Require Import base option list.

Local Open Scope Z_scope.

(** ** IEEE-754 binary64 *)

Module Double.

Definition double : Type := spec_float.

Definition prec : Z := 53.
Definition emax : Z := 1024.

Definition add : double -> double -> double := SFadd prec emax.
Definition sub : double -> double -> double := SFsub prec emax.
Definition mul : double -> double -> double := SFmul prec emax.
Definition div : double -> double -> double := SFdiv prec emax.
Definition sqrt : double -> double := SFsqrt prec emax.
Definition abs : double -> double := SFabs.

(** [a == b], [a < b] and [a > b] of C++; all three are false on NaN. *)
Definition eqb : double -> double -> bool := SFeqb.
Definition ltb : double -> double -> bool := SFltb.
Definition gtb (a b : double) : bool := SFltb b a.

(** The conversion of an integer literal, as in [double temp=0] or
    [2*inputd[k]]. *)
Definition of_int (z : Z) : double := binary_normalize prec emax z 0 false.

(** [std::numeric_limits<double>::infinity()] and [quiet_NaN()]. *)
Definition infinity : double := S754_infinity false.
Definition quiet_NaN : double := S754_nan.

Definition zero : double := of_int 0.

End Double.

Abbreviation double := Double.double.

Arguments Double.of_int : simpl never.
Arguments Double.zero : simpl never.
Arguments Double.add : simpl never.
Arguments Double.sub : simpl never.
Arguments Double.mul : simpl never.
Arguments Double.div : simpl never.
Arguments Double.sqrt : simpl never.
Arguments Double.eqb : simpl never.
Arguments Double.ltb : simpl never.
Arguments Double.gtb : simpl never.

(** ** Vectors, loops and outcomes *)

(** [v[k]] read, for an [int] index. *)
Definition vget {A : Type} (v : list A) (k : Z) : option A :=
  if k <? 0 then None else v !! Z.to_nat k.

(** [v[k] = x]. *)
Definition vset {A : Type} (v : list A) (k : Z) (x : A) : option (list A) :=
  if k <? 0 then None
  else if decide (Z.to_nat k < length v)%nat
       then Some (<[Z.to_nat k := x]> v) else None.

(** [for (k = k0; ...; ++k) body], run for [count] iterations. *)
Fixpoint for_range {S : Type} (body : Z -> S -> option S)
    (k : Z) (count : nat) (s : S) : option S :=
  match count with
  | O => Some s
  | Datatypes.S c =>
      match body k s with
      | Some s' => for_range body (k + 1) c s'
      | None => None
      end
  end.

(** [for (int k = 0; k < n; ++k) body]; no iteration when [n <= 0]. *)
Definition for_loop {S : Type} (n : Z) (body : Z -> S -> option S) (s : S)
    : option S :=
  for_range body 0 (Z.to_nat n) s.

Inductive CasadiException : Type :=
| Exception (msg : string)
| AssertionFailure (msg : string).

Inductive outcome (S : Type) : Type :=
| Returns (s : S)
| Throws (e : CasadiException) (s : S)
| Undefined.

Arguments Returns {S} s.
Arguments Throws {S} e s.
Arguments Undefined {S}.

Definition returning {S : Type} (r : option S) : outcome S :=
  match r with
  | Some s => Returns s
  | None => Undefined
  end.

(** ** Reduction norms ([norm.cpp]) *)

Module Norm.

(** The buffers an [evaluate] call writes: [output.data()], and for each
    direction [d] the data of [fwdSens[d]] and of [adjSens[0][d]]. *)
Record buffers : Type := Buffers {
  outputd : list double;
  fwdSens : list (list double);
  adjSens : list (list double)
}.

(** [Norm::evaluate], the abstract base. *)
Definition evaluate (b : buffers) : outcome buffers :=
  Throws (Exception "Norm::evaluate not implemented") b.

(** The running maximum of [NormInf::evaluate]:
    [a = std::abs(inputd[k]); if (a>temp) temp=a;]. *)
Definition NormInf_step (inputd : list double) (k : Z) (temp : double)
    : option double :=
  x ← vget inputd k;
  let a := Double.abs x in
  Some (if Double.gtb a temp then a else temp).

(** [NormInf::evaluate]; [n] is [dep(0).size()]. *)
Definition NormInf_evaluate (n : Z) (inputd : list double) (b : buffers)
    (nfwd nadj : Z) : outcome buffers :=
  match for_loop n (NormInf_step inputd) Double.infinity with
  | None => Undefined
  | Some temp =>
      match vset (outputd b) 0 temp with
      | None => Undefined
      | Some out =>
          let b' := Buffers out (fwdSens b) (adjSens b) in
          if negb (nadj =? 0)
          then Throws (Exception "NormInf::evaluate not implemented") b'
          else Returns b'
      end
  end.

(** The squared sum shared by [Norm2::evaluate] and [Norm22::evaluate]:
    [temp+=inputd[k]*inputd[k]]. *)
Definition sumsq_step (inputd : list double) (k : Z) (temp : double)
    : option double :=
  x ← vget inputd k;
  Some (Double.add temp (Double.mul x x)).

(** The forward loop of a norm. For each direction [d < nfwd] it clears
    [fwdSens[d]->data()[0]] and then lets [step] fold element [k] of the
    input and of the seed [fwdSeed[0][d]] into it. *)
Definition forward_direction (step : double -> double -> double -> double)
    (n : Z) (inputd fseed fsens : list double) : option (list double) :=
  fsens0 ← vset fsens 0 (Double.of_int 0);
  for_loop n (fun k fs =>
    s ← vget fseed k;
    x ← vget inputd k;
    acc ← vget fs 0;
    vset fs 0 (step x s acc)) fsens0.

Definition propagate_forward (step : double -> double -> double -> double)
    (n nfwd : Z) (inputd : list double) (fwdSeed fwdSens : list (list double))
    : option (list (list double)) :=
  for_loop nfwd (fun d fS =>
    fsens ← vget fS d;
    fseed ← vget fwdSeed d;
    fsens' ← forward_direction step n inputd fseed fsens;
    vset fS d fsens') fwdSens.

(** The adjoint loop of a norm. A direction whose seed
    [adjSeed[d]->data()[0]] compares equal to zero is skipped by
    [continue]; otherwise [upd] updates every element of [adjSens[0][d]]
    from the input element and the seed. *)
Definition adjoint_direction (upd : double -> double -> double -> double)
    (n : Z) (inputd : list double) (s : double) (asens : list double)
    : option (list double) :=
  for_loop n (fun k a =>
    x ← vget inputd k;
    old ← vget a k;
    vset a k (upd x s old)) asens.

Definition propagate_adjoint (upd : double -> double -> double -> double)
    (n nadj : Z) (inputd : list double) (adjSeed adjSens : list (list double))
    : option (list (list double)) :=
  for_loop nadj (fun d aS =>
    seed ← vget adjSeed d;
    s ← vget seed 0;
    if Double.eqb s (Double.of_int 0) then Some aS
    else
      asens ← vget aS d;
      asens' ← adjoint_direction upd n inputd s asens;
      vset aS d asens') adjSens.

(** [Norm2::evaluate]. Both sensitivity loops read [outputd[0]] back. *)
Definition Norm2_fwd (out0 x s acc : double) : double :=
  Double.add acc (Double.mul (Double.div x out0) s).

Definition Norm2_adj (out0 x s old : double) : double :=
  Double.add old (Double.mul (Double.div x out0) s).

Definition Norm2_evaluate (n : Z) (inputd : list double) (b : buffers)
    (fwdSeed adjSeed : list (list double)) (nfwd nadj : Z)
    : outcome buffers :=
  returning (
    temp ← for_loop n (sumsq_step inputd) (Double.of_int 0);
    out ← vset (outputd b) 0 (Double.sqrt temp);
    out0 ← vget out 0;
    fS ← propagate_forward (Norm2_fwd out0) n nfwd inputd fwdSeed (fwdSens b);
    aS ← propagate_adjoint (Norm2_adj out0) n nadj inputd adjSeed (adjSens b);
    Some (Buffers out fS aS)).

(** [Norm22::evaluate]. *)
Definition Norm22_fwd (x s acc : double) : double :=
  Double.add acc (Double.mul (Double.mul (Double.of_int 2) x) s).

Definition Norm22_adj (x s old : double) : double :=
  Double.add old (Double.mul (Double.mul (Double.of_int 2) x) s).

Definition Norm22_evaluate (n : Z) (inputd : list double) (b : buffers)
    (fwdSeed adjSeed : list (list double)) (nfwd nadj : Z)
    : outcome buffers :=
  returning (
    temp ← for_loop n (sumsq_step inputd) (Double.of_int 0);
    out ← vset (outputd b) 0 temp;
    fS ← propagate_forward Norm22_fwd n nfwd inputd fwdSeed (fwdSens b);
    aS ← propagate_adjoint Norm22_adj n nadj inputd adjSeed (adjSens b);
    Some (Buffers out fS aS)).

(** [Norm1::evaluate]. The value is computed in the branch
    [nfwd==0 && nadj==0], which returns; with any direction the function
    goes to the sensitivity loops and never assigns [outputd[0]]. *)
Definition abs_step (inputd : list double) (k : Z) (temp : double)
    : option double :=
  x ← vget inputd k;
  Some (Double.add temp (Double.abs x)).

Definition Norm1_fwd (x s acc : double) : double :=
  if Double.eqb s (Double.of_int 0) then acc
  else if Double.ltb x (Double.of_int 0) then Double.sub acc s
  else if Double.gtb x (Double.of_int 0) then Double.add acc s
  else Double.add acc Double.quiet_NaN.

Definition Norm1_adj (x s old : double) : double :=
  if Double.ltb x (Double.of_int 0) then Double.sub old s
  else if Double.gtb x (Double.of_int 0) then Double.add old s
  else Double.add old Double.quiet_NaN.

Definition Norm1_evaluate (n : Z) (inputd : list double) (b : buffers)
    (fwdSeed adjSeed : list (list double)) (nfwd nadj : Z)
    : outcome buffers :=
  if (nfwd =? 0) && (nadj =? 0) then
    returning (
      temp ← for_loop n (abs_step inputd) (Double.of_int 0);
      out ← vset (outputd b) 0 temp;
      Some (Buffers out (fwdSens b) (adjSens b)))
  else
    returning (
      fS ← propagate_forward Norm1_fwd n nfwd inputd fwdSeed (fwdSens b);
      aS ← propagate_adjoint Norm1_adj n nadj inputd adjSeed (adjSens b);
      Some (Buffers (outputd b) fS aS)).

(** The buffer sizes the caller of [evaluate] provides: the input has
    [dep(0).size()] entries, the output is a scalar, and there are at
    least [nfwd] forward and [nadj] adjoint directions, whose seeds and
    sensitivities have the sizes of the input or of the output. *)
Record well_sized (n : Z) (inputd : list double) (b : buffers)
    (fwdSeed adjSeed : list (list double)) (nfwd nadj : Z) : Prop := {
  ws_input : (Z.to_nat n <= length inputd)%nat;
  ws_output : (0 < length (outputd b))%nat;
  ws_nfwd_seed : (Z.to_nat nfwd <= length fwdSeed)%nat;
  ws_nfwd_sens : (Z.to_nat nfwd <= length (fwdSens b))%nat;
  ws_fwdSeed : Forall (fun s => (Z.to_nat n <= length s)%nat) fwdSeed;
  ws_fwdSens : Forall (fun s => (0 < length s)%nat) (fwdSens b);
  ws_nadj_seed : (Z.to_nat nadj <= length adjSeed)%nat;
  ws_nadj_sens : (Z.to_nat nadj <= length (adjSens b))%nat;
  ws_adjSeed : Forall (fun s => (0 < length s)%nat) adjSeed;
  ws_adjSens : Forall (fun a => (Z.to_nat n <= length a)%nat) (adjSens b)
}.

(** The value the specification gives for the infinity norm,
    [max_k |x_k|], written from its words for the comparison with
    [NormInf_evaluate]. *)
Definition spec_max_abs (x : list double) : double :=
  fold_left (fun m xk => if Double.gtb (Double.abs xk) m
                         then Double.abs xk else m)
            x (Double.of_int 0).

(** The entry a forward loop leaves in [fwdSens[d]->data()[0]]: the terms of
    the first [n] input and seed entries, folded into [0] in the order of
    the index. *)
Definition forward_sum (step : double -> double -> double -> double)
    (n : Z) (inputd fseed : list double) : double :=
  fold_left (fun acc p => step p.1 p.2 acc)
            (zip (take (Z.to_nat n) inputd) (take (Z.to_nat n) fseed))
            (Double.of_int 0).

(** The sums the value loops compute over the first [n] entries, from [0]
    and in the order of the index. *)
Definition sum_of_squares (n : Z) (inputd : list double) : double :=
  fold_left (fun t x => Double.add t (Double.mul x x))
            (take (Z.to_nat n) inputd) (Double.of_int 0).

Definition sum_of_abs (n : Z) (inputd : list double) : double :=
  fold_left (fun t x => Double.add t (Double.abs x))
            (take (Z.to_nat n) inputd) (Double.of_int 0).

(** [a'] is [asens] with each of its first [n] entries [old] replaced by
    [upd x s old], [x] being the input entry at the same index; the entries
    after them, and the length, are those of [asens]. *)
Definition updated_by (upd : double -> double -> double -> double)
    (n : Z) (inputd : list double) (s : double) (asens a' : list double)
    : Prop :=
  length a' = length asens
  /\ (forall (k : nat) x old,
        (k < Z.to_nat n)%nat ->
        inputd !! k = Some x -> asens !! k = Some old ->
        a' !! k = Some (upd x s old))
  /\ (forall k : nat, (Z.to_nat n <= k)%nat -> a' !! k = asens !! k).

(** The four concrete norms share their code shape and differ in the class;
    the class is the tag. *)
Inductive kind : Type := Norm2 | Norm22 | Norm1 | NormInf.

(** The text the [print] member functions send to the stream,
    ["||" << args.at(0) << suffix], the suffix being ["||_2"], ["||_2^2"],
    ["||_1"] or ["||_inf"]. [args.at(0)] is bounds-checked: on an empty
    [args] it throws [std::out_of_range], for which [None] stands. *)
Definition print_suffix (k : kind) : string :=
  match k with
  | Norm2 => "||_2"
  | Norm22 => "||_2^2"
  | Norm1 => "||_1"
  | NormInf => "||_inf"
  end.

Definition print (k : kind) (args : list string) : option string :=
  a ← args !! 0%nat;
  Some (String.append "||" (String.append a (print_suffix k))).

End Norm.

(** ** Sparsity patterns and MX nodes *)

(** The compressed-row pattern [CRSSparsity]: its dimensions, the column of
    each nonzero ([col()]) and the row offsets ([rowind()]). *)
Record CRSSparsity : Type := Sparsity {
  size1 : Z;
  size2 : Z;
  col : list Z;
  rowind : list Z
}.

#[global] Instance CRSSparsity_eq_dec : EqDecision CRSSparsity.
Proof. solve_decision. Defined.

(** [CRSSparsity::size()], the number of structural nonzeros. *)
Definition sp_size (sp : CRSSparsity) : nat := length (col sp).

(** Modelled from the spec: [CRSSparsity::operator==] is declared outside
    the files at hand; two patterns are equal when they have the same
    dimensions and the same nonzero positions. *)
Definition sp_eqb (a b : CRSSparsity) : bool := bool_decide (a = b).

(** An expression node: a leaf, or a [GetNonzeros] node with its output
    pattern, its dependency and the index vector [nz_]. *)
Inductive MX : Type :=
| MXSymbolic (name : string) (sp : CRSSparsity)
| MXGetNonzeros (sp : CRSSparsity) (y : MX) (nz_ : list Z).

Definition sparsity (x : MX) : CRSSparsity :=
  match x with
  | MXSymbolic _ sp => sp
  | MXGetNonzeros sp _ _ => sp
  end.

(** ** Nonzero selection ([getnonzeros.cpp]) *)

Module GetNonzeros.

Section Generic.

(** [evaluateGen] is a template over the element type [T] ([double] or
    [SX]); it uses the conversion of the literal [0] and [+=]. *)
Context {T : Type}.
Variable zero : T.
Variable add : T -> T -> T.

(** The buffers [evaluateGen] writes: [output[0]], and for each direction
    [d] the data of [fwdSens[d][0]], [adjSeed[d][0]] and [adjSens[d][0]]. *)
Record buffers : Type := Buffers {
  output0 : list T;
  fwdSens : list (list T);
  adjSeed : list (list T);
  adjSens : list (list T)
}.

(** For each [k] of [nz_], with [it] a position in [dst]:
    [dst[it] = k>=0 ? src[k] : 0], then [++it]. *)
Fixpoint gather (src : list T) (nz : list Z) (it : nat) (dst : list T)
    : option (list T) :=
  match nz with
  | [] => Some dst
  | k :: nz' =>
      v ← (if 0 <=? k then vget src k else Some zero);
      dst' ← vset dst (Z.of_nat it) v;
      gather src nz' (S it) dst'
  end.

(** For each [k] of [nz_], with [it] a position in the seed:
    [asens[k] += seed[it]] when [k >= 0], then [seed[it] = 0] and [++it]. *)
Fixpoint scatter (nz : list Z) (it : nat) (aseed asens : list T)
    : option (list T * list T) :=
  match nz with
  | [] => Some (aseed, asens)
  | k :: nz' =>
      s ← vget aseed (Z.of_nat it);
      asens' ← (if 0 <=? k
                then old ← vget asens k; vset asens k (add old s)
                else Some asens);
      aseed' ← vset aseed (Z.of_nat it) zero;
      scatter nz' (S it) aseed' asens'
  end.

Definition forward_sensitivities (nz : list Z) (nfwd : Z)
    (fwdSeed fS : list (list T)) : option (list (list T)) :=
  for_loop nfwd (fun d fS =>
    fseed ← vget fwdSeed d;
    fsens ← vget fS d;
    fsens' ← gather fseed nz 0 fsens;
    vset fS d fsens') fS.

Definition adjoint_sensitivities (nz : list Z) (nadj : Z)
    (aSeed aSens : list (list T)) : option (list (list T) * list (list T)) :=
  for_loop nadj (fun d '(aSeed, aSens) =>
    aseed ← vget aSeed d;
    asens ← vget aSens d;
    '(aseed', asens') ← scatter nz 0 aseed asens;
    aSeed' ← vset aSeed d aseed';
    aSens' ← vset aSens d asens';
    Some (aSeed', aSens')) (aSeed, aSens).

(** [GetNonzeros::evaluateGen]: [nadj = adjSeed.size()],
    [nfwd = fwdSens.size()]. *)
Definition evaluateGen (nz : list Z) (input0 : list T)
    (fwdSeed : list (list T)) (b : buffers) : option buffers :=
  let nadj := Z.of_nat (length (adjSeed b)) in
  let nfwd := Z.of_nat (length (fwdSens b)) in
  out ← gather input0 nz 0 (output0 b);
  fS ← forward_sensitivities nz nfwd fwdSeed (fwdSens b);
  '(aSeed, aSens) ← adjoint_sensitivities nz nadj (adjSeed b) (adjSens b);
  Some (Buffers out fS aSeed aSens).

(** What the specification writes at an output position whose index is
    [k]: [dep.data[k]] when [k >= 0], and [0] for the absent marker. *)
Definition spec_select (data : list T) (k : Z) : T :=
  if 0 <=? k then nth (Z.to_nat k) data zero else zero.

(** The seeds the specification adds into position [j] of the
    accumulator: those at the output positions [i] with [nz[i] = j],
    in the order of the positions. *)
Fixpoint spec_contributions (j : nat) (nz : list Z) (seed : list T)
    : list T :=
  match nz, seed with
  | k :: nz', s :: seed' =>
      if decide (k = Z.of_nat j)
      then s :: spec_contributions j nz' seed'
      else spec_contributions j nz' seed'
  | _, _ => []
  end.

(** What the specification asks of the adjoint pass on one direction,
    from the seed [aseed] and accumulator [asens] before the pass to
    [aseed'] and [asens'] after it: the seed is cleared, and every
    accumulator position has received its contributions. *)
Definition spec_adjoint (nz : list Z) (aseed asens aseed' asens' : list T)
    : Prop :=
  aseed' = replicate (length nz) zero
  /\ length asens' = length asens
  /\ forall (j : nat) (a : T),
       asens !! j = Some a ->
       asens' !! j
       = Some (fold_left add (spec_contributions j nz aseed) a).

(** The buffer sizes the caller of [evaluateGen] provides: every index
    lies below the number of nonzeros of the dependency; the output, the
    forward sensitivities and the adjoint seeds have one entry per entry
    of [nz_]; the forward seeds and the adjoint sensitivities have the
    size of the dependency; and every direction has both its buffers. *)
Record well_sized (nz : list Z) (input0 : list T)
    (fwdSeed : list (list T)) (b : buffers) : Prop := {
  ws_nz : Forall (fun k => k < Z.of_nat (length input0)) nz;
  ws_output : length (output0 b) = length nz;
  ws_nfwd : (length (fwdSens b) <= length fwdSeed)%nat;
  ws_fwdSeed : Forall (fun s => length s = length input0) fwdSeed;
  ws_fwdSens : Forall (fun s => length s = length nz) (fwdSens b);
  ws_nadj : (length (adjSeed b) <= length (adjSens b))%nat;
  ws_adjSeed : Forall (fun s => length s = length nz) (adjSeed b);
  ws_adjSens : Forall (fun a => length a = length input0) (adjSens b)
}.

End Generic.

Arguments buffers : clear implicits.
Arguments Buffers {T} _ _ _ _.

(** [GetNonzeros::evaluateD], the instance at [double]. *)
Definition evaluateD : list Z -> list double -> list (list double) ->
    buffers double -> option (buffers double) :=
  evaluateGen Double.zero Double.add.

(** A [bvec_t] is an unsigned 64-bit word of dependency bits; the only
    operation on it here is the bitwise or. *)
Definition bvec_t : Type := Z.

(** The forward branch of [propagateSparsity]:
    [outputd[it] = k>=0 ? inputd[k] : 0], then [++it]. *)
Fixpoint propagate_fwd (inputd : list bvec_t) (nz : list Z) (it : nat)
    (outputd : list bvec_t) : option (list bvec_t) :=
  match nz with
  | [] => Some outputd
  | k :: nz' =>
      v ← (if 0 <=? k then vget inputd k else Some 0);
      outputd' ← vset outputd (Z.of_nat it) v;
      propagate_fwd inputd nz' (S it) outputd'
  end.

(** The reverse branch: [inputd[k] |= outputd[it]] when [k >= 0], then
    [outputd[it] = 0] and [++it]. *)
Fixpoint propagate_rev (nz : list Z) (it : nat)
    (inputd outputd : list bvec_t) : option (list bvec_t * list bvec_t) :=
  match nz with
  | [] => Some (inputd, outputd)
  | k :: nz' =>
      o ← vget outputd (Z.of_nat it);
      inputd' ← (if 0 <=? k
                 then old ← vget inputd k; vset inputd k (Z.lor old o)
                 else Some inputd);
      outputd' ← vset outputd (Z.of_nat it) 0;
      propagate_rev nz' (S it) inputd' outputd'
  end.

(** [GetNonzeros::propagateSparsity]; the result is the pair of the data of
    [input[0]] and of [output[0]]. *)
Definition propagateSparsity (nz_ : list Z) (inputd outputd : list bvec_t)
    (fwd : bool) : option (list bvec_t * list bvec_t) :=
  if fwd then
    outputd' ← propagate_fwd inputd nz_ 0 outputd;
    Some (inputd, outputd')
  else propagate_rev nz_ 0 inputd outputd.

(** The loop of [isIdentity]: [if(nz_[k] != k) return false]. *)
Fixpoint in_order (nz : list Z) (k : Z) : bool :=
  match nz with
  | [] => true
  | x :: nz' => if negb (x =? k) then false else in_order nz' (k + 1)
  end.

(** [GetNonzeros::isIdentity], for the node [MXGetNonzeros sp y nz_]. *)
Definition isIdentity (sp : CRSSparsity) (y : MX) (nz_ : list Z) : bool :=
  if negb (sp_eqb sp (sparsity y)) then false
  else in_order nz_ 0.

(** Modelled from the spec: [MXNode::getGetNonzeros] of the base class is
    defined outside the files at hand; on a node that is not itself a
    selection it builds the selection node with the given pattern and
    index vector (the slice variants store the same mapping compactly). *)
Definition MXNode_getGetNonzeros (x : MX) (sp : CRSSparsity) (nz : list Z)
    : MX :=
  MXGetNonzeros sp x nz.

(** [x->getGetNonzeros(sp,nz)]. On a [GetNonzeros] node the new indices are
    [nz_new[i] = nz_[nz[i]]], read without a test on [nz[i]], and the call
    is passed on to the dependency. *)
Fixpoint getGetNonzeros (x : MX) (sp : CRSSparsity) (nz : list Z)
    : option MX :=
  match x with
  | MXGetNonzeros _ y nz_ =>
      nz_new ← mapM (vget nz_) nz;
      getGetNonzeros y sp nz_new
  | MXSymbolic _ _ => Some (MXNode_getGetNonzeros x sp nz)
  end.

(** Modelled from the spec: the traversal driver is outside the files at
    hand; it visits the leaves first and gives each node an output buffer
    with one entry per nonzero of the node's pattern. The value of a
    selection node is what [evaluateD] writes with no direction. *)
Fixpoint value (env : string -> list double) (x : MX)
    : option (list double) :=
  match x with
  | MXSymbolic name _ => Some (env name)
  | MXGetNonzeros sp y nz_ =>
      xd ← value env y;
      b ← evaluateD nz_ xd []
            (Buffers (replicate (sp_size sp) Double.zero) [] [] []);
      Some (output0 b)
  end.

Section Symbolic.

(** The nodes [evaluateMX] assigns: [*output[0]], and for each direction
    [*fwdSens[d][0]], [*adjSeed[d][0]] and [*adjSens[d][0]]. *)
Record mx_buffers : Type := MXBuffers {
  mx_output : MX;
  mx_fwdSens : list MX;
  mx_adjSeed : list MX;
  mx_adjSens : list MX
}.

(** [CRSSparsity::getRow], the row of every nonzero; declared outside the
    files at hand. *)
Variable getRow : CRSSparsity -> list Z.

(** The second half of [evaluateMX] (from "Sparsity pattern being formed"
    to the end): it builds the value, forward and adjoint nodes from
    [nz_order] and [el_input] through pattern operations and node
    constructors that are declared outside the files at hand. *)
Variable derivative_nodes :
  list Z -> list Z -> MX -> list MX -> mx_buffers -> bool ->
  outcome mx_buffers.

(** The counting loop: [casadi_assert_message(it>=0,"Not implemented")],
    then [inz_count[it+1]++]. *)
Fixpoint count_inputs (nz : list Z) (inz_count : list Z)
    : outcome (list Z) :=
  match nz with
  | [] => Returns inz_count
  | it :: nz' =>
      if negb (0 <=? it)
      then Throws (AssertionFailure "Not implemented") inz_count
      else
        match (c ← vget inz_count (it + 1);
               vset inz_count (it + 1) (c + 1)) with
        | None => Undefined
        | Some inz_count' => count_inputs nz' inz_count'
        end
  end.

(** [inz_count[i+1] += inz_count[i]] for [i < icol.size()]. *)
Definition cumsum (n : Z) (inz_count : list Z) : option (list Z) :=
  for_loop n (fun i c =>
    a ← vget c (i + 1);
    b ← vget c i;
    vset c (i + 1) (a + b)) inz_count.

(** [nz_order[inz_count[nz_[k]]++] = k] for [k < nz_.size()]. *)
Definition assignment_order (nz_ : list Z) (inz_count : list Z)
    : option (list Z * list Z) :=
  for_loop (Z.of_nat (length nz_)) (fun k '(c, order) =>
    i ← vget nz_ k;
    pos ← vget c i;
    c' ← vset c i (pos + 1);
    order' ← vset order pos k;
    Some (c', order')) (inz_count, replicate (length nz_) 0).

(** [el_input[k] = irow[inz_k] + icol[inz_k]*isp.size1()] with
    [inz_k = nz_[nz_order[k]]]. The source reuses the memory of [inz_count],
    resized to [nz_.size()]; every entry is overwritten by the loop. *)
Definition input_elements (nz_ nz_order irow icol : list Z) (isp_size1 : Z)
    : option (list Z) :=
  for_loop (Z.of_nat (length nz_)) (fun k el =>
    o ← vget nz_order k;
    inz_k ← vget nz_ o;
    r ← vget irow inz_k;
    c ← vget icol inz_k;
    vset el k (r + c * isp_size1)) (replicate (length nz_) 0).

(** [GetNonzeros::evaluateMX], for the node [MXGetNonzeros sp y nz_]. The
    output pattern [sp] (with its [col()] and [getRow()]) is read by the
    second half only. *)
Definition evaluateMX (sp : CRSSparsity) (y : MX) (nz_ : list Z)
    (input0 : MX) (fwdSeed : list MX) (b : mx_buffers)
    (output_given : bool) : outcome mx_buffers :=
  let isp := sparsity y in
  let icol := col isp in
  let irow := getRow isp in
  match count_inputs nz_ (replicate (length icol + 1) 0) with
  | Throws e _ => Throws e b
  | Undefined => Undefined
  | Returns inz_count =>
      match (inz_count' ← cumsum (Z.of_nat (length icol)) inz_count;
             '(_, nz_order) ← assignment_order nz_ inz_count';
             el_input ← input_elements nz_ nz_order irow icol (size1 isp);
             Some (nz_order, el_input)) with
      | None => Undefined
      | Some (nz_order, el_input) =>
          derivative_nodes nz_order el_input input0 fwdSeed b output_given
      end
  end.

End Symbolic.

(** [GetNonzeros::simplifyMe], for the node [MXGetNonzeros sp y nz_] held by
    the expression [ex]: [if(isIdentity()) ex = dep(0)]. *)
Definition simplifyMe (sp : CRSSparsity) (y : MX) (nz_ : list Z) (ex : MX)
    : MX :=
  if isIdentity sp y nz_ then y else ex.

(** Counting notions for the order [evaluateMX] computes: how many entries
    of [l] equal [j], how many are smaller than [j], and the positions
    (counted from [base]) of the entries equal to [j], in increasing
    order. *)
Definition occurrences (j : Z) (l : list Z) : nat :=
  length (filter (fun k => k = j) l).

Definition smaller (j : Z) (l : list Z) : nat :=
  length (filter (fun k => k < j) l).

Fixpoint positions (j : Z) (l : list Z) (base : nat) : list Z :=
  match l with
  | [] => []
  | k :: l' =>
      if decide (k = j)
      then Z.of_nat base :: positions j l' (S base)
      else positions j l' (S base)
  end.

(** [order] lists the positions of [nz] sorted by their entry, positions
    with the same entry in increasing order: the [r]-th position holding
    [j] sits in slot [smaller j nz + r]. *)
Definition is_input_order (m : nat) (nz order : list Z) : Prop :=
  length order = length nz
  /\ forall (j : Z) (r : nat) (p : Z),
       0 <= j < Z.of_nat m ->
       positions j nz 0 !! r = Some p ->
       order !! (smaller j nz + r)%nat = Some p.

(** The same order in closed form: the positions holding [0], then those
    holding [1], and so on up to [m - 1]. *)
Definition sorted_positions (m : nat) (nz : list Z) : list Z :=
  concat (map (fun j => positions (Z.of_nat j) nz 0) (seq 0 m)).

End GetNonzeros.

(** ** Enumerating a range ([alpaqa/util/iter-adapter.hpp]) *)

Module IterAdapter.

Section Enumerate.

Context {A : Type}.

(** The underlying range is a list: an iterator of it is a position,
    [std::ranges::begin] is position 0 and [std::ranges::end] is the
    length. [enumerate_t::iter_t] holds the running index (a signed
    difference type, value-initialised to 0) and the underlying iterator;
    [sentinel_t] holds the underlying end. *)
Record iter_t : Type := Iter { index : Z; it : nat }.

Definition sentinel_t : Type := nat.

(** [begin()]: [iter_t{std::ranges::begin(rng)}]. *)
Definition begin (rng : list A) : iter_t := Iter 0 0.

(** [end()]: [sentinel_t{std::ranges::end(rng)}]. *)
Definition end_ (rng : list A) : sentinel_t := length rng.

(** [operator!=(sentinel_t s)]: [s.it != it]. *)
Definition neq (i : iter_t) (s : sentinel_t) : bool :=
  negb (Nat.eqb s (it i)).

(** [operator++()]: [++it; ++index]. *)
Definition incr (i : iter_t) : iter_t := Iter (index i + 1) (S (it i)).

(** [operator*()]: the pair [{index, *it}]; dereferencing the end of the
    range is undefined. *)
Definition deref (rng : list A) (i : iter_t) : option (Z * A) :=
  x ← rng !! it i; Some (index i, x).

(** The range-based [for] over [enumerate(rng)], started at [i]: while
    [i != end()], the body receives [*i] and [i] is incremented. The result
    lists what the body receives; [fuel] bounds the number of tests of the
    loop condition. *)
Fixpoint for_each (fuel : nat) (rng : list A) (i : iter_t)
    : option (list (Z * A)) :=
  match fuel with
  | O => None
  | S fuel' =>
      if neq i (end_ rng)
      then v ← deref rng i;
           rest ← for_each fuel' rng (incr i);
           Some (v :: rest)
      else Some []
  end.

End Enumerate.

End IterAdapter.

(** * Properties *)

(** ** Vectors and loops *)

Lemma vget_Some {A : Type} (v : list A) (k : Z) :
  0 <= k -> (Z.to_nat k < length v)%nat ->
  exists x, vget v k = Some x /\ v !! Z.to_nat k = Some x.
Proof.
  intros Hk Hlt. unfold vget.
  destruct (Z.ltb_spec k 0) as [?|_]; [lia|].
  destruct (lookup_lt_is_Some_2 v (Z.to_nat k) Hlt) as [x Hx]. eauto.
Qed.

Lemma vget_lookup {A : Type} (v : list A) (k : Z) (x : A) :
  vget v k = Some x -> 0 <= k /\ v !! Z.to_nat k = Some x.
Proof.
  unfold vget. destruct (Z.ltb_spec k 0); [discriminate|]. auto.
Qed.

Lemma vget_of_nat {A : Type} (v : list A) (i : nat) :
  vget v (Z.of_nat i) = v !! i.
Proof.
  unfold vget. destruct (Z.ltb_spec (Z.of_nat i) 0); [lia|].
  by rewrite Nat2Z.id.
Qed.

Lemma vset_Some {A : Type} (v : list A) (k : Z) (x : A) :
  0 <= k -> (Z.to_nat k < length v)%nat ->
  vset v k x = Some (<[Z.to_nat k := x]> v).
Proof.
  intros Hk Hlt. unfold vset.
  destruct (Z.ltb_spec k 0); [lia|]. by rewrite decide_True.
Qed.

Lemma vset_inv {A : Type} (v v' : list A) (k : Z) (x : A) :
  vset v k x = Some v' ->
  0 <= k /\ (Z.to_nat k < length v)%nat /\ v' = <[Z.to_nat k := x]> v.
Proof.
  unfold vset. destruct (Z.ltb_spec k 0); [discriminate|].
  case_decide; [|discriminate]. intros [= <-]. auto.
Qed.

Lemma vset_of_nat {A : Type} (v : list A) (i : nat) (x : A) :
  (i < length v)%nat -> vset v (Z.of_nat i) x = Some (<[i := x]> v).
Proof.
  intros Hlt. rewrite vset_Some; [|lia|by rewrite Nat2Z.id].
  by rewrite Nat2Z.id.
Qed.

Lemma Forall_at {A : Type} (P : A -> Prop) (l : list A) (i : nat) (x : A) :
  Forall P l -> l !! i = Some x -> P x.
Proof. intros H Hl. by eapply Forall_lookup_1. Qed.

(** A loop whose body keeps an invariant, and cannot fail while the
    invariant holds, runs to its end and establishes the invariant there. *)
Lemma for_range_inv {S : Type} (P : Z -> S -> Prop)
    (body : Z -> S -> option S) (count : nat) :
  forall (k : Z) (s : S),
    P k s ->
    (forall i s0, k <= i < k + Z.of_nat count -> P i s0 ->
       exists s1, body i s0 = Some s1 /\ P (i + 1) s1) ->
    exists s', for_range body k count s = Some s' /\ P (k + Z.of_nat count) s'.
Proof.
  induction count as [|c IH]; intros k s HP Hbody; simpl.
  - exists s. split; [done|]. by replace (k + Z.of_nat 0) with k by lia.
  - destruct (Hbody k s) as (s1 & -> & HP1); [lia|done|].
    destruct (IH (k + 1) s1 HP1) as (s' & Hrun & HP').
    + intros i s0 Hi. apply Hbody. lia.
    + exists s'. split; [done|].
      by replace (k + Z.of_nat (Datatypes.S c)) with (k + 1 + Z.of_nat c) by lia.
Qed.

Lemma for_loop_inv {S : Type} (P : Z -> S -> Prop)
    (n : Z) (body : Z -> S -> option S) (s : S) :
  P 0 s ->
  (forall i s0, 0 <= i < n -> P i s0 ->
     exists s1, body i s0 = Some s1 /\ P (i + 1) s1) ->
  exists s', for_loop n body s = Some s' /\ P (Z.max 0 n) s'.
Proof.
  intros HP Hbody. unfold for_loop.
  destruct (for_range_inv P body (Z.to_nat n) 0 s HP) as (s' & Hrun & HP').
  - intros i s0 Hi. apply Hbody. lia.
  - exists s'. split; [done|].
    by replace (Z.max 0 n) with (0 + Z.of_nat (Z.to_nat n)) by lia.
Qed.

(** ** The infinity norm *)

Lemma gtb_infinity (a : double) : Double.gtb a Double.infinity = false.
Proof. by destruct a as [[]|[]| |[] ? ?]. Qed.

Lemma NormInf_step_infinity (inputd : list double) (k : Z) (t : double) :
  Norm.NormInf_step inputd k Double.infinity = Some t -> t = Double.infinity.
Proof.
  unfold Norm.NormInf_step. destruct (vget inputd k) as [x|]; simpl; [|done].
  rewrite gtb_infinity. by intros [= <-].
Qed.

(** The running maximum starts at [+infinity], which no absolute value
    exceeds: whatever the input, the loop ends with [+infinity]. *)
Lemma NormInf_loop_infinity (inputd : list double) (count : nat) :
  forall k t,
    for_range (Norm.NormInf_step inputd) k count Double.infinity = Some t ->
    t = Double.infinity.
Proof.
  induction count as [|c IH]; intros k t; simpl.
  - by intros [= <-].
  - destruct (Norm.NormInf_step inputd k Double.infinity) as [t1|] eqn:E;
      [|done].
    apply NormInf_step_infinity in E as ->. apply IH.
Qed.

Lemma NormInf_loop_runs (inputd : list double) (n : Z) :
  (Z.to_nat n <= length inputd)%nat ->
  for_loop n (Norm.NormInf_step inputd) Double.infinity = Some Double.infinity.
Proof.
  intros Hn.
  destruct (for_loop_inv (fun _ _ => True) n (Norm.NormInf_step inputd)
              Double.infinity I) as (t & Hrun & _).
  - intros i t Hi _. unfold Norm.NormInf_step.
    destruct (vget_Some inputd i) as (x & -> & _); [lia|lia|]. simpl. eauto.
  - rewrite Hrun. f_equal. by eapply NormInf_loop_infinity.
Qed.

(** Whenever [NormInf::evaluate] gets to write its value, the value is
    [+infinity]. *)
Lemma NormInf_value_always_infinity (n : Z) (inputd : list double)
    (b b' : Norm.buffers) (nfwd nadj : Z) :
  Norm.NormInf_evaluate n inputd b nfwd nadj = Returns b' ->
  Norm.outputd b' !! 0%nat = Some Double.infinity.
Proof.
  unfold Norm.NormInf_evaluate.
  destruct (for_loop n _ _) as [t|] eqn:Hloop; [|done].
  apply NormInf_loop_infinity in Hloop as ->.
  destruct (vset _ 0 _) as [out|] eqn:Hset; [|done].
  apply vset_inv in Hset as (_ & Hlen & ->).
  destruct (negb _); [done|]. intros [= <-]. simpl.
  by apply list_lookup_insert_eq.
Qed.

(** C1. The specification gives [max_k |x_k|] as the value of the
    infinity-norm node. On the one-element vector [x = [1]], with no
    direction, [NormInf::evaluate] writes [+infinity], while the maximum of
    the absolute values is [1]. *)
Theorem NormInf_evaluate_one :
  Norm.NormInf_evaluate 1 [Double.of_int 1]
    (Norm.Buffers [Double.zero] [] []) 0 0
  = Returns (Norm.Buffers [Double.infinity] [] [])
  /\ Norm.spec_max_abs [Double.of_int 1] = Double.of_int 1
  /\ Double.infinity <> Double.of_int 1.
Proof. split; [reflexivity|]. split; [reflexivity|discriminate]. Qed.

(** C7. With buffers of the declared sizes and a direction count
    [nadj >= 0], [NormInf::evaluate] throws its "not implemented" exception
    exactly when [nadj > 0]; with [nadj = 0] it returns, whatever [nfwd]. *)
Theorem NormInf_throws_iff_adjoint (n : Z) (inputd : list double)
    (b : Norm.buffers) (nfwd nadj : Z)
    (Hnadj : 0 <= nadj)
    (Hin : (Z.to_nat n <= length inputd)%nat)
    (Hout : (0 < length (Norm.outputd b))%nat) :
  ((exists b', Norm.NormInf_evaluate n inputd b nfwd nadj
               = Throws (Exception "NormInf::evaluate not implemented") b')
   <-> 0 < nadj)
  /\ (nadj = 0 ->
      exists b', Norm.NormInf_evaluate n inputd b nfwd nadj = Returns b').
Proof.
  unfold Norm.NormInf_evaluate. rewrite NormInf_loop_runs by done.
  rewrite vset_Some by (simpl; lia).
  destruct (Z.eqb_spec nadj 0) as [->|Hne]; simpl.
  - split; [|eauto]. split; [intros [? [=]]|lia].
  - split; [|lia]. split; [lia|eauto].
Qed.

Lemma NormInf_throws_iff_adjoint_witness :
  ((exists b', Norm.NormInf_evaluate 2 [Double.of_int 3; Double.of_int (-4)]
                 (Norm.Buffers [Double.zero] [] []) 0 1
               = Throws (Exception "NormInf::evaluate not implemented") b')
   <-> 0 < 1)
  /\ (1 = 0 ->
      exists b', Norm.NormInf_evaluate 2 [Double.of_int 3; Double.of_int (-4)]
                   (Norm.Buffers [Double.zero] [] []) 0 1 = Returns b').
Proof.
  apply (NormInf_throws_iff_adjoint 2 [Double.of_int 3; Double.of_int (-4)]
           (Norm.Buffers [Double.zero] [] []) 0 1); simpl; lia.
Defined.

(** ** The sensitivity loops of the norms *)

Section NormLoops.

Variables (n : Z) (inputd : list double).
Hypothesis Hinput : (Z.to_nat n <= length inputd)%nat.

Lemma sum_loop_runs (step : list double -> Z -> double -> option double)
    (f : double -> double -> double) (t0 : double) :
  (forall k t, step inputd k t = x ← vget inputd k; Some (f t x)) ->
  exists t, for_loop n (step inputd) t0 = Some t.
Proof.
  intros Hstep.
  destruct (for_loop_inv (fun _ _ => True) n (step inputd) t0 I)
    as (t & Hrun & _); [|eauto].
  intros i t Hi _. rewrite Hstep.
  destruct (vget_Some inputd i) as (x & -> & _); [lia|lia|]. simpl. eauto.
Qed.

Lemma forward_direction_runs (step : double -> double -> double -> double)
    (fseed fsens : list double) :
  (Z.to_nat n <= length fseed)%nat -> (0 < length fsens)%nat ->
  exists fs', Norm.forward_direction step n inputd fseed fsens = Some fs'
              /\ length fs' = length fsens.
Proof.
  intros Hseed Hsens. unfold Norm.forward_direction.
  rewrite vset_Some by (simpl; lia). simpl.
  destruct (for_loop_inv (fun _ fs => length fs = length fsens) n
    (fun k fs =>
       s ← vget fseed k; x ← vget inputd k; acc ← vget fs 0;
       vset fs 0 (step x s acc)) (<[Z.to_nat 0 := Double.of_int 0]> fsens))
    as (fs' & Hrun & Hlen); [by rewrite length_insert| |eauto].
  intros i fs Hi Hfs.
  destruct (vget_Some fseed i) as (s & -> & _); [lia|lia|].
  destruct (vget_Some inputd i) as (x & -> & _); [lia|lia|].
  destruct (vget_Some fs 0) as (acc & -> & _); [lia|simpl; lia|]. simpl.
  rewrite vset_Some by (simpl; lia).
  eexists. split; [done|]. by rewrite length_insert.
Qed.

Lemma propagate_forward_runs (step : double -> double -> double -> double)
    (nfwd : Z) (fwdSeed fwdSens : list (list double)) :
  (Z.to_nat nfwd <= length fwdSeed)%nat ->
  (Z.to_nat nfwd <= length fwdSens)%nat ->
  Forall (fun s => (Z.to_nat n <= length s)%nat) fwdSeed ->
  Forall (fun s => (0 < length s)%nat) fwdSens ->
  exists fS, Norm.propagate_forward step n nfwd inputd fwdSeed fwdSens
             = Some fS.
Proof.
  intros Hn1 Hn2 Hseed Hsens. unfold Norm.propagate_forward.
  destruct (for_loop_inv
    (fun _ fS => length fS = length fwdSens
                 /\ Forall (fun s => (0 < length s)%nat) fS) nfwd
    (fun d fS =>
       fsens ← vget fS d; fseed ← vget fwdSeed d;
       fsens' ← Norm.forward_direction step n inputd fseed fsens;
       vset fS d fsens') fwdSens) as (fS & Hrun & _); [done| |eauto].
  intros d fS Hd [Hlen Hall].
  destruct (vget_Some fS d) as (fsens & -> & Hfsens); [lia|lia|].
  destruct (vget_Some fwdSeed d) as (fseed & -> & Hfseed); [lia|lia|].
  simpl.
  destruct (forward_direction_runs step fseed fsens) as (fs' & -> & Hfs').
  - exact (Forall_at _ _ _ _ Hseed Hfseed).
  - exact (Forall_at _ _ _ _ Hall Hfsens).
  - simpl. rewrite vset_Some by lia. eexists. split; [done|].
    rewrite length_insert. split; [done|].
    apply Forall_insert; [done|]. rewrite Hfs'.
    exact (Forall_at _ _ _ _ Hall Hfsens).
Qed.

Lemma adjoint_direction_runs (upd : double -> double -> double -> double)
    (s : double) (asens : list double) :
  (Z.to_nat n <= length asens)%nat ->
  exists a', Norm.adjoint_direction upd n inputd s asens = Some a'
             /\ length a' = length asens.
Proof.
  intros Hsens. unfold Norm.adjoint_direction.
  destruct (for_loop_inv (fun _ a => length a = length asens) n
    (fun k a => x ← vget inputd k; old ← vget a k; vset a k (upd x s old))
    asens) as (a' & Hrun & Hlen); [done| |eauto].
  intros i a Hi Ha.
  destruct (vget_Some inputd i) as (x & -> & _); [lia|lia|].
  destruct (vget_Some a i) as (old & -> & _); [lia|lia|]. simpl.
  rewrite vset_Some by lia.
  eexists. split; [done|]. by rewrite length_insert.
Qed.

(** The adjoint loop runs to its end, and a direction whose seed compares
    equal to zero keeps its sensitivity vector. *)
Lemma propagate_adjoint_frame (upd : double -> double -> double -> double)
    (nadj : Z) (adjSeed adjSens : list (list double)) :
  (Z.to_nat nadj <= length adjSeed)%nat ->
  (Z.to_nat nadj <= length adjSens)%nat ->
  Forall (fun s => (0 < length s)%nat) adjSeed ->
  Forall (fun a => (Z.to_nat n <= length a)%nat) adjSens ->
  exists aS,
    Norm.propagate_adjoint upd n nadj inputd adjSeed adjSens = Some aS
    /\ forall (d : nat) seed s,
         adjSeed !! d = Some seed -> seed !! 0%nat = Some s ->
         Double.eqb s (Double.of_int 0) = true ->
         aS !! d = adjSens !! d.
Proof.
  intros Hn1 Hn2 Hseed Hsens. unfold Norm.propagate_adjoint.
  destruct (for_loop_inv
    (fun _ aS =>
       length aS = length adjSens
       /\ Forall (fun a => (Z.to_nat n <= length a)%nat) aS
       /\ forall (d : nat) seed s,
            adjSeed !! d = Some seed -> seed !! 0%nat = Some s ->
            Double.eqb s (Double.of_int 0) = true ->
            aS !! d = adjSens !! d) nadj
    (fun d aS =>
       seed ← vget adjSeed d; s ← vget seed 0;
       if Double.eqb s (Double.of_int 0) then Some aS
       else asens ← vget aS d;
            asens' ← Norm.adjoint_direction upd n inputd s asens;
            vset aS d asens') adjSens) as (aS & Hrun & _ & _ & Hframe);
    [done| |eauto].
  intros d aS Hd (Hlen & Hall & Hframe).
  destruct (vget_Some adjSeed d) as (seed & -> & Hseed_d); [lia|lia|].
  simpl.
  assert (0 < length seed)%nat as Hseed0
    by exact (Forall_at _ _ _ _ Hseed Hseed_d).
  destruct (vget_Some seed 0) as (s & -> & Hs); [lia|simpl; lia|]. simpl.
  destruct (Double.eqb s (Double.of_int 0)) eqn:Hzero; [eauto|].
  destruct (vget_Some aS d) as (asens & -> & Hasens); [lia|lia|]. simpl.
  destruct (adjoint_direction_runs upd s asens) as (a' & -> & Ha').
  { exact (Forall_at _ _ _ _ Hall Hasens). }
  simpl. rewrite vset_Some by lia. eexists. split; [done|].
  rewrite length_insert. split; [done|]. split.
  - apply Forall_insert; [done|]. rewrite Ha'.
    exact (Forall_at _ _ _ _ Hall Hasens).
  - intros d' seed' s' Hseed' Hs' Hzero'.
    destruct (decide (d' = Z.to_nat d)) as [->|Hne].
    + rewrite Hseed_d in Hseed'. injection Hseed' as <-.
      change (seed !! Z.to_nat 0) with (seed !! 0%nat) in Hs.
      congruence.
    + rewrite list_lookup_insert_ne by done. eauto.
Qed.

End NormLoops.

(** C9. For the 1-norm, the 2-norm and the squared 2-norm, with buffers of
    the declared sizes: [evaluate] returns, and an adjoint direction [d]
    whose incoming seed [adjSeed[d]->data()[0]] compares equal to zero has
    its sensitivity vector [adjSens[0][d]] exactly as before the call. *)
Theorem norm_zero_seed_frame (n : Z) (inputd : list double)
    (b : Norm.buffers) (fwdSeed adjSeed : list (list double)) (nfwd nadj : Z)
    (d : nat) (seed : list double) (s : double)
    (Hws : Norm.well_sized n inputd b fwdSeed adjSeed nfwd nadj)
    (Hseed : adjSeed !! d = Some seed)
    (Hs : seed !! 0%nat = Some s)
    (Hzero : Double.eqb s (Double.of_int 0) = true) :
  (exists b', Norm.Norm1_evaluate n inputd b fwdSeed adjSeed nfwd nadj
              = Returns b'
              /\ Norm.adjSens b' !! d = Norm.adjSens b !! d)
  /\ (exists b', Norm.Norm2_evaluate n inputd b fwdSeed adjSeed nfwd nadj
                 = Returns b'
                 /\ Norm.adjSens b' !! d = Norm.adjSens b !! d)
  /\ (exists b', Norm.Norm22_evaluate n inputd b fwdSeed adjSeed nfwd nadj
                 = Returns b'
                 /\ Norm.adjSens b' !! d = Norm.adjSens b !! d).
Proof.
  destruct Hws as [Hin Hout Hf1 Hf2 Hf3 Hf4 Ha1 Ha2 Ha3 Ha4].
  assert (forall upd, exists aS,
    Norm.propagate_adjoint upd n nadj inputd adjSeed (Norm.adjSens b) = Some aS
    /\ aS !! d = Norm.adjSens b !! d) as Hadj.
  { intros upd.
    destruct (propagate_adjoint_frame n inputd Hin upd nadj adjSeed
                (Norm.adjSens b)) as (aS & Hrun & Hframe); try done.
    exists aS. split; [done|]. by eapply Hframe. }
  assert (forall step, exists fS,
    Norm.propagate_forward step n nfwd inputd fwdSeed (Norm.fwdSens b)
    = Some fS) as Hfwd.
  { intros step. by apply propagate_forward_runs. }
  split; [|split].
  - unfold Norm.Norm1_evaluate.
    destruct ((nfwd =? 0) && (nadj =? 0)).
    + destruct (sum_loop_runs n inputd Hin Norm.abs_step
                  (fun t x => Double.add t (Double.abs x)) (Double.of_int 0))
        as (t & ->); [done|]. simpl.
      rewrite vset_Some by (simpl; lia). simpl. eauto.
    + destruct (Hfwd Norm.Norm1_fwd) as (fS & ->).
      destruct (Hadj Norm.Norm1_adj) as (aS & -> & Hd). simpl. eauto.
  - unfold Norm.Norm2_evaluate.
    destruct (sum_loop_runs n inputd Hin Norm.sumsq_step
                (fun t x => Double.add t (Double.mul x x)) (Double.of_int 0))
      as (t & ->); [done|]. simpl.
    rewrite vset_Some by (simpl; lia). simpl.
    destruct (vget_Some (<[Z.to_nat 0 := Double.sqrt t]> (Norm.outputd b)) 0)
      as (out0 & -> & _); [lia|rewrite length_insert; simpl; lia|]. simpl.
    destruct (Hfwd (Norm.Norm2_fwd out0)) as (fS & ->).
    destruct (Hadj (Norm.Norm2_adj out0)) as (aS & -> & Hd). simpl. eauto.
  - unfold Norm.Norm22_evaluate.
    destruct (sum_loop_runs n inputd Hin Norm.sumsq_step
                (fun t x => Double.add t (Double.mul x x)) (Double.of_int 0))
      as (t & ->); [done|]. simpl.
    rewrite vset_Some by (simpl; lia). simpl.
    destruct (Hfwd Norm.Norm22_fwd) as (fS & ->).
    destruct (Hadj Norm.Norm22_adj) as (aS & -> & Hd). simpl. eauto.
Qed.

Lemma norm_zero_seed_frame_witness :
  let x := [Double.of_int 3; Double.of_int 4] in
  let b := Norm.Buffers [Double.zero] []
             [[Double.of_int 1; Double.of_int 2];
              [Double.of_int 7; Double.of_int 8]] in
  let adjSeed := [[S754_zero true]; [Double.of_int 1]] in
  (exists b', Norm.Norm1_evaluate 2 x b [] adjSeed 0 2 = Returns b'
              /\ Norm.adjSens b' !! 0%nat = Norm.adjSens b !! 0%nat)
  /\ (exists b', Norm.Norm2_evaluate 2 x b [] adjSeed 0 2 = Returns b'
                 /\ Norm.adjSens b' !! 0%nat = Norm.adjSens b !! 0%nat)
  /\ (exists b', Norm.Norm22_evaluate 2 x b [] adjSeed 0 2 = Returns b'
                 /\ Norm.adjSens b' !! 0%nat = Norm.adjSens b !! 0%nat).
Proof.
  intros x b adjSeed.
  apply (norm_zero_seed_frame 2 x b [] adjSeed 0 2 0 [S754_zero true]
           (S754_zero true)).
  - constructor; simpl; repeat constructor; simpl; lia.
  - reflexivity.
  - reflexivity.
  - reflexivity.
Defined.

(** C5. The specification expects one evaluation of the 1-norm node on
    [x = [-2,0,3]] with one adjoint direction and seed [2] to produce the
    value [5] and the sensitivities [[-2, NaN, 2]]. The sensitivities are as
    expected, but that call leaves the output entry [o] as it found it:
    [Norm1::evaluate] assigns the value only in its branch without
    directions. The 2-norm assigns its value in the same kind of call. *)
Theorem Norm1_adjoint_call_keeps_output (o : double) :
  let x := [Double.of_int (-2); Double.of_int 0; Double.of_int 3] in
  let zeros := [Double.zero; Double.zero; Double.zero] in
  Norm.Norm1_evaluate 3 x (Norm.Buffers [o] [] [zeros])
    [] [[Double.of_int 2]] 0 1
  = Returns (Norm.Buffers [o] []
               [[Double.of_int (-2); Double.quiet_NaN; Double.of_int 2]])
  /\ Norm.Norm1_evaluate 3 x (Norm.Buffers [o] [] [zeros])
       [] [[Double.of_int 2]] 0 0
     = Returns (Norm.Buffers [Double.of_int 5] [] [zeros])
  /\ Norm.Norm2_evaluate 2 [Double.of_int 3; Double.of_int 4]
       (Norm.Buffers [o] [] [[Double.zero; Double.zero]])
       [] [[Double.of_int 0]] 0 1
     = Returns (Norm.Buffers [Double.of_int 5] []
                  [[Double.zero; Double.zero]]).
Proof. repeat split; vm_compute; reflexivity. Qed.

(** ** The gather and scatter loops *)

Section GatherLoops.

Context {T : Type}.
Variables (zero : T) (add : T -> T -> T).

Lemma select_read (src : list T) (k : Z) :
  k < Z.of_nat (length src) ->
  (if 0 <=? k then vget src k else Some zero)
  = Some (GetNonzeros.spec_select zero src k).
Proof.
  intros Hk. unfold GetNonzeros.spec_select.
  destruct (Z.leb_spec 0 k); [|done].
  destruct (vget_Some src k) as (x & -> & Hx); [lia|lia|].
  f_equal. symmetry. by apply nth_lookup_Some with (d := zero) in Hx.
Qed.

(** The gather loop started at position [it] of [dst] overwrites the next
    [length nz] positions with the selected values. *)
Lemma gather_spec (src : list T) (nz : list Z) :
  Forall (fun k => k < Z.of_nat (length src)) nz ->
  forall (it : nat) (dst : list T),
    (it + length nz <= length dst)%nat ->
    GetNonzeros.gather zero src nz it dst
    = Some (take it dst ++ map (GetNonzeros.spec_select zero src) nz
            ++ drop (it + length nz) dst).
Proof.
  induction 1 as [|k nz Hk Hnz IH]; intros it dst Hlen; simpl in *.
  - by rewrite Nat.add_0_r, take_drop.
  - rewrite select_read by done. simpl.
    rewrite vset_of_nat by lia. simpl.
    rewrite IH by (rewrite length_insert; lia).
    f_equal.
    rewrite (take_S_r _ _ (GetNonzeros.spec_select zero src k))
      by (apply list_lookup_insert_eq; lia).
    rewrite take_insert_ge by lia.
    rewrite drop_insert_lt by lia.
    replace (it + S (length nz))%nat with (S it + length nz)%nat by lia.
    by rewrite <- app_assoc.
Qed.

Lemma gather_full (src : list T) (nz : list Z) (dst : list T) :
  Forall (fun k => k < Z.of_nat (length src)) nz ->
  length dst = length nz ->
  GetNonzeros.gather zero src nz 0 dst
  = Some (map (GetNonzeros.spec_select zero src) nz).
Proof.
  intros Hnz Hlen. rewrite gather_spec by (done || simpl; lia). simpl.
  by rewrite drop_ge, app_nil_r by lia.
Qed.

(** The scatter loop started at position [it] of the seed clears the next
    [length nz] seed entries and adds them into the accumulator. *)
Lemma scatter_spec (nz : list Z) :
  forall (it : nat) (aseed asens : list T),
    Forall (fun k => k < Z.of_nat (length asens)) nz ->
    (it + length nz <= length aseed)%nat ->
    exists asens',
      GetNonzeros.scatter zero add nz it aseed asens
      = Some (take it aseed ++ replicate (length nz) zero
              ++ drop (it + length nz) aseed, asens')
      /\ length asens' = length asens
      /\ forall (j : nat) (a : T),
           asens !! j = Some a ->
           asens' !! j
           = Some (fold_left add
                     (GetNonzeros.spec_contributions j nz (drop it aseed)) a).
Proof.
  induction nz as [|k nz IH]; intros it aseed asens Hnz Hlen; simpl in *.
  - exists asens. rewrite Nat.add_0_r, take_drop.
    by repeat split.
  - apply Forall_cons in Hnz as [Hk Hnz].
    rewrite vget_of_nat.
    destruct (lookup_lt_is_Some_2 aseed it) as [s Hs]; [lia|].
    rewrite Hs. simpl.
    rewrite (drop_S _ _ _ Hs).
    set (asens1 := if 0 <=? k
                   then <[Z.to_nat k := add (nth (Z.to_nat k) asens zero) s]>
                          asens
                   else asens).
    assert ((if 0 <=? k
             then old ← vget asens k; vset asens k (add old s)
             else Some asens) = Some asens1) as ->.
    { subst asens1. destruct (Z.leb_spec 0 k); [|done].
      destruct (vget_Some asens k) as (old & -> & Hold); [lia|lia|]. simpl.
      rewrite vset_Some by lia.
      by apply nth_lookup_Some with (d := zero) in Hold as ->. }
    assert (length asens1 = length asens) as Hlen1.
    { subst asens1. destruct (0 <=? k); [by rewrite length_insert|done]. }
    simpl. rewrite vset_of_nat by lia. simpl.
    destruct (IH (S it) (<[it := zero]> aseed) asens1)
      as (asens' & -> & Hlen' & Hacc).
    { by rewrite Hlen1. }
    { rewrite length_insert. lia. }
    exists asens'. split; [|split; [congruence|]].
    + do 2 f_equal.
      rewrite (take_S_r _ _ zero) by (apply list_lookup_insert_eq; lia).
      rewrite take_insert_ge by lia.
      rewrite drop_insert_lt by lia.
      replace (it + S (length nz))%nat with (S it + length nz)%nat by lia.
      by rewrite <- app_assoc.
    + intros j a Ha.
      rewrite drop_insert_lt in Hacc by lia.
      case_decide as Hkj.
      * simpl. apply Hacc. subst asens1 k.
        destruct (Z.leb_spec 0 (Z.of_nat j)); [|lia].
        rewrite Nat2Z.id.
        apply nth_lookup_Some with (d := zero) in Ha as Hnth.
        rewrite Hnth. apply list_lookup_insert_eq.
        by eapply lookup_lt_Some.
      * apply Hacc. subst asens1.
        destruct (Z.leb_spec 0 k); [|done].
        rewrite list_lookup_insert_ne by lia. done.
Qed.

Lemma scatter_full (nz : list Z) (aseed asens : list T) :
  Forall (fun k => k < Z.of_nat (length asens)) nz ->
  length aseed = length nz ->
  exists asens',
    GetNonzeros.scatter zero add nz 0 aseed asens
    = Some (replicate (length nz) zero, asens')
    /\ GetNonzeros.spec_adjoint zero add nz aseed asens
         (replicate (length nz) zero) asens'.
Proof.
  intros Hnz Hlen.
  destruct (scatter_spec nz 0 aseed asens) as (asens' & Hrun & Hl & Hacc);
    [done|simpl; lia|].
  exists asens'. simpl in Hrun.
  rewrite drop_ge, app_nil_r in Hrun by lia.
  split; [done|]. split; [done|]. split; [done|]. exact Hacc.
Qed.

Variables (nz : list Z) (m : nat).
Hypothesis Hnz : Forall (fun k => k < Z.of_nat m) nz.

(** The forward loop over the directions: every direction receives the
    gather of its own seed. *)
Lemma forward_sensitivities_spec (fwdSeed fS0 : list (list T)) :
  (length fS0 <= length fwdSeed)%nat ->
  Forall (fun s => length s = m) fwdSeed ->
  Forall (fun s => length s = length nz) fS0 ->
  exists fS,
    GetNonzeros.forward_sensitivities zero nz (Z.of_nat (length fS0))
      fwdSeed fS0 = Some fS
    /\ length fS = length fS0
    /\ forall (d : nat) fseed,
         (d < length fS0)%nat -> fwdSeed !! d = Some fseed ->
         fS !! d = Some (map (GetNonzeros.spec_select zero fseed) nz).
Proof.
  intros Hn Hseed Hsens. unfold GetNonzeros.forward_sensitivities.
  destruct (for_loop_inv
    (fun i fS =>
       length fS = length fS0
       /\ (forall d : nat, i <= Z.of_nat d -> fS !! d = fS0 !! d)
       /\ forall (d : nat) fseed,
            Z.of_nat d < i -> fwdSeed !! d = Some fseed ->
            fS !! d = Some (map (GetNonzeros.spec_select zero fseed) nz))
    (Z.of_nat (length fS0))
    (fun d fS =>
       fseed ← vget fwdSeed d; fsens ← vget fS d;
       fsens' ← GetNonzeros.gather zero fseed nz 0 fsens;
       vset fS d fsens') fS0) as (fS & Hrun & Hlen & _ & Hdone).
  - split; [done|]. split; [done|]. intros; lia.
  - intros i fS Hi (Hlen & Hrest & Hdone).
    destruct (vget_Some fwdSeed i) as (fseed & -> & Hfseed); [lia|lia|].
    destruct (vget_Some fS i) as (fsens & -> & Hfsens); [lia|lia|]. simpl.
    rewrite Hrest in Hfsens by lia.
    pose proof (Forall_at _ _ _ _ Hseed Hfseed) as Hm. simpl in Hm.
    pose proof (Forall_at _ _ _ _ Hsens Hfsens) as Hl. simpl in Hl.
    rewrite gather_full by (done || by rewrite Hm). simpl.
    rewrite vset_Some by lia. eexists. split; [done|].
    rewrite length_insert. split; [done|]. split.
    + intros d Hd. rewrite list_lookup_insert_ne by lia. apply Hrest. lia.
    + intros d fseed' Hd Hfseed'.
      destruct (decide (d = Z.to_nat i)) as [->|Hne].
      * rewrite list_lookup_insert_eq by lia. congruence.
      * rewrite list_lookup_insert_ne by done. apply Hdone; [lia|done].
  - exists fS. split; [done|]. split; [done|].
    intros d fseed Hd. apply Hdone. lia.
Qed.

(** The adjoint loop over the directions: every direction has its seed
    cleared and its accumulator updated as the specification asks. *)
Lemma adjoint_sensitivities_spec (aSeed0 aSens0 : list (list T)) :
  (length aSeed0 <= length aSens0)%nat ->
  Forall (fun s => length s = length nz) aSeed0 ->
  Forall (fun a => length a = m) aSens0 ->
  exists aSeed aSens,
    GetNonzeros.adjoint_sensitivities zero add nz
      (Z.of_nat (length aSeed0)) aSeed0 aSens0 = Some (aSeed, aSens)
    /\ forall (d : nat) aseed asens,
         aSeed0 !! d = Some aseed -> aSens0 !! d = Some asens ->
         exists aseed' asens',
           aSeed !! d = Some aseed' /\ aSens !! d = Some asens'
           /\ GetNonzeros.spec_adjoint zero add nz aseed asens aseed' asens'.
Proof.
  intros Hn Hseed Hsens. unfold GetNonzeros.adjoint_sensitivities.
  destruct (for_loop_inv
    (fun i (st : list (list T) * list (list T)) =>
       length st.1 = length aSeed0 /\ length st.2 = length aSens0
       /\ (forall d : nat, i <= Z.of_nat d ->
             st.1 !! d = aSeed0 !! d /\ st.2 !! d = aSens0 !! d)
       /\ forall (d : nat) aseed asens,
            Z.of_nat d < i ->
            aSeed0 !! d = Some aseed -> aSens0 !! d = Some asens ->
            exists aseed' asens',
              st.1 !! d = Some aseed' /\ st.2 !! d = Some asens'
              /\ GetNonzeros.spec_adjoint zero add nz aseed asens
                   aseed' asens')
    (Z.of_nat (length aSeed0))
    (fun d '(aSeed, aSens) =>
       aseed ← vget aSeed d; asens ← vget aSens d;
       '(aseed', asens') ← GetNonzeros.scatter zero add nz 0 aseed asens;
       aSeed' ← vset aSeed d aseed'; aSens' ← vset aSens d asens';
       Some (aSeed', aSens')) (aSeed0, aSens0))
    as ([aSeed aSens] & Hrun & _ & _ & _ & Hdone).
  - simpl. repeat split; try done. intros; lia.
  - intros i [aS aN] Hi (Hl1 & Hl2 & Hrest & Hdone). simpl in *.
    destruct (vget_Some aS i) as (aseed & -> & Haseed); [lia|lia|].
    destruct (vget_Some aN i) as (asens & -> & Hasens); [lia|lia|]. simpl.
    destruct (Hrest (Z.to_nat i)) as [E1 E2]; [lia|].
    rewrite E1 in Haseed. rewrite E2 in Hasens.
    pose proof (Forall_at _ _ _ _ Hseed Haseed) as Hl. simpl in Hl.
    pose proof (Forall_at _ _ _ _ Hsens Hasens) as Hm. simpl in Hm.
    destruct (scatter_full nz aseed asens) as (asens' & -> & Hspec);
      [by rewrite Hm|done|]. simpl.
    rewrite !vset_Some by lia. simpl. eexists. split; [done|]. simpl.
    rewrite !length_insert. split; [done|]. split; [done|]. split.
    + intros d Hd. rewrite !list_lookup_insert_ne by lia. apply Hrest. lia.
    + intros d aseed0 asens0 Hd Ha0 Hs0.
      destruct (decide (d = Z.to_nat i)) as [->|Hne].
      * rewrite !list_lookup_insert_eq by lia.
        rewrite Haseed in Ha0. rewrite Hasens in Hs0.
        injection Ha0 as <-. injection Hs0 as <-. eauto.
      * rewrite !list_lookup_insert_ne by done.
        apply Hdone; [lia|done|done].
  - exists aSeed, aSens. split; [done|].
    intros d aseed asens Ha Hs. simpl in Hdone.
    apply (Hdone d aseed asens); [|done|done].
    apply lookup_lt_Some in Ha. lia.
Qed.

End GatherLoops.

(** [evaluateGen] on buffers of the declared sizes runs to its end, and its
    three parts do what the specification says of them. *)
Lemma evaluateGen_spec {T : Type} (zero : T) (add : T -> T -> T)
    (nz : list Z) (input0 : list T) (fwdSeed : list (list T))
    (b : GetNonzeros.buffers T) :
  GetNonzeros.well_sized nz input0 fwdSeed b ->
  exists b',
    GetNonzeros.evaluateGen zero add nz input0 fwdSeed b = Some b'
    /\ GetNonzeros.output0 b'
       = map (GetNonzeros.spec_select zero input0) nz
    /\ (forall (d : nat) fseed,
          (d < length (GetNonzeros.fwdSens b))%nat ->
          fwdSeed !! d = Some fseed ->
          GetNonzeros.fwdSens b' !! d
          = Some (map (GetNonzeros.spec_select zero fseed) nz))
    /\ (forall (d : nat) aseed asens,
          GetNonzeros.adjSeed b !! d = Some aseed ->
          GetNonzeros.adjSens b !! d = Some asens ->
          exists aseed' asens',
            GetNonzeros.adjSeed b' !! d = Some aseed'
            /\ GetNonzeros.adjSens b' !! d = Some asens'
            /\ GetNonzeros.spec_adjoint zero add nz aseed asens
                 aseed' asens').
Proof.
  intros [Hnz Hout Hnf Hfseed Hfsens Hna Haseed Hasens].
  unfold GetNonzeros.evaluateGen.
  rewrite gather_full by done. simpl.
  destruct (forward_sensitivities_spec zero nz (length input0) Hnz fwdSeed
              (GetNonzeros.fwdSens b)) as (fS & -> & _ & Hfwd); try done.
  simpl.
  destruct (adjoint_sensitivities_spec zero add nz (length input0) Hnz
              (GetNonzeros.adjSeed b) (GetNonzeros.adjSens b))
    as (aSeed & aSens & -> & Hadj); try done.
  simpl. eexists. split; [done|]. simpl. auto.
Qed.

(** C2. On buffers of the declared sizes, [evaluateGen] returns; at every
    output position [i] it has written [dep.data[nz[i]]] when [nz[i] >= 0]
    and [0] when [nz[i]] is the absent marker; and for every forward
    direction [d] it has written the same gather of that direction's seed
    into that direction's sensitivity. *)
Theorem evaluateGen_value_and_forward {T : Type} (zero : T)
    (add : T -> T -> T) (nz : list Z) (input0 : list T)
    (fwdSeed : list (list T)) (b : GetNonzeros.buffers T)
    (Hws : GetNonzeros.well_sized nz input0 fwdSeed b) :
  exists b',
    GetNonzeros.evaluateGen zero add nz input0 fwdSeed b = Some b'
    /\ length (GetNonzeros.output0 b') = length nz
    /\ (forall (i : nat) (k : Z),
          nz !! i = Some k ->
          GetNonzeros.output0 b' !! i
          = Some (if 0 <=? k then nth (Z.to_nat k) input0 zero else zero))
    /\ (forall (d : nat) fseed,
          (d < length (GetNonzeros.fwdSens b))%nat ->
          fwdSeed !! d = Some fseed ->
          exists fsens',
            GetNonzeros.fwdSens b' !! d = Some fsens'
            /\ length fsens' = length nz
            /\ forall (i : nat) (k : Z),
                 nz !! i = Some k ->
                 fsens' !! i
                 = Some (if 0 <=? k then nth (Z.to_nat k) fseed zero
                         else zero)).
Proof.
  destruct (evaluateGen_spec zero add nz input0 fwdSeed b Hws)
    as (b' & Hrun & Hout & Hfwd & _).
  exists b'. split; [done|]. split; [by rewrite Hout, length_map|]. split.
  - intros i k Hi. rewrite Hout, list_lookup_fmap, Hi. done.
  - intros d fseed Hd Hfseed. eexists. split; [by apply Hfwd|].
    split; [by rewrite length_map|].
    intros i k Hi. rewrite list_lookup_fmap, Hi. done.
Qed.

Lemma evaluateGen_value_and_forward_witness :
  let nz := [1; -1; 0] in
  let x := [Double.of_int 10; Double.of_int 20] in
  let seeds := [[Double.of_int 1; Double.of_int 2]] in
  let zeros := [Double.zero; Double.zero; Double.zero] in
  let b := GetNonzeros.Buffers zeros [zeros] [] [] in
  exists b',
    GetNonzeros.evaluateGen Double.zero Double.add nz x seeds b = Some b'
    /\ length (GetNonzeros.output0 b') = length nz
    /\ (forall (i : nat) (k : Z),
          nz !! i = Some k ->
          GetNonzeros.output0 b' !! i
          = Some (if 0 <=? k then nth (Z.to_nat k) x Double.zero
                  else Double.zero))
    /\ (forall (d : nat) fseed,
          (d < length (GetNonzeros.fwdSens b))%nat ->
          seeds !! d = Some fseed ->
          exists fsens',
            GetNonzeros.fwdSens b' !! d = Some fsens'
            /\ length fsens' = length nz
            /\ forall (i : nat) (k : Z),
                 nz !! i = Some k ->
                 fsens' !! i
                 = Some (if 0 <=? k then nth (Z.to_nat k) fseed Double.zero
                         else Double.zero)).
Proof.
  intros nz x seeds zeros b.
  apply (evaluateGen_value_and_forward Double.zero Double.add nz x seeds b).
  constructor; simpl; repeat constructor; simpl; lia.
Defined.

(** C3. On buffers of the declared sizes, [evaluateGen] returns; for every
    adjoint direction every entry of the seed buffer is zero afterwards, and
    position [j] of the accumulator has received, in the order of the
    output positions, the seeds of the positions [i] with [nz[i] = j] (so
    the seeds at absent positions are dropped). For [nz = [1,-1,0]],
    [x = [10,20]] and the seed [[5,7,9]] the output is [[20,0,10]] and the
    accumulator, started at zero, ends as [[9,5]]. *)
Theorem evaluateGen_adjoint {T : Type} (zero : T)
    (add : T -> T -> T) (nz : list Z) (input0 : list T)
    (fwdSeed : list (list T)) (b : GetNonzeros.buffers T)
    (Hws : GetNonzeros.well_sized nz input0 fwdSeed b) :
  (exists b',
     GetNonzeros.evaluateGen zero add nz input0 fwdSeed b = Some b'
     /\ forall (d : nat) aseed asens,
          GetNonzeros.adjSeed b !! d = Some aseed ->
          GetNonzeros.adjSens b !! d = Some asens ->
          exists asens',
            GetNonzeros.adjSeed b' !! d = Some (replicate (length nz) zero)
            /\ GetNonzeros.adjSens b' !! d = Some asens'
            /\ length asens' = length asens
            /\ forall (j : nat) (a : T),
                 asens !! j = Some a ->
                 asens' !! j
                 = Some (fold_left add
                           (GetNonzeros.spec_contributions j nz aseed) a))
  /\ GetNonzeros.evaluateD [1; -1; 0] [Double.of_int 10; Double.of_int 20] []
       (GetNonzeros.Buffers [Double.zero; Double.zero; Double.zero] []
          [[Double.of_int 5; Double.of_int 7; Double.of_int 9]]
          [[Double.zero; Double.zero]])
     = Some (GetNonzeros.Buffers
               [Double.of_int 20; Double.of_int 0; Double.of_int 10] []
               [[Double.zero; Double.zero; Double.zero]]
               [[Double.of_int 9; Double.of_int 5]]).
Proof.
  split; [|reflexivity].
  destruct (evaluateGen_spec zero add nz input0 fwdSeed b Hws)
    as (b' & Hrun & _ & _ & Hadj).
  exists b'. split; [done|]. intros d aseed asens Ha Hs.
  destruct (Hadj d aseed asens Ha Hs)
    as (aseed' & asens' & Ha' & Hs' & -> & Hlen & Hacc).
  eauto.
Qed.

Lemma evaluateGen_adjoint_witness :
  let nz := [1; -1; 0] in
  let x := [Double.of_int 10; Double.of_int 20] in
  let b := GetNonzeros.Buffers [Double.zero; Double.zero; Double.zero] []
             [[Double.of_int 5; Double.of_int 7; Double.of_int 9]]
             [[Double.zero; Double.zero]] in
  (exists b',
     GetNonzeros.evaluateGen Double.zero Double.add nz x [] b = Some b'
     /\ forall (d : nat) aseed asens,
          GetNonzeros.adjSeed b !! d = Some aseed ->
          GetNonzeros.adjSens b !! d = Some asens ->
          exists asens',
            GetNonzeros.adjSeed b' !! d
            = Some (replicate (length nz) Double.zero)
            /\ GetNonzeros.adjSens b' !! d = Some asens'
            /\ length asens' = length asens
            /\ forall (j : nat) (a : double),
                 asens !! j = Some a ->
                 asens' !! j
                 = Some (fold_left Double.add
                           (GetNonzeros.spec_contributions j nz aseed) a))
  /\ GetNonzeros.evaluateD [1; -1; 0] [Double.of_int 10; Double.of_int 20] []
       (GetNonzeros.Buffers [Double.zero; Double.zero; Double.zero] []
          [[Double.of_int 5; Double.of_int 7; Double.of_int 9]]
          [[Double.zero; Double.zero]])
     = Some (GetNonzeros.Buffers
               [Double.of_int 20; Double.of_int 0; Double.of_int 10] []
               [[Double.zero; Double.zero; Double.zero]]
               [[Double.of_int 9; Double.of_int 5]]).
Proof.
  intros nz x b.
  apply (evaluateGen_adjoint Double.zero Double.add nz x [] b).
  constructor; simpl; repeat constructor; simpl; lia.
Defined.

(** ** Sparsity propagation *)

(** The two branches of [propagateSparsity] are the gather and the scatter
    of [evaluateGen] at the element type [bvec_t], with [0] for the cleared
    word and the bitwise or for [+=]. *)
Lemma propagate_fwd_gather (inputd : list GetNonzeros.bvec_t) (nz : list Z) :
  forall (it : nat) (outputd : list GetNonzeros.bvec_t),
    GetNonzeros.propagate_fwd inputd nz it outputd
    = GetNonzeros.gather 0 inputd nz it outputd.
Proof.
  induction nz as [|k nz IH]; intros it outputd; simpl; [done|].
  unfold GetNonzeros.bvec_t in *.
  destruct (if 0 <=? k then vget inputd k else Some 0) as [v|]; simpl; [|done].
  destruct (vset outputd (Z.of_nat it) v) as [o|]; simpl; [|done].
  apply IH.
Qed.

Lemma propagate_rev_scatter (nz : list Z) :
  forall (it : nat) (inputd outputd : list GetNonzeros.bvec_t),
    GetNonzeros.propagate_rev nz it inputd outputd
    = (fun p : list Z * list Z => (p.2, p.1))
      <$> GetNonzeros.scatter 0 Z.lor nz it outputd inputd.
Proof.
  induction nz as [|k nz IH]; intros it inputd outputd; simpl; [done|].
  unfold GetNonzeros.bvec_t in *.
  destruct (vget outputd (Z.of_nat it)) as [o|]; simpl; [|done].
  destruct (if 0 <=? k
            then old ← vget inputd k; vset inputd k (Z.lor old o)
            else Some inputd) as [i'|]; simpl; [|done].
  destruct (vset outputd (Z.of_nat it) 0) as [o'|]; simpl; [|done].
  apply IH.
Qed.

(** C8. [propagateSparsity] reads the same index vector [nz_] as the numeric
    evaluation, and its two branches are the numeric gather and scatter on
    bit words. Forward: output word [i] becomes input word [nz[i]], or [0]
    when [nz[i]] is absent. Reverse: input word [j] is or-ed with the output
    words of the positions [i] with [nz[i] = j], and afterwards every output
    word is [0]. *)
Theorem propagateSparsity_same_mapping (nz_ : list Z)
    (inputd outputd : list GetNonzeros.bvec_t)
    (Hnz : Forall (fun k => k < Z.of_nat (length inputd)) nz_)
    (Hout : length outputd = length nz_) :
  (exists outputd',
     GetNonzeros.propagateSparsity nz_ inputd outputd true
     = Some (inputd, outputd')
     /\ length outputd' = length nz_
     /\ forall (i : nat) (k : Z),
          nz_ !! i = Some k ->
          outputd' !! i
          = Some (if 0 <=? k then nth (Z.to_nat k) inputd 0 else 0))
  /\ (exists inputd',
        GetNonzeros.propagateSparsity nz_ inputd outputd false
        = Some (inputd', replicate (length nz_) 0)
        /\ length inputd' = length inputd
        /\ forall (j : nat) (a : GetNonzeros.bvec_t),
             inputd !! j = Some a ->
             inputd' !! j
             = Some (fold_left Z.lor
                       (GetNonzeros.spec_contributions j nz_ outputd) a))
  /\ GetNonzeros.propagateSparsity nz_ inputd outputd true
     = (fun o => (inputd, o)) <$> GetNonzeros.gather 0 inputd nz_ 0 outputd
  /\ GetNonzeros.propagateSparsity nz_ inputd outputd false
     = (fun p : list Z * list Z => (p.2, p.1))
       <$> GetNonzeros.scatter 0 Z.lor nz_ 0 outputd inputd.
Proof.
  unfold GetNonzeros.propagateSparsity.
  rewrite propagate_fwd_gather, propagate_rev_scatter.
  split; [|split; [|split; [|done]]].
  - rewrite gather_full by done. simpl. eexists. split; [done|].
    split; [by rewrite length_map|].
    intros i k Hi. by rewrite list_lookup_fmap, Hi.
  - destruct (scatter_full 0 Z.lor nz_ outputd inputd Hnz Hout)
      as (inputd' & -> & _ & Hlen & Hacc).
    simpl. eauto.
  - by destruct (GetNonzeros.gather 0 inputd nz_ 0 outputd).
Qed.

Lemma propagateSparsity_same_mapping_witness :
  let nz := [1; -1; 0; 1] in
  let inputd := [0; 4] in
  let outputd := [1; 2; 8; 16] in
  (exists outputd',
     GetNonzeros.propagateSparsity nz inputd outputd true
     = Some (inputd, outputd')
     /\ length outputd' = length nz
     /\ forall (i : nat) (k : Z),
          nz !! i = Some k ->
          outputd' !! i
          = Some (if 0 <=? k then nth (Z.to_nat k) inputd 0 else 0))
  /\ (exists inputd',
        GetNonzeros.propagateSparsity nz inputd outputd false
        = Some (inputd', replicate (length nz) 0)
        /\ length inputd' = length inputd
        /\ forall (j : nat) (a : GetNonzeros.bvec_t),
             inputd !! j = Some a ->
             inputd' !! j
             = Some (fold_left Z.lor
                       (GetNonzeros.spec_contributions j nz outputd) a))
  /\ GetNonzeros.propagateSparsity nz inputd outputd true
     = (fun o => (inputd, o)) <$> GetNonzeros.gather 0 inputd nz 0 outputd
  /\ GetNonzeros.propagateSparsity nz inputd outputd false
     = (fun p : list Z * list Z => (p.2, p.1))
       <$> GetNonzeros.scatter 0 Z.lor nz 0 outputd inputd.
Proof.
  intros nz inputd outputd.
  apply (propagateSparsity_same_mapping nz inputd outputd).
  - repeat constructor.
  - reflexivity.
Defined.

(** ** Identity detection *)

Lemma in_order_spec (nz : list Z) :
  forall k : Z,
    GetNonzeros.in_order nz k = true
    <-> forall (i : nat) (x : Z), nz !! i = Some x -> x = k + Z.of_nat i.
Proof.
  induction nz as [|x0 nz IH]; intros k; simpl.
  - split; [intros _ i x Hi; by destruct i|done].
  - destruct (Z.eqb_spec x0 k) as [->|Hne]; simpl.
    + rewrite IH. split.
      * intros H [|i] x Hi; simpl in Hi.
        -- injection Hi as <-. lia.
        -- rewrite (H i x Hi). lia.
      * intros H i x Hi. rewrite (H (S i) x Hi). lia.
    + split; [done|]. intros H. specialize (H 0%nat x0 eq_refl). lia.
Qed.

Lemma gather_in_order {T : Type} (zero : T) (nz : list Z) (x : list T) :
  (forall (i : nat) (k : Z), nz !! i = Some k -> k = Z.of_nat i) ->
  length nz = length x ->
  map (GetNonzeros.spec_select zero x) nz = x.
Proof.
  intros Hid Hlen. apply list_eq. intros i.
  rewrite list_lookup_fmap.
  destruct (nz !! i) as [k|] eqn:Hi; simpl.
  - rewrite (Hid i k Hi). unfold GetNonzeros.spec_select.
    destruct (Z.leb_spec 0 (Z.of_nat i)); [|lia]. rewrite Nat2Z.id.
    apply lookup_lt_Some in Hi.
    destruct (lookup_lt_is_Some_2 x i) as [v Hv]; [lia|].
    rewrite Hv. f_equal. by apply nth_lookup_Some.
  - symmetry. apply lookup_ge_None. apply lookup_ge_None in Hi. lia.
Qed.

(** C6. [isIdentity] answers true exactly when the output pattern equals
    the pattern of the dependency and [nz[i] = i] at every position; and
    when it answers true, on a node and data of the declared sizes the
    value written by the evaluation is the dependency data itself. *)
Theorem isIdentity_spec {T : Type} (zero : T) (add : T -> T -> T)
    (sp : CRSSparsity) (y : MX) (nz_ : list Z) :
  (GetNonzeros.isIdentity sp y nz_ = true
   <-> sp = sparsity y
       /\ forall (i : nat) (k : Z), nz_ !! i = Some k -> k = Z.of_nat i)
  /\ (GetNonzeros.isIdentity sp y nz_ = true ->
      forall x out : list T,
        length nz_ = sp_size sp ->
        length x = sp_size (sparsity y) ->
        length out = sp_size sp ->
        GetNonzeros.evaluateGen zero add nz_ x []
          (GetNonzeros.Buffers out [] [] [])
        = Some (GetNonzeros.Buffers x [] [] [])).
Proof.
  assert (GetNonzeros.isIdentity sp y nz_ = true
          <-> sp = sparsity y
              /\ forall (i : nat) (k : Z), nz_ !! i = Some k -> k = Z.of_nat i)
    as Hiff.
  { unfold GetNonzeros.isIdentity, sp_eqb.
    destruct (bool_decide_reflect (sp = sparsity y)) as [Heq|Hne]; simpl.
    - rewrite in_order_spec. split; [by split|]. by intros [_ H].
    - split; [done|]. by intros [? _]. }
  split; [exact Hiff|].
  intros Hid x out Hnz Hx Hout. apply Hiff in Hid as [Hsp Hid].
  unfold GetNonzeros.evaluateGen. simpl.
  assert (Forall (fun k => k < Z.of_nat (length x)) nz_) as Hrange.
  { apply Forall_lookup. intros i k Hi. rewrite (Hid i k Hi).
    apply lookup_lt_Some in Hi. rewrite Hx, <- Hsp, <- Hnz. lia. }
  rewrite gather_full by (done || congruence). simpl.
  rewrite gather_in_order by (done || congruence). done.
Qed.

Lemma isIdentity_spec_witness :
  let sp := Sparsity 1 3 [0; 1; 2] [0; 3] in
  let x := [Double.of_int 7; Double.of_int 8; Double.of_int 9] in
  GetNonzeros.isIdentity sp (MXSymbolic "x" sp) [0; 1; 2] = true
  /\ GetNonzeros.evaluateGen Double.zero Double.add [0; 1; 2] x []
       (GetNonzeros.Buffers [Double.zero; Double.zero; Double.zero] [] [] [])
     = Some (GetNonzeros.Buffers x [] [] []).
Proof.
  intros sp x. split; [reflexivity|].
  apply (proj2 (isIdentity_spec Double.zero Double.add sp
                  (MXSymbolic "x" sp) [0; 1; 2])); reflexivity.
Defined.

(** ** Gather of a gather *)

Lemma mapM_vget (nz_ : list Z) (nz : list Z) :
  Forall (fun k => 0 <= k < Z.of_nat (length nz_)) nz ->
  mapM (vget nz_) nz = Some (map (fun k => nth (Z.to_nat k) nz_ 0) nz).
Proof.
  induction 1 as [|k nz Hk Hnz IH]; simpl; [done|].
  destruct (vget_Some nz_ k) as (v & -> & Hv); [lia|lia|]. simpl.
  rewrite IH. simpl. by apply nth_lookup_Some with (d := 0) in Hv as ->.
Qed.

Lemma value_gather_leaf (env : string -> list double) (name : string)
    (spx sp : CRSSparsity) (nz : list Z) :
  Forall (fun k => k < Z.of_nat (length (env name))) nz ->
  length nz = sp_size sp ->
  GetNonzeros.value env (MXGetNonzeros sp (MXSymbolic name spx) nz)
  = Some (map (GetNonzeros.spec_select Double.zero (env name)) nz).
Proof.
  intros Hnz Hlen. simpl.
  unfold GetNonzeros.evaluateD, GetNonzeros.evaluateGen. simpl.
  rewrite gather_full by (done || by rewrite length_replicate). done.
Qed.

(** When every entry of [nz] is an index into [nz_], the gather of a gather
    over a leaf is built as one node with [nz_new[i] = nz_[nz[i]]], absent
    entries of [nz_] included, and that node has the value of the nested
    pair. *)
Lemma getGetNonzeros_flattens (env : string -> list double) (name : string)
    (spx sp0 sp : CRSSparsity) (nz_ nz : list Z) :
  let x := MXSymbolic name spx in
  let nz_new := map (fun k => nth (Z.to_nat k) nz_ 0) nz in
  Forall (fun k => 0 <= k < Z.of_nat (length nz_)) nz ->
  Forall (fun k => k < Z.of_nat (length (env name))) nz_ ->
  length nz_ = sp_size sp0 ->
  length nz = sp_size sp ->
  GetNonzeros.getGetNonzeros (MXGetNonzeros sp0 x nz_) sp nz
  = Some (MXGetNonzeros sp x nz_new)
  /\ GetNonzeros.value env (MXGetNonzeros sp x nz_new)
     = GetNonzeros.value env (MXGetNonzeros sp (MXGetNonzeros sp0 x nz_) nz)
  /\ is_Some (GetNonzeros.value env (MXGetNonzeros sp x nz_new)).
Proof.
  intros x nz_new Hnz Hnz_ Hlen_ Hlen.
  assert (Forall (fun k => k < Z.of_nat (length (env name))) nz_new) as Hnew.
  { subst nz_new. apply Forall_fmap. eapply Forall_impl; [exact Hnz|].
    intros k Hk. simpl in Hk |- *.
    destruct (lookup_lt_is_Some_2 nz_ (Z.to_nat k)) as [v Hv]; [lia|].
    rewrite (nth_lookup_Some _ _ 0 _ Hv).
    exact (Forall_at _ _ _ _ Hnz_ Hv). }
  split; [|split].
  - simpl. rewrite mapM_vget by done. done.
  - subst x. rewrite value_gather_leaf
      by (done || by subst nz_new; rewrite length_map).
    change (GetNonzeros.value env
              (MXGetNonzeros sp (MXGetNonzeros sp0 (MXSymbolic name spx) nz_) nz))
      with (xd ← GetNonzeros.value env
                   (MXGetNonzeros sp0 (MXSymbolic name spx) nz_);
            b ← GetNonzeros.evaluateD nz xd []
                  (GetNonzeros.Buffers (replicate (sp_size sp) Double.zero)
                     [] [] []);
            Some (GetNonzeros.output0 b)).
    rewrite value_gather_leaf by done. simpl.
    unfold GetNonzeros.evaluateD, GetNonzeros.evaluateGen. simpl.
    rewrite gather_full.
    + simpl. f_equal. subst nz_new. rewrite map_map.
      apply map_ext_Forall. eapply Forall_impl; [exact Hnz|].
      intros k Hk. simpl in Hk |- *. unfold GetNonzeros.spec_select at 2.
      destruct (Z.leb_spec 0 k); [|lia].
      destruct (lookup_lt_is_Some_2 nz_ (Z.to_nat k)) as [v Hv]; [lia|].
      rewrite (nth_lookup_Some _ _ 0 _ Hv).
      symmetry. apply nth_lookup_Some.
      by rewrite list_lookup_fmap, Hv.
    + eapply Forall_impl; [exact Hnz|]. intros k Hk. simpl in Hk |- *.
      rewrite length_map. lia.
    + by rewrite length_replicate.
  - subst x. rewrite value_gather_leaf
      by (done || by subst nz_new; rewrite length_map). done.
Qed.

(** C4. The specification wants a gather of a gather built as one node with
    [new_nz[i] = nz_outer[nz_inner[i]]], evaluating like the two gathers in
    sequence, also when entries of either mapping are absent. With
    [nz_ = [0]] on the node and the absent marker in the argument,
    [nz = [-1]], [getGetNonzeros] reads [nz_[-1]], outside the vector, and
    builds no node; the two gathers in sequence evaluate to [[0]], as does
    the single gather with the mapping [[-1]]. *)
Theorem getGetNonzeros_absent_index :
  let sp := Sparsity 1 1 [0] [0; 1] in
  let x := MXSymbolic "x" sp in
  let env := fun _ : string => [Double.of_int 10] in
  GetNonzeros.getGetNonzeros (MXGetNonzeros sp x [0]) sp [-1] = None
  /\ GetNonzeros.value env (MXGetNonzeros sp (MXGetNonzeros sp x [0]) [-1])
     = Some [Double.zero]
  /\ GetNonzeros.value env (MXGetNonzeros sp x [-1]) = Some [Double.zero].
Proof. repeat split. Qed.

(** ** Symbolic differentiation *)

Lemma count_inputs_step (it : Z) (inz_count : list Z) :
  0 <= it -> it + 1 < Z.of_nat (length inz_count) ->
  exists c', (c ← vget inz_count (it + 1); vset inz_count (it + 1) (c + 1))
             = Some c'
             /\ length c' = length inz_count.
Proof.
  intros H0 Hlt.
  destruct (vget_Some inz_count (it + 1)) as (c & -> & _); [lia|lia|]. simpl.
  rewrite vset_Some by lia. eexists. split; [done|]. by rewrite length_insert.
Qed.

(** The counting loop stops at the first negative entry with the assertion
    failure. *)
Lemma count_inputs_throws (nz : list Z) :
  forall inz_count : list Z,
    Forall (fun k => k + 1 < Z.of_nat (length inz_count)) nz ->
    Exists (fun k => k < 0) nz ->
    exists c', GetNonzeros.count_inputs nz inz_count
               = Throws (AssertionFailure "Not implemented") c'.
Proof.
  induction nz as [|it nz IH]; intros c Hrange Hneg; simpl.
  - by apply Exists_nil in Hneg.
  - apply Forall_cons in Hrange as [Hit Hrange].
    destruct (Z.leb_spec 0 it) as [H0|H0]; simpl; [|eauto].
    destruct (count_inputs_step it c H0 Hit) as (c' & -> & Hlen).
    apply IH; [by rewrite Hlen|].
    apply Exists_cons in Hneg as [?|?]; [lia|done].
Qed.

(** Without a negative entry the counting loop runs to its end. *)
Lemma count_inputs_returns (nz : list Z) :
  forall inz_count : list Z,
    Forall (fun k => k + 1 < Z.of_nat (length inz_count)) nz ->
    Forall (fun k => 0 <= k) nz ->
    exists c', GetNonzeros.count_inputs nz inz_count = Returns c'.
Proof.
  induction nz as [|it nz IH]; intros c Hrange Hpos; simpl; [eauto|].
  apply Forall_cons in Hrange as [Hit Hrange].
  apply Forall_cons in Hpos as [H0 Hpos].
  destruct (Z.leb_spec 0 it); [|lia]. simpl.
  destruct (count_inputs_step it c H0 Hit) as (c' & -> & Hlen).
  apply IH; [by rewrite Hlen|done].
Qed.

(** C10. For a node whose indices lie below the number of nonzeros of its
    dependency: if some entry of [nz_] is negative, [evaluateMX] throws the
    assertion failure "Not implemented" with every node buffer as it was,
    whatever the code after the counting loop would build, while the numeric
    evaluation of the same node returns; and if no entry is negative, the
    counting loop raises nothing. *)
Theorem evaluateMX_needs_nonnegative
    (getRow : CRSSparsity -> list Z)
    (derivative_nodes : list Z -> list Z -> MX -> list MX ->
                        GetNonzeros.mx_buffers -> bool ->
                        outcome GetNonzeros.mx_buffers)
    (sp : CRSSparsity) (y : MX) (nz_ : list Z)
    (input0 : MX) (fwdSeed : list MX) (b : GetNonzeros.mx_buffers)
    (output_given : bool) (x out : list double)
    (Hrange : Forall (fun k => k < Z.of_nat (sp_size (sparsity y))) nz_)
    (Hx : length x = sp_size (sparsity y))
    (Hout : length out = length nz_) :
  (Exists (fun k => k < 0) nz_ ->
   GetNonzeros.evaluateMX getRow derivative_nodes sp y nz_ input0 fwdSeed b
     output_given
   = Throws (AssertionFailure "Not implemented") b
   /\ exists b', GetNonzeros.evaluateD nz_ x []
                   (GetNonzeros.Buffers out [] [] []) = Some b')
  /\ (Forall (fun k => 0 <= k) nz_ ->
      exists c, GetNonzeros.count_inputs nz_
                  (replicate (sp_size (sparsity y) + 1) 0) = Returns c).
Proof.
  assert (Forall (fun k => k + 1 < Z.of_nat (length
            (replicate (sp_size (sparsity y) + 1) 0))) nz_) as Hrange'.
  { eapply Forall_impl; [exact Hrange|]. intros k Hk. simpl in Hk |- *.
    rewrite length_replicate. lia. }
  split.
  - intros Hneg. split.
    + unfold GetNonzeros.evaluateMX. fold (sp_size (sparsity y)).
      by destruct (count_inputs_throws nz_ _ Hrange' Hneg) as (c' & ->).
    + unfold GetNonzeros.evaluateD, GetNonzeros.evaluateGen. simpl.
      rewrite gather_full by (done || by rewrite Hx). simpl. eauto.
  - intros Hpos. by apply count_inputs_returns.
Qed.

Lemma evaluateMX_needs_nonnegative_witness :
  let spx := Sparsity 1 2 [0; 1] [0; 2] in
  let sp := Sparsity 1 3 [0; 1; 2] [0; 3] in
  let y := MXSymbolic "x" spx in
  let b := GetNonzeros.MXBuffers (MXSymbolic "out" sp) [] [] [] in
  let rows := fun s : CRSSparsity => map (fun _ => 0) (col s) in
  let rest := fun (_ _ : list Z) (_ : MX) (_ : list MX)
                  (b0 : GetNonzeros.mx_buffers) (_ : bool) => Returns b0 in
  GetNonzeros.evaluateMX rows rest sp y [1; -1; 0] y [] b false
  = Throws (AssertionFailure "Not implemented") b
  /\ exists b', GetNonzeros.evaluateD [1; -1; 0]
                  [Double.of_int 10; Double.of_int 20] []
                  (GetNonzeros.Buffers
                     [Double.zero; Double.zero; Double.zero] [] [] [])
                = Some b'.
Proof.
  intros spx sp y b rows rest.
  apply (proj1 (evaluateMX_needs_nonnegative rows rest sp y [1; -1; 0] y []
                  b false [Double.of_int 10; Double.of_int 20]
                  [Double.zero; Double.zero; Double.zero]
                  ltac:(repeat constructor) eq_refl eq_refl)).
  apply Exists_cons_tl, Exists_cons_hd. lia.
Defined.

(** * Further properties of the norms *)

Section NormPasses.

Variables (n : Z) (inputd : list double).
Hypothesis Hinput : (Z.to_nat n <= length inputd)%nat.

(** A summing loop is the fold of its term over the first [n] entries. *)
Lemma sum_loop_fold (step : list double -> Z -> double -> option double)
    (f : double -> double -> double) (t0 : double) :
  (forall k t, step inputd k t = x ← vget inputd k; Some (f t x)) ->
  for_loop n (step inputd) t0
  = Some (fold_left f (take (Z.to_nat n) inputd) t0).
Proof.
  intros Hstep.
  destruct (for_loop_inv
    (fun i t => t = fold_left f (take (Z.to_nat i) inputd) t0)
    n (step inputd) t0 eq_refl) as (t & -> & ->).
  - intros i t Hi ->. rewrite Hstep.
    destruct (vget_Some inputd i) as (x & -> & Hx); [lia|lia|]. simpl.
    eexists. split; [done|].
    replace (Z.to_nat (i + 1)) with (S (Z.to_nat i)) by lia.
    by rewrite (take_S_r _ _ _ Hx), fold_left_app.
  - by replace (Z.to_nat (Z.max 0 n)) with (Z.to_nat n) by lia.
Qed.

Lemma forward_direction_fold (step : double -> double -> double -> double)
    (fseed fsens : list double) :
  (Z.to_nat n <= length fseed)%nat -> (0 < length fsens)%nat ->
  Norm.forward_direction step n inputd fseed fsens
  = Some (<[0%nat := Norm.forward_sum step n inputd fseed]> fsens).
Proof.
  intros Hseed Hsens. unfold Norm.forward_direction, Norm.forward_sum.
  rewrite vset_Some by (simpl; lia). simpl.
  change (Z.to_nat 0) with 0%nat.
  set (g := fun (acc : double) (p : double * double) => step p.1 p.2 acc).
  destruct (for_loop_inv
    (fun i fs =>
       fs = <[0%nat := fold_left g (zip (take (Z.to_nat i) inputd)
                                        (take (Z.to_nat i) fseed))
                         (Double.of_int 0)]> fsens) n
    (fun k fs =>
       s ← vget fseed k; x ← vget inputd k; acc ← vget fs 0;
       vset fs 0 (step x s acc)) (<[0%nat := Double.of_int 0]> fsens))
    as (fs & -> & ->).
  - done.
  - intros i fs Hi ->.
    destruct (vget_Some fseed i) as (s & -> & Hs); [lia|lia|].
    destruct (vget_Some inputd i) as (x & -> & Hx); [lia|lia|]. simpl.
    unfold vget at 1. simpl. rewrite list_lookup_insert_eq by done. simpl.
    rewrite vset_Some by (rewrite ?length_insert; simpl; lia). simpl.
    eexists. split; [done|]. rewrite list_insert_insert_eq. f_equal.
    replace (Z.to_nat (i + 1)) with (S (Z.to_nat i)) by lia.
    rewrite (take_S_r _ _ _ Hx), (take_S_r _ _ _ Hs).
    rewrite zip_with_app by (rewrite !length_take; lia).
    by rewrite fold_left_app.
  - by replace (Z.to_nat (Z.max 0 n)) with (Z.to_nat n) by lia.
Qed.

(** The forward loop over the directions: each direction below [nfwd]
    receives its own sum in entry 0; nothing else changes. *)
Lemma propagate_forward_spec (step : double -> double -> double -> double)
    (nfwd : Z) (fwdSeed fwdSens : list (list double)) :
  (Z.to_nat nfwd <= length fwdSeed)%nat ->
  (Z.to_nat nfwd <= length fwdSens)%nat ->
  Forall (fun s => (Z.to_nat n <= length s)%nat) fwdSeed ->
  Forall (fun s => (0 < length s)%nat) fwdSens ->
  exists fS,
    Norm.propagate_forward step n nfwd inputd fwdSeed fwdSens = Some fS
    /\ length fS = length fwdSens
    /\ (forall (d : nat) fseed fsens,
          (d < Z.to_nat nfwd)%nat ->
          fwdSeed !! d = Some fseed -> fwdSens !! d = Some fsens ->
          fS !! d
          = Some (<[0%nat := Norm.forward_sum step n inputd fseed]> fsens))
    /\ (forall d : nat, (Z.to_nat nfwd <= d)%nat -> fS !! d = fwdSens !! d).
Proof.
  intros Hn1 Hn2 Hseed Hsens. unfold Norm.propagate_forward.
  destruct (for_loop_inv
    (fun i fS =>
       length fS = length fwdSens
       /\ (forall (d : nat) fseed fsens,
             Z.of_nat d < i ->
             fwdSeed !! d = Some fseed -> fwdSens !! d = Some fsens ->
             fS !! d
             = Some (<[0%nat := Norm.forward_sum step n inputd fseed]> fsens))
       /\ (forall d : nat, i <= Z.of_nat d -> fS !! d = fwdSens !! d)) nfwd
    (fun d fS =>
       fsens ← vget fS d; fseed ← vget fwdSeed d;
       fsens' ← Norm.forward_direction step n inputd fseed fsens;
       vset fS d fsens') fwdSens) as (fS & Hrun & Hlen & Hdone & Hrest).
  - split; [done|]. split; [intros; lia|done].
  - intros d fS Hd (Hlen & Hdone & Hrest).
    destruct (vget_Some fS d) as (fsens & -> & Hfsens); [lia|lia|].
    destruct (vget_Some fwdSeed d) as (fseed & -> & Hfseed); [lia|lia|].
    simpl. rewrite Hrest in Hfsens by lia.
    rewrite forward_direction_fold.
    + simpl. rewrite vset_Some by lia. eexists. split; [done|].
      rewrite length_insert. split; [done|]. split.
      * intros d' fseed' fsens' Hd' Hs' Hf'.
        destruct (decide (d' = Z.to_nat d)) as [->|Hne].
        -- rewrite list_lookup_insert_eq by lia. congruence.
        -- rewrite list_lookup_insert_ne by done. apply Hdone; [lia|done..].
      * intros d' Hd'. rewrite list_lookup_insert_ne by lia. apply Hrest. lia.
    + exact (Forall_at _ _ _ _ Hseed Hfseed).
    + exact (Forall_at _ _ _ _ Hsens Hfsens).
  - exists fS. split; [done|]. split; [done|]. split.
    + intros d fseed fsens Hd. apply Hdone. lia.
    + intros d Hd. apply Hrest. lia.
Qed.

(** One adjoint direction: the first [n] entries are updated from the input
    entry and the seed; the entries after them are kept. *)
Lemma adjoint_direction_spec (upd : double -> double -> double -> double)
    (s : double) (asens : list double) :
  (Z.to_nat n <= length asens)%nat ->
  exists a',
    Norm.adjoint_direction upd n inputd s asens = Some a'
    /\ length a' = length asens
    /\ (forall (k : nat) x old,
          (k < Z.to_nat n)%nat ->
          inputd !! k = Some x -> asens !! k = Some old ->
          a' !! k = Some (upd x s old))
    /\ (forall k : nat, (Z.to_nat n <= k)%nat -> a' !! k = asens !! k).
Proof.
  intros Hsens. unfold Norm.adjoint_direction.
  destruct (for_loop_inv
    (fun i a =>
       length a = length asens
       /\ (forall (k : nat) x old,
             Z.of_nat k < i ->
             inputd !! k = Some x -> asens !! k = Some old ->
             a !! k = Some (upd x s old))
       /\ (forall k : nat, i <= Z.of_nat k -> a !! k = asens !! k)) n
    (fun k a => x ← vget inputd k; old ← vget a k; vset a k (upd x s old))
    asens) as (a' & Hrun & Hlen & Hdone & Hrest).
  - split; [done|]. split; [intros; lia|done].
  - intros i a Hi (Hlen & Hdone & Hrest).
    destruct (vget_Some inputd i) as (x & -> & Hx); [lia|lia|].
    destruct (vget_Some a i) as (old & -> & Hold); [lia|lia|]. simpl.
    rewrite Hrest in Hold by lia.
    rewrite vset_Some by lia. eexists. split; [done|].
    rewrite length_insert. split; [done|]. split.
    + intros k x' old' Hk Hx' Hold'.
      destruct (decide (k = Z.to_nat i)) as [->|Hne].
      * rewrite list_lookup_insert_eq by lia. congruence.
      * rewrite list_lookup_insert_ne by done. apply Hdone; [lia|done..].
    + intros k Hk. rewrite list_lookup_insert_ne by lia. apply Hrest. lia.
  - exists a'. split; [done|]. split; [done|]. split.
    + intros k x old Hk. apply Hdone. lia.
    + intros k Hk. apply Hrest. lia.
Qed.

(** The adjoint loop over the directions: a direction below [nadj] with a
    seed that does not compare equal to zero has its first [n] entries
    updated; every other vector is kept. *)
Lemma propagate_adjoint_spec (upd : double -> double -> double -> double)
    (nadj : Z) (adjSeed adjSens : list (list double)) :
  (Z.to_nat nadj <= length adjSeed)%nat ->
  (Z.to_nat nadj <= length adjSens)%nat ->
  Forall (fun s => (0 < length s)%nat) adjSeed ->
  Forall (fun a => (Z.to_nat n <= length a)%nat) adjSens ->
  exists aS,
    Norm.propagate_adjoint upd n nadj inputd adjSeed adjSens = Some aS
    /\ length aS = length adjSens
    /\ (forall (d : nat) seed s asens,
          (d < Z.to_nat nadj)%nat ->
          adjSeed !! d = Some seed -> seed !! 0%nat = Some s ->
          Double.eqb s (Double.of_int 0) = false ->
          adjSens !! d = Some asens ->
          exists a',
            aS !! d = Some a'
            /\ length a' = length asens
            /\ (forall (k : nat) x old,
                  (k < Z.to_nat n)%nat ->
                  inputd !! k = Some x -> asens !! k = Some old ->
                  a' !! k = Some (upd x s old))
            /\ (forall k : nat,
                  (Z.to_nat n <= k)%nat -> a' !! k = asens !! k))
    /\ (forall d : nat, (Z.to_nat nadj <= d)%nat -> aS !! d = adjSens !! d).
Proof.
  intros Hn1 Hn2 Hseed Hsens. unfold Norm.propagate_adjoint.
  destruct (for_loop_inv
    (fun i aS =>
       length aS = length adjSens
       /\ (forall (d : nat) seed s asens,
             Z.of_nat d < i ->
             adjSeed !! d = Some seed -> seed !! 0%nat = Some s ->
             Double.eqb s (Double.of_int 0) = false ->
             adjSens !! d = Some asens ->
             exists a',
               aS !! d = Some a'
               /\ length a' = length asens
               /\ (forall (k : nat) x old,
                     (k < Z.to_nat n)%nat ->
                     inputd !! k = Some x -> asens !! k = Some old ->
                     a' !! k = Some (upd x s old))
               /\ (forall k : nat,
                     (Z.to_nat n <= k)%nat -> a' !! k = asens !! k))
       /\ (forall d : nat, i <= Z.of_nat d -> aS !! d = adjSens !! d)) nadj
    (fun d aS =>
       seed ← vget adjSeed d; s ← vget seed 0;
       if Double.eqb s (Double.of_int 0) then Some aS
       else asens ← vget aS d;
            asens' ← Norm.adjoint_direction upd n inputd s asens;
            vset aS d asens') adjSens) as (aS & Hrun & Hlen & Hdone & Hrest).
  - split; [done|]. split; [intros; lia|done].
  - intros d aS Hd (Hlen & Hdone & Hrest).
    destruct (vget_Some adjSeed d) as (seed & -> & Hseed_d); [lia|lia|].
    simpl.
    assert (0 < length seed)%nat as Hseed0
      by exact (Forall_at _ _ _ _ Hseed Hseed_d).
    destruct (vget_Some seed 0) as (s & -> & Hs); [lia|simpl; lia|]. simpl.
    change (seed !! Z.to_nat 0) with (seed !! 0%nat) in Hs.
    destruct (Double.eqb s (Double.of_int 0)) eqn:Hzero.
    { eexists. split; [done|]. split; [done|]. split.
      - intros d' seed' s' asens' Hd' Hseed' Hs' Hnz' Has'.
        destruct (decide (d' = Z.to_nat d)) as [->|Hne]; [congruence|].
        apply (Hdone d' seed' s' asens'); [lia|done..].
      - intros d' Hd'. apply Hrest. lia. }
    destruct (vget_Some aS d) as (asens & -> & Hasens); [lia|lia|]. simpl.
    rewrite Hrest in Hasens by lia.
    destruct (adjoint_direction_spec upd s asens)
      as (a' & -> & Ha' & Hupd & Hkeep).
    { exact (Forall_at _ _ _ _ Hsens Hasens). }
    simpl. rewrite vset_Some by lia. eexists. split; [done|].
    rewrite length_insert. split; [done|]. split.
    + intros d' seed' s' asens' Hd' Hseed' Hs' Hnz' Has'.
      destruct (decide (d' = Z.to_nat d)) as [->|Hne].
      * rewrite list_lookup_insert_eq by lia.
        assert (seed' = seed) as -> by congruence.
        assert (s' = s) as -> by congruence.
        assert (asens' = asens) as -> by congruence.
        eauto.
      * rewrite list_lookup_insert_ne by done.
        apply (Hdone d' seed' s' asens'); [lia|done..].
    + intros d' Hd'. rewrite list_lookup_insert_ne by lia. apply Hrest. lia.
  - exists aS. split; [done|]. split; [done|]. split.
    + intros d seed s asens Hd. apply Hdone. lia.
    + intros d Hd. apply Hrest. lia.
Qed.

End NormPasses.

Lemma sumsq_loop (n : Z) (inputd : list double) :
  (Z.to_nat n <= length inputd)%nat ->
  for_loop n (Norm.sumsq_step inputd) (Double.of_int 0)
  = Some (Norm.sum_of_squares n inputd).
Proof.
  intros Hin.
  exact (sum_loop_fold n inputd Hin Norm.sumsq_step
           (fun t x => Double.add t (Double.mul x x)) (Double.of_int 0)
           (fun _ _ => eq_refl)).
Qed.

Lemma abs_loop (n : Z) (inputd : list double) :
  (Z.to_nat n <= length inputd)%nat ->
  for_loop n (Norm.abs_step inputd) (Double.of_int 0)
  = Some (Norm.sum_of_abs n inputd).
Proof.
  intros Hin.
  exact (sum_loop_fold n inputd Hin Norm.abs_step
           (fun t x => Double.add t (Double.abs x)) (Double.of_int 0)
           (fun _ _ => eq_refl)).
Qed.

(** What [Norm2::evaluate] and [Norm22::evaluate] return on buffers of the
    declared sizes, in terms of the three passes. *)
Lemma Norm2_evaluate_passes (n : Z) (inputd : list double)
    (b : Norm.buffers) (fwdSeed adjSeed : list (list double)) (nfwd nadj : Z) :
  Norm.well_sized n inputd b fwdSeed adjSeed nfwd nadj ->
  let out0 := Double.sqrt (Norm.sum_of_squares n inputd) in
  exists fS aS,
    Norm.propagate_forward (Norm.Norm2_fwd out0) n nfwd inputd fwdSeed
      (Norm.fwdSens b) = Some fS
    /\ Norm.propagate_adjoint (Norm.Norm2_adj out0) n nadj inputd adjSeed
         (Norm.adjSens b) = Some aS
    /\ Norm.Norm2_evaluate n inputd b fwdSeed adjSeed nfwd nadj
       = Returns (Norm.Buffers (<[0%nat := out0]> (Norm.outputd b)) fS aS).
Proof.
  intros [Hin Hout Hf1 Hf2 Hf3 Hf4 Ha1 Ha2 Ha3 Ha4] out0.
  destruct (propagate_forward_spec n inputd Hin (Norm.Norm2_fwd out0) nfwd
              fwdSeed (Norm.fwdSens b)) as (fS & HfS & _); try done.
  destruct (propagate_adjoint_spec n inputd Hin (Norm.Norm2_adj out0) nadj
              adjSeed (Norm.adjSens b)) as (aS & HaS & _); try done.
  exists fS, aS. split; [done|]. split; [done|].
  unfold Norm.Norm2_evaluate. rewrite sumsq_loop by done. simpl.
  rewrite vset_Some by (simpl; lia). simpl.
  change (Z.to_nat 0) with 0%nat.
  unfold vget at 1. simpl. rewrite list_lookup_insert_eq by done. simpl.
  fold out0. rewrite HfS. simpl. rewrite HaS. done.
Qed.

Lemma Norm22_evaluate_passes (n : Z) (inputd : list double)
    (b : Norm.buffers) (fwdSeed adjSeed : list (list double)) (nfwd nadj : Z) :
  Norm.well_sized n inputd b fwdSeed adjSeed nfwd nadj ->
  exists fS aS,
    Norm.propagate_forward Norm.Norm22_fwd n nfwd inputd fwdSeed
      (Norm.fwdSens b) = Some fS
    /\ Norm.propagate_adjoint Norm.Norm22_adj n nadj inputd adjSeed
         (Norm.adjSens b) = Some aS
    /\ Norm.Norm22_evaluate n inputd b fwdSeed adjSeed nfwd nadj
       = Returns (Norm.Buffers
                    (<[0%nat := Norm.sum_of_squares n inputd]> (Norm.outputd b))
                    fS aS).
Proof.
  intros [Hin Hout Hf1 Hf2 Hf3 Hf4 Ha1 Ha2 Ha3 Ha4].
  destruct (propagate_forward_spec n inputd Hin Norm.Norm22_fwd nfwd
              fwdSeed (Norm.fwdSens b)) as (fS & HfS & _); try done.
  destruct (propagate_adjoint_spec n inputd Hin Norm.Norm22_adj nadj
              adjSeed (Norm.adjSens b)) as (aS & HaS & _); try done.
  exists fS, aS. split; [done|]. split; [done|].
  unfold Norm.Norm22_evaluate. rewrite sumsq_loop by done. simpl.
  rewrite vset_Some by (simpl; lia). simpl.
  change (Z.to_nat 0) with 0%nat.
  rewrite HfS. simpl. rewrite HaS. done.
Qed.

Lemma Norm1_evaluate_passes (n : Z) (inputd : list double)
    (b : Norm.buffers) (fwdSeed adjSeed : list (list double)) (nfwd nadj : Z) :
  Norm.well_sized n inputd b fwdSeed adjSeed nfwd nadj ->
  exists fS aS,
    Norm.propagate_forward Norm.Norm1_fwd n nfwd inputd fwdSeed
      (Norm.fwdSens b) = Some fS
    /\ Norm.propagate_adjoint Norm.Norm1_adj n nadj inputd adjSeed
         (Norm.adjSens b) = Some aS
    /\ Norm.Norm1_evaluate n inputd b fwdSeed adjSeed nfwd nadj
       = Returns
           (if (nfwd =? 0) && (nadj =? 0)
            then Norm.Buffers
                   (<[0%nat := Norm.sum_of_abs n inputd]> (Norm.outputd b))
                   (Norm.fwdSens b) (Norm.adjSens b)
            else Norm.Buffers (Norm.outputd b) fS aS).
Proof.
  intros [Hin Hout Hf1 Hf2 Hf3 Hf4 Ha1 Ha2 Ha3 Ha4].
  destruct (propagate_forward_spec n inputd Hin Norm.Norm1_fwd nfwd
              fwdSeed (Norm.fwdSens b)) as (fS & HfS & _); try done.
  destruct (propagate_adjoint_spec n inputd Hin Norm.Norm1_adj nadj
              adjSeed (Norm.adjSens b)) as (aS & HaS & _); try done.
  exists fS, aS. split; [done|]. split; [done|].
  unfold Norm.Norm1_evaluate. destruct ((nfwd =? 0) && (nadj =? 0)).
  - rewrite abs_loop by done. simpl.
    rewrite vset_Some by (simpl; lia). done.
  - rewrite HfS. simpl. rewrite HaS. done.
Qed.

Lemma add_quiet_NaN (a : double) : Double.add a Double.quiet_NaN = Double.quiet_NaN.
Proof. by destruct a as [[]|[]| |[] ? ?]. Qed.

Lemma forward_sum_zero_seed (n : Z) (inputd fseed : list double) :
  Forall (fun s => Double.eqb s (Double.of_int 0) = true) fseed ->
  Norm.forward_sum Norm.Norm1_fwd n inputd fseed = Double.of_int 0.
Proof.
  intros Hzero. unfold Norm.forward_sum.
  assert (Forall (fun p : double * double =>
                    Double.eqb p.2 (Double.of_int 0) = true)
            (zip (take (Z.to_nat n) inputd) (take (Z.to_nat n) fseed))) as Hall.
  { apply Forall_forall. intros [x s] Hin. simpl.
    apply elem_of_zip_r in Hin. apply elem_of_take in Hin as (i & Hi & _).
    exact (Forall_at _ _ _ _ Hzero Hi). }
  induction Hall as [|[x s] l Hs Hl IH]; simpl; [done|].
  simpl in Hs. unfold Norm.Norm1_fwd at 2. by rewrite Hs.
Qed.

(** X1. On buffers of the declared sizes both [Norm2::evaluate] and
    [Norm22::evaluate] return; the squared norm is the sum of the squares of
    the first [dep(0).size()] entries, added from [0] in the order of the
    index, and the value of the 2-norm is exactly the square root of the
    value of the squared 2-norm. Both write entry 0 of the output only. *)
Theorem Norm2_value_is_sqrt_of_Norm22_value (n : Z) (inputd : list double)
    (b : Norm.buffers) (fwdSeed adjSeed : list (list double)) (nfwd nadj : Z)
    (Hws : Norm.well_sized n inputd b fwdSeed adjSeed nfwd nadj) :
  exists b2 b22,
    Norm.Norm2_evaluate n inputd b fwdSeed adjSeed nfwd nadj = Returns b2
    /\ Norm.Norm22_evaluate n inputd b fwdSeed adjSeed nfwd nadj = Returns b22
    /\ Norm.outputd b22
       = <[0%nat := Norm.sum_of_squares n inputd]> (Norm.outputd b)
    /\ Norm.outputd b2
       = <[0%nat := Double.sqrt (Norm.sum_of_squares n inputd)]>
           (Norm.outputd b).
Proof.
  destruct (Norm2_evaluate_passes n inputd b fwdSeed adjSeed nfwd nadj Hws)
    as (fS & aS & _ & _ & H2).
  destruct (Norm22_evaluate_passes n inputd b fwdSeed adjSeed nfwd nadj Hws)
    as (fS' & aS' & _ & _ & H22).
  rewrite H2, H22. do 2 eexists. by repeat split.
Qed.

Lemma Norm2_value_is_sqrt_of_Norm22_value_witness :
  let x := [Double.of_int 3; Double.of_int 4] in
  let b := Norm.Buffers [Double.zero] [[Double.zero]]
             [[Double.of_int 1; Double.of_int 2]] in
  let fwdSeed := [[Double.of_int 1; Double.of_int 0]] in
  let adjSeed := [[Double.of_int 1]] in
  exists b2 b22,
    Norm.Norm2_evaluate 2 x b fwdSeed adjSeed 1 1 = Returns b2
    /\ Norm.Norm22_evaluate 2 x b fwdSeed adjSeed 1 1 = Returns b22
    /\ Norm.outputd b22
       = <[0%nat := Norm.sum_of_squares 2 x]> (Norm.outputd b)
    /\ Norm.outputd b2
       = <[0%nat := Double.sqrt (Norm.sum_of_squares 2 x)]> (Norm.outputd b).
Proof.
  intros x b fwdSeed adjSeed.
  apply (Norm2_value_is_sqrt_of_Norm22_value 2 x b fwdSeed adjSeed 1 1).
  constructor; simpl; repeat constructor; simpl; lia.
Defined.

(** X2. Forward sensitivities of the three norms with an adjoint code path.
    For a direction [d < nfwd], entry 0 of [fwdSens[d]] becomes the sum,
    from [0] and in the order of [k], of [(x_k / value) * seed_k] for the
    2-norm, of [(2 * x_k) * seed_k] for the squared 2-norm, and of the terms
    of [Norm1::evaluate] for the 1-norm; the other entries of that buffer
    are kept. *)
Theorem norm_forward_sensitivity (n : Z) (inputd : list double)
    (b : Norm.buffers) (fwdSeed adjSeed : list (list double)) (nfwd nadj : Z)
    (d : nat) (fseed fsens : list double)
    (Hws : Norm.well_sized n inputd b fwdSeed adjSeed nfwd nadj)
    (Hd : (d < Z.to_nat nfwd)%nat)
    (Hseed : fwdSeed !! d = Some fseed)
    (Hsens : Norm.fwdSens b !! d = Some fsens) :
  let value := Double.sqrt (Norm.sum_of_squares n inputd) in
  (exists b',
     Norm.Norm2_evaluate n inputd b fwdSeed adjSeed nfwd nadj = Returns b'
     /\ Norm.fwdSens b' !! d
        = Some (<[0%nat :=
                   Norm.forward_sum
                     (fun x s acc =>
                        Double.add acc (Double.mul (Double.div x value) s))
                     n inputd fseed]> fsens))
  /\ (exists b',
        Norm.Norm22_evaluate n inputd b fwdSeed adjSeed nfwd nadj = Returns b'
        /\ Norm.fwdSens b' !! d
           = Some (<[0%nat :=
                      Norm.forward_sum
                        (fun x s acc =>
                           Double.add acc
                             (Double.mul (Double.mul (Double.of_int 2) x) s))
                        n inputd fseed]> fsens))
  /\ (exists b',
        Norm.Norm1_evaluate n inputd b fwdSeed adjSeed nfwd nadj = Returns b'
        /\ Norm.fwdSens b' !! d
           = Some (<[0%nat :=
                      Norm.forward_sum
                        (fun x s acc =>
                           if Double.eqb s (Double.of_int 0) then acc
                           else if Double.ltb x (Double.of_int 0)
                                then Double.sub acc s
                           else if Double.gtb x (Double.of_int 0)
                                then Double.add acc s
                           else Double.add acc Double.quiet_NaN)
                        n inputd fseed]> fsens)).
Proof.
  intros value.
  pose proof Hws as [Hin Hout Hf1 Hf2 Hf3 Hf4 Ha1 Ha2 Ha3 Ha4].
  assert (forall step fS,
    Norm.propagate_forward step n nfwd inputd fwdSeed (Norm.fwdSens b)
    = Some fS ->
    fS !! d = Some (<[0%nat := Norm.forward_sum step n inputd fseed]> fsens))
    as Hfwd.
  { intros step fS HfS.
    destruct (propagate_forward_spec n inputd Hin step nfwd fwdSeed
                (Norm.fwdSens b)) as (fS' & HfS' & _ & Hdone & _); try done.
    assert (fS' = fS) as -> by congruence. by apply Hdone. }
  split; [|split].
  - destruct (Norm2_evaluate_passes n inputd b fwdSeed adjSeed nfwd nadj Hws)
      as (fS & aS & HfS & _ & ->).
    eexists. split; [done|]. exact (Hfwd _ _ HfS).
  - destruct (Norm22_evaluate_passes n inputd b fwdSeed adjSeed nfwd nadj Hws)
      as (fS & aS & HfS & _ & ->).
    eexists. split; [done|]. exact (Hfwd _ _ HfS).
  - destruct (Norm1_evaluate_passes n inputd b fwdSeed adjSeed nfwd nadj Hws)
      as (fS & aS & HfS & _ & ->).
    destruct (Z.eqb_spec nfwd 0) as [->|Hne]; [simpl in Hd; lia|]. simpl.
    eexists. split; [done|]. exact (Hfwd _ _ HfS).
Qed.

Lemma norm_forward_sensitivity_witness :
  let x := [Double.of_int 3; Double.of_int 4] in
  let b := Norm.Buffers [Double.zero] [[Double.of_int 9]]
             [[Double.of_int 1; Double.of_int 2]] in
  let fseed := [Double.of_int 1; Double.of_int 0] in
  let adjSeed := [[Double.of_int 1]] in
  let value := Double.sqrt (Norm.sum_of_squares 2 x) in
  (exists b',
     Norm.Norm2_evaluate 2 x b [fseed] adjSeed 1 1 = Returns b'
     /\ Norm.fwdSens b' !! 0%nat
        = Some (<[0%nat :=
                   Norm.forward_sum
                     (fun x s acc =>
                        Double.add acc (Double.mul (Double.div x value) s))
                     2 x fseed]> [Double.of_int 9]))
  /\ (exists b',
        Norm.Norm22_evaluate 2 x b [fseed] adjSeed 1 1 = Returns b'
        /\ Norm.fwdSens b' !! 0%nat
           = Some (<[0%nat :=
                      Norm.forward_sum
                        (fun x s acc =>
                           Double.add acc
                             (Double.mul (Double.mul (Double.of_int 2) x) s))
                        2 x fseed]> [Double.of_int 9]))
  /\ (exists b',
        Norm.Norm1_evaluate 2 x b [fseed] adjSeed 1 1 = Returns b'
        /\ Norm.fwdSens b' !! 0%nat
           = Some (<[0%nat :=
                      Norm.forward_sum
                        (fun x s acc =>
                           if Double.eqb s (Double.of_int 0) then acc
                           else if Double.ltb x (Double.of_int 0)
                                then Double.sub acc s
                           else if Double.gtb x (Double.of_int 0)
                                then Double.add acc s
                           else Double.add acc Double.quiet_NaN)
                        2 x fseed]> [Double.of_int 9])).
Proof.
  intros x b fseed adjSeed.
  apply (norm_forward_sensitivity 2 x b [fseed] adjSeed 1 1 0 fseed
           [Double.of_int 9]).
  - constructor; simpl; repeat constructor; simpl; lia.
  - simpl. lia.
  - reflexivity.
  - reflexivity.
Defined.

(** X3. Adjoint accumulation of the 2-norm and of the squared 2-norm. For a
    direction [d < nadj] whose seed [s] does not compare equal to zero,
    every entry [k < dep(0).size()] of [adjSens[0][d]] has
    [(x_k / value) * s], respectively [(2 * x_k) * s], added to it; the
    entries after them and the length of the vector are kept. *)
Theorem norm2_adjoint_accumulates (n : Z) (inputd : list double)
    (b : Norm.buffers) (fwdSeed adjSeed : list (list double)) (nfwd nadj : Z)
    (d : nat) (seed : list double) (s : double) (asens : list double)
    (Hws : Norm.well_sized n inputd b fwdSeed adjSeed nfwd nadj)
    (Hd : (d < Z.to_nat nadj)%nat)
    (Hseed : adjSeed !! d = Some seed)
    (Hs : seed !! 0%nat = Some s)
    (Hnonzero : Double.eqb s (Double.of_int 0) = false)
    (Hsens : Norm.adjSens b !! d = Some asens) :
  let value := Double.sqrt (Norm.sum_of_squares n inputd) in
  (exists b' a',
     Norm.Norm2_evaluate n inputd b fwdSeed adjSeed nfwd nadj = Returns b'
     /\ Norm.adjSens b' !! d = Some a'
     /\ Norm.updated_by
          (fun x s old => Double.add old (Double.mul (Double.div x value) s))
          n inputd s asens a')
  /\ (exists b' a',
        Norm.Norm22_evaluate n inputd b fwdSeed adjSeed nfwd nadj = Returns b'
        /\ Norm.adjSens b' !! d = Some a'
        /\ Norm.updated_by
             (fun x s old =>
                Double.add old (Double.mul (Double.mul (Double.of_int 2) x) s))
             n inputd s asens a').
Proof.
  intros value.
  pose proof Hws as [Hin Hout Hf1 Hf2 Hf3 Hf4 Ha1 Ha2 Ha3 Ha4].
  assert (forall upd aS,
    Norm.propagate_adjoint upd n nadj inputd adjSeed (Norm.adjSens b)
    = Some aS ->
    exists a', aS !! d = Some a' /\ Norm.updated_by upd n inputd s asens a')
    as Hadj.
  { intros upd aS HaS.
    destruct (propagate_adjoint_spec n inputd Hin upd nadj adjSeed
                (Norm.adjSens b)) as (aS' & HaS' & _ & Hdone & _); try done.
    assert (aS' = aS) as -> by congruence.
    destruct (Hdone d seed s asens) as (a' & Ha' & Hpost); try done.
    by exists a'. }
  split.
  - destruct (Norm2_evaluate_passes n inputd b fwdSeed adjSeed nfwd nadj Hws)
      as (fS & aS & _ & HaS & ->).
    destruct (Hadj _ _ HaS) as (a' & Ha' & Hpost). by do 2 eexists.
  - destruct (Norm22_evaluate_passes n inputd b fwdSeed adjSeed nfwd nadj Hws)
      as (fS & aS & _ & HaS & ->).
    destruct (Hadj _ _ HaS) as (a' & Ha' & Hpost). by do 2 eexists.
Qed.

Lemma norm2_adjoint_accumulates_witness :
  let x := [Double.of_int 3; Double.of_int 4] in
  let asens := [Double.of_int 1; Double.of_int 2] in
  let b := Norm.Buffers [Double.zero] [] [asens] in
  let s := Double.of_int 1 in
  let value := Double.sqrt (Norm.sum_of_squares 2 x) in
  (exists b' a',
     Norm.Norm2_evaluate 2 x b [] [[s]] 0 1 = Returns b'
     /\ Norm.adjSens b' !! 0%nat = Some a'
     /\ Norm.updated_by
          (fun x s old => Double.add old (Double.mul (Double.div x value) s))
          2 x s asens a')
  /\ (exists b' a',
        Norm.Norm22_evaluate 2 x b [] [[s]] 0 1 = Returns b'
        /\ Norm.adjSens b' !! 0%nat = Some a'
        /\ Norm.updated_by
             (fun x s old =>
                Double.add old (Double.mul (Double.mul (Double.of_int 2) x) s))
             2 x s asens a').
Proof.
  intros x asens b s.
  apply (norm2_adjoint_accumulates 2 x b [] [[s]] 0 1 0 [s] s asens).
  - constructor; simpl; repeat constructor; simpl; lia.
  - simpl. lia.
  - reflexivity.
  - reflexivity.
  - reflexivity.
  - reflexivity.
Defined.

(** X4. Adjoint accumulation of the 1-norm. For a direction [d < nadj] whose
    seed [s] does not compare equal to zero, entry [k] of [adjSens[0][d]]
    has [s] subtracted where [x_k < 0] and added where [x_k > 0]; where
    neither comparison holds (a zero of either sign, or a NaN input) the
    entry becomes NaN, whatever it held. *)
Theorem Norm1_adjoint_sign_rule (n : Z) (inputd : list double)
    (b : Norm.buffers) (fwdSeed adjSeed : list (list double)) (nfwd nadj : Z)
    (d : nat) (seed : list double) (s : double) (asens : list double)
    (Hws : Norm.well_sized n inputd b fwdSeed adjSeed nfwd nadj)
    (Hd : (d < Z.to_nat nadj)%nat)
    (Hseed : adjSeed !! d = Some seed)
    (Hs : seed !! 0%nat = Some s)
    (Hnonzero : Double.eqb s (Double.of_int 0) = false)
    (Hsens : Norm.adjSens b !! d = Some asens) :
  exists b' a',
    Norm.Norm1_evaluate n inputd b fwdSeed adjSeed nfwd nadj = Returns b'
    /\ Norm.adjSens b' !! d = Some a'
    /\ Norm.updated_by
         (fun x s old =>
            if Double.ltb x (Double.of_int 0) then Double.sub old s
            else if Double.gtb x (Double.of_int 0) then Double.add old s
            else Double.quiet_NaN)
         n inputd s asens a'.
Proof.
  pose proof Hws as [Hin Hout Hf1 Hf2 Hf3 Hf4 Ha1 Ha2 Ha3 Ha4].
  destruct (Norm1_evaluate_passes n inputd b fwdSeed adjSeed nfwd nadj Hws)
    as (fS & aS & _ & HaS & ->).
  destruct (Z.eqb_spec nadj 0) as [->|Hne]; [simpl in Hd; lia|].
  rewrite andb_false_r.
  destruct (propagate_adjoint_spec n inputd Hin Norm.Norm1_adj nadj adjSeed
              (Norm.adjSens b)) as (aS' & HaS' & _ & Hdone & _); try done.
  assert (aS' = aS) as -> by congruence.
  destruct (Hdone d seed s asens) as (a' & Ha' & Hlen & Hupd & Hkeep);
    try done.
  exists (Norm.Buffers (Norm.outputd b) fS aS), a'.
  split; [done|]. split; [done|]. split; [done|]. split; [|done].
  intros k x old Hk Hx Hold. rewrite (Hupd k x old Hk Hx Hold).
  unfold Norm.Norm1_adj. by rewrite add_quiet_NaN.
Qed.

Lemma Norm1_adjoint_sign_rule_witness :
  let x := [Double.of_int (-2); Double.of_int 0; Double.of_int 3] in
  let asens := [Double.of_int 1; Double.of_int 1; Double.of_int 1] in
  let b := Norm.Buffers [Double.zero] [] [asens] in
  let s := Double.of_int 2 in
  exists b' a',
    Norm.Norm1_evaluate 3 x b [] [[s]] 0 1 = Returns b'
    /\ Norm.adjSens b' !! 0%nat = Some a'
    /\ Norm.updated_by
         (fun x s old =>
            if Double.ltb x (Double.of_int 0) then Double.sub old s
            else if Double.gtb x (Double.of_int 0) then Double.add old s
            else Double.quiet_NaN)
         3 x s asens a'.
Proof.
  intros x asens b s.
  apply (Norm1_adjoint_sign_rule 3 x b [] [[s]] 0 1 0 [s] s asens).
  - constructor; simpl; repeat constructor; simpl; lia.
  - simpl. lia.
  - reflexivity.
  - reflexivity.
  - reflexivity.
  - reflexivity.
Defined.

(** X5. A forward seed of the 1-norm whose entries all compare equal to zero
    gives the forward sensitivity [+0], whatever the input holds (zeros,
    infinities and NaN included): every term is skipped by [continue]. *)
Theorem Norm1_forward_zero_seed (n : Z) (inputd : list double)
    (b : Norm.buffers) (fwdSeed adjSeed : list (list double)) (nfwd nadj : Z)
    (d : nat) (fseed fsens : list double)
    (Hws : Norm.well_sized n inputd b fwdSeed adjSeed nfwd nadj)
    (Hd : (d < Z.to_nat nfwd)%nat)
    (Hseed : fwdSeed !! d = Some fseed)
    (Hsens : Norm.fwdSens b !! d = Some fsens)
    (Hzero : Forall (fun s => Double.eqb s (Double.of_int 0) = true) fseed) :
  exists b',
    Norm.Norm1_evaluate n inputd b fwdSeed adjSeed nfwd nadj = Returns b'
    /\ Norm.fwdSens b' !! d = Some (<[0%nat := Double.of_int 0]> fsens).
Proof.
  pose proof Hws as [Hin Hout Hf1 Hf2 Hf3 Hf4 Ha1 Ha2 Ha3 Ha4].
  destruct (Norm1_evaluate_passes n inputd b fwdSeed adjSeed nfwd nadj Hws)
    as (fS & aS & HfS & _ & ->).
  destruct (Z.eqb_spec nfwd 0) as [->|Hne]; [simpl in Hd; lia|]. simpl.
  destruct (propagate_forward_spec n inputd Hin Norm.Norm1_fwd nfwd fwdSeed
              (Norm.fwdSens b)) as (fS' & HfS' & _ & Hdone & _); try done.
  assert (fS' = fS) as -> by congruence.
  eexists. split; [done|]. simpl.
  rewrite (Hdone d fseed fsens Hd Hseed Hsens).
  by rewrite forward_sum_zero_seed.
Qed.

Lemma Norm1_forward_zero_seed_witness :
  let x := [Double.of_int 0; Double.quiet_NaN] in
  let b := Norm.Buffers [Double.zero] [[Double.of_int 9]] [] in
  let fseed := [S754_zero true; Double.of_int 0] in
  exists b',
    Norm.Norm1_evaluate 2 x b [fseed] [] 1 0 = Returns b'
    /\ Norm.fwdSens b' !! 0%nat
       = Some (<[0%nat := Double.of_int 0]> [Double.of_int 9]).
Proof.
  intros x b fseed.
  apply (Norm1_forward_zero_seed 2 x b [fseed] [] 1 0 0 fseed
           [Double.of_int 9]).
  - constructor; simpl; repeat constructor; simpl; lia.
  - simpl. lia.
  - reflexivity.
  - reflexivity.
  - repeat constructor.
Defined.

(** X6. [Norm1::evaluate] does one of two things. Called without any
    direction it writes the sum of the absolute values into entry 0 of the
    output and keeps every sensitivity buffer; called with a forward or an
    adjoint direction it keeps the whole output buffer as it found it. *)
Theorem Norm1_value_or_sensitivities (n : Z) (inputd : list double)
    (b : Norm.buffers) (fwdSeed adjSeed : list (list double)) (nfwd nadj : Z)
    (Hws : Norm.well_sized n inputd b fwdSeed adjSeed nfwd nadj) :
  exists b',
    Norm.Norm1_evaluate n inputd b fwdSeed adjSeed nfwd nadj = Returns b'
    /\ (nfwd = 0 /\ nadj = 0 ->
        b' = Norm.Buffers
               (<[0%nat := Norm.sum_of_abs n inputd]> (Norm.outputd b))
               (Norm.fwdSens b) (Norm.adjSens b))
    /\ (nfwd <> 0 \/ nadj <> 0 -> Norm.outputd b' = Norm.outputd b).
Proof.
  destruct (Norm1_evaluate_passes n inputd b fwdSeed adjSeed nfwd nadj Hws)
    as (fS & aS & _ & _ & ->).
  eexists. split; [done|].
  destruct (Z.eqb_spec nfwd 0), (Z.eqb_spec nadj 0); simpl;
    split; try done; try lia; intros [? ?]; lia.
Qed.

Lemma Norm1_value_or_sensitivities_witness :
  let x := [Double.of_int (-2); Double.of_int 0; Double.of_int 3] in
  let b := Norm.Buffers [Double.of_int 7] []
             [[Double.zero; Double.zero; Double.zero]] in
  exists b',
    Norm.Norm1_evaluate 3 x b [] [[Double.of_int 2]] 0 1 = Returns b'
    /\ (0 = 0 /\ 1 = 0 ->
        b' = Norm.Buffers
               (<[0%nat := Norm.sum_of_abs 3 x]> (Norm.outputd b))
               (Norm.fwdSens b) (Norm.adjSens b))
    /\ (0 <> 0 \/ 1 <> 0 -> Norm.outputd b' = Norm.outputd b).
Proof.
  intros x b.
  apply (Norm1_value_or_sensitivities 3 x b [] [[Double.of_int 2]] 0 1).
  constructor; simpl; repeat constructor; simpl; lia.
Defined.

(** X7. [NormInf::evaluate] writes entry 0 of the output and nothing else:
    no forward or adjoint sensitivity is written, whatever [nfwd] and
    [nadj]; and when it throws, the output entry has already been
    assigned. *)
Theorem NormInf_writes_output_only (n : Z) (inputd : list double)
    (b : Norm.buffers) (nfwd nadj : Z)
    (Hin : (Z.to_nat n <= length inputd)%nat)
    (Hout : (0 < length (Norm.outputd b))%nat) :
  let b' := Norm.Buffers (<[0%nat := Double.infinity]> (Norm.outputd b))
              (Norm.fwdSens b) (Norm.adjSens b) in
  Norm.NormInf_evaluate n inputd b nfwd nadj
  = if nadj =? 0 then Returns b'
    else Throws (Exception "NormInf::evaluate not implemented") b'.
Proof.
  unfold Norm.NormInf_evaluate. rewrite NormInf_loop_runs by done.
  rewrite vset_Some by (simpl; lia). by destruct (nadj =? 0).
Qed.

Lemma NormInf_writes_output_only_witness :
  let x := [Double.of_int 3; Double.of_int (-4)] in
  let b := Norm.Buffers [Double.zero] [[Double.of_int 9]] [] in
  let b' := Norm.Buffers (<[0%nat := Double.infinity]> (Norm.outputd b))
              (Norm.fwdSens b) (Norm.adjSens b) in
  Norm.NormInf_evaluate 2 x b 1 0
  = if 0 =? 0 then Returns b'
    else Throws (Exception "NormInf::evaluate not implemented") b'.
Proof.
  intros x b.
  apply (NormInf_writes_output_only 2 x b 1 0); simpl; lia.
Defined.

(** * Further properties of the nonzero selection *)



(** X10. [simplifyMe] does not change the value of the expression it is
    applied to: when the node is the identity, its dependency, which
    replaces it, has the same value (for a node with one index per nonzero
    of its pattern and dependency data of the size of the dependency's
    pattern); otherwise the expression is kept. *)
Theorem simplifyMe_keeps_value (env : string -> list double)
    (sp : CRSSparsity) (y : MX) (nz_ : list Z) (xd : list double)
    (Hnz : length nz_ = sp_size sp)
    (Hy : GetNonzeros.value env y = Some xd)
    (Hxd : length xd = sp_size (sparsity y)) :
  let ex := MXGetNonzeros sp y nz_ in
  GetNonzeros.value env (GetNonzeros.simplifyMe sp y nz_ ex)
  = GetNonzeros.value env ex
  /\ (GetNonzeros.isIdentity sp y nz_ = false ->
      GetNonzeros.simplifyMe sp y nz_ ex = ex)
  /\ (GetNonzeros.isIdentity sp y nz_ = true ->
      GetNonzeros.simplifyMe sp y nz_ ex = y
      /\ GetNonzeros.value env ex = Some xd).
Proof.
  intros ex. unfold GetNonzeros.simplifyMe.
  destruct (GetNonzeros.isIdentity sp y nz_) eqn:Hid.
  - assert (GetNonzeros.value env ex = Some xd) as Hex.
    { unfold GetNonzeros.isIdentity, sp_eqb in Hid.
      destruct (bool_decide_reflect (sp = sparsity y)) as [Hsp|]; [|done].
      simpl in Hid. pose proof (proj1 (in_order_spec nz_ 0) Hid) as Hord.
      clear Hid. rename Hord into Hid.
      subst ex. simpl. rewrite Hy. simpl.
      unfold GetNonzeros.evaluateD, GetNonzeros.evaluateGen. simpl.
      assert (Forall (fun k => k < Z.of_nat (length xd)) nz_) as Hrange.
      { apply Forall_lookup. intros i k Hi. rewrite (Hid i k Hi).
        apply lookup_lt_Some in Hi. rewrite Hxd, <- Hsp, <- Hnz. lia. }
      rewrite gather_full by (done || by rewrite length_replicate).
      simpl. f_equal. apply gather_in_order; [|congruence].
      intros i k Hi. rewrite (Hid i k Hi). lia. }
    rewrite Hex. by repeat split.
  - by repeat split.
Qed.

Lemma simplifyMe_keeps_value_witness :
  let sp := Sparsity 1 2 [0; 1] [0; 2] in
  let env := fun _ : string => [Double.of_int 10; Double.of_int 20] in
  let y := MXSymbolic "x" sp in
  let ex := MXGetNonzeros sp y [0; 1] in
  GetNonzeros.value env (GetNonzeros.simplifyMe sp y [0; 1] ex)
  = GetNonzeros.value env ex
  /\ (GetNonzeros.isIdentity sp y [0; 1] = false ->
      GetNonzeros.simplifyMe sp y [0; 1] ex = ex)
  /\ (GetNonzeros.isIdentity sp y [0; 1] = true ->
      GetNonzeros.simplifyMe sp y [0; 1] ex = y
      /\ GetNonzeros.value env ex
         = Some [Double.of_int 10; Double.of_int 20]).
Proof.
  intros sp env y ex.
  apply (simplifyMe_keeps_value env sp y [0; 1]
           [Double.of_int 10; Double.of_int 20]); reflexivity.
Defined.

(** The seeds added into position [j] are those of the output positions
    whose index is [j]. *)
Lemma elem_of_contributions {T : Type} (j : nat) (nz : list Z) :
  forall (seed : list T) (o : T),
    o ∈ GetNonzeros.spec_contributions j nz seed
    <-> exists i : nat, nz !! i = Some (Z.of_nat j) /\ seed !! i = Some o.
Proof.
  induction nz as [|k nz IH]; intros seed o; simpl.
  - split; [by intros ?%elem_of_nil|]. by intros (i & ? & _).
  - destruct seed as [|s seed].
    { split; [by intros ?%elem_of_nil|]. by intros (i & _ & ?). }
    case_decide as Hk.
    + rewrite elem_of_cons, IH. split.
      * intros [->|(i & Hi & Ho)]; [by exists 0%nat; subst|by exists (S i)].
      * intros ([|i] & Hi & Ho); simpl in *; [left; congruence|right; eauto].
    + rewrite IH. split.
      * intros (i & Hi & Ho). by exists (S i).
      * intros ([|i] & Hi & Ho); simpl in *; [congruence|eauto].
Qed.

Lemma testbit_fold_lor (l : list Z) :
  forall (a n : Z),
    Z.testbit (fold_left Z.lor l a) n
    = Z.testbit a n || existsb (fun o => Z.testbit o n) l.
Proof.
  induction l as [|o l IH]; intros a n; simpl.
  - by rewrite orb_false_r.
  - by rewrite IH, Z.lor_spec, orb_assoc.
Qed.

(** X11. Reverse sparsity propagation is exact bit by bit: after the pass,
    bit [n] of input word [j] is set exactly when it was set before or bit
    [n] is set in the output word of some position [i] with [nz[i] = j].
    In particular no input bit is ever cleared. *)
Theorem propagateSparsity_reverse_bits (nz_ : list Z)
    (inputd outputd : list GetNonzeros.bvec_t)
    (Hnz : Forall (fun k => k < Z.of_nat (length inputd)) nz_)
    (Hout : length outputd = length nz_) :
  exists inputd',
    GetNonzeros.propagateSparsity nz_ inputd outputd false
    = Some (inputd', replicate (length nz_) 0)
    /\ forall (j : nat) (a : GetNonzeros.bvec_t),
         inputd !! j = Some a ->
         exists a',
           inputd' !! j = Some a'
           /\ forall n : Z,
                Z.testbit a' n = true
                <-> Z.testbit a n = true
                    \/ exists (i : nat) (o : GetNonzeros.bvec_t),
                         nz_ !! i = Some (Z.of_nat j)
                         /\ outputd !! i = Some o
                         /\ Z.testbit o n = true.
Proof.
  unfold GetNonzeros.propagateSparsity. rewrite propagate_rev_scatter.
  destruct (scatter_full 0 Z.lor nz_ outputd inputd Hnz Hout)
    as (inputd' & -> & _ & Hlen & Hacc).
  simpl. exists inputd'. split; [done|].
  intros j a Ha. eexists. split; [by apply Hacc|].
  intros n. rewrite testbit_fold_lor, orb_true_iff, existsb_exists.
  split; (intros [?|H]; [by left|right]).
  - destruct H as (o & Ho & Hbit).
    apply list_elem_of_In, elem_of_contributions in Ho as (i & Hi & Ho).
    eauto.
  - destruct H as (i & o & Hi & Ho & Hbit). exists o. split; [|done].
    apply list_elem_of_In, elem_of_contributions. eauto.
Qed.

Lemma propagateSparsity_reverse_bits_witness :
  let nz := [1; -1; 0; 1] in
  let inputd := [0; 4] in
  let outputd := [1; 2; 8; 16] in
  exists inputd',
    GetNonzeros.propagateSparsity nz inputd outputd false
    = Some (inputd', replicate (length nz) 0)
    /\ forall (j : nat) (a : GetNonzeros.bvec_t),
         inputd !! j = Some a ->
         exists a',
           inputd' !! j = Some a'
           /\ forall n : Z,
                Z.testbit a' n = true
                <-> Z.testbit a n = true
                    \/ exists (i : nat) (o : GetNonzeros.bvec_t),
                         nz !! i = Some (Z.of_nat j)
                         /\ outputd !! i = Some o
                         /\ Z.testbit o n = true.
Proof.
  intros nz inputd outputd.
  apply (propagateSparsity_reverse_bits nz inputd outputd).
  - repeat constructor.
  - reflexivity.
Defined.

Lemma zero_word : 0 <= 0 < 2 ^ 64.
Proof. split; [lia|reflexivity]. Qed.

Lemma lor_word (a b : Z) :
  0 <= a < 2 ^ 64 -> 0 <= b < 2 ^ 64 -> 0 <= Z.lor a b < 2 ^ 64.
Proof.
  intros Ha Hb.
  assert (0 <= Z.lor a b) as H0 by (apply Z.lor_nonneg; lia).
  split; [done|].
  destruct (Z.eq_dec (Z.lor a b) 0) as [->|Hne]; [apply zero_word|].
  apply Z.log2_lt_pow2; [lia|].
  rewrite Z.log2_lor by lia.
  assert (forall c, 0 <= c < 2 ^ 64 -> Z.log2 c < 64) as Hlog.
  { intros c Hc. destruct (Z.eq_dec c 0) as [->|?]; [done|].
    apply Z.log2_lt_pow2; lia. }
  pose proof (Hlog a Ha). pose proof (Hlog b Hb). lia.
Qed.

Lemma fold_lor_word (l : list Z) :
  forall a : Z,
    0 <= a < 2 ^ 64 -> Forall (fun o => 0 <= o < 2 ^ 64) l ->
    0 <= fold_left Z.lor l a < 2 ^ 64.
Proof.
  induction l as [|o l IH]; intros a Ha Hl; simpl; [done|].
  apply Forall_cons in Hl as [Ho Hl]. apply IH; [|done]. by apply lor_word.
Qed.

(** X12. Sparsity propagation keeps bit words within 64 bits: when every
    input and output word lies in [[0, 2^64)], so does every word after the
    pass, in either direction. *)
Theorem propagateSparsity_keeps_words (nz_ : list Z)
    (inputd outputd : list GetNonzeros.bvec_t) (fwd : bool)
    (Hnz : Forall (fun k => k < Z.of_nat (length inputd)) nz_)
    (Hout : length outputd = length nz_)
    (Hin_w : Forall (fun w => 0 <= w < 2 ^ 64) inputd)
    (Hout_w : Forall (fun w => 0 <= w < 2 ^ 64) outputd) :
  exists inputd' outputd',
    GetNonzeros.propagateSparsity nz_ inputd outputd fwd
    = Some (inputd', outputd')
    /\ length inputd' = length inputd
    /\ length outputd' = length outputd
    /\ Forall (fun w => 0 <= w < 2 ^ 64) inputd'
    /\ Forall (fun w => 0 <= w < 2 ^ 64) outputd'.
Proof.
  unfold GetNonzeros.propagateSparsity. destruct fwd.
  - rewrite propagate_fwd_gather, gather_full by done. simpl.
    do 2 eexists. split; [done|]. split; [done|].
    split; [by rewrite length_map|]. split; [done|].
    apply Forall_fmap, Forall_forall. intros k _. simpl.
    unfold GetNonzeros.spec_select.
    destruct (0 <=? k); [|apply zero_word].
    destruct (nth_lookup_or_length inputd (Z.to_nat k) 0) as [Hk|Hk].
    + exact (Forall_at _ _ _ _ Hin_w Hk).
    + rewrite nth_overflow by exact Hk. apply zero_word.
  - rewrite propagate_rev_scatter.
    destruct (scatter_full 0 Z.lor nz_ outputd inputd Hnz Hout)
      as (inputd' & -> & _ & Hlen & Hacc).
    simpl. do 2 eexists. split; [done|]. split; [done|].
    split; [by rewrite length_replicate|]. split.
    + apply Forall_lookup. intros j w Hw.
      destruct (lookup_lt_is_Some_2 inputd j) as [a Ha].
      { apply lookup_lt_Some in Hw. unfold GetNonzeros.bvec_t in *. lia. }
      rewrite (Hacc j a Ha) in Hw. injection Hw as <-.
      apply fold_lor_word; [exact (Forall_at _ _ _ _ Hin_w Ha)|].
      apply Forall_forall. intros o Ho.
      apply elem_of_contributions in Ho as (i & _ & Ho).
      exact (Forall_at _ _ _ _ Hout_w Ho).
    + apply Forall_replicate. apply zero_word.
Qed.

Lemma propagateSparsity_keeps_words_witness :
  let nz := [1; -1; 0; 1] in
  let inputd := [0; 4] in
  let outputd := [1; 2; 8; 16] in
  exists inputd' outputd',
    GetNonzeros.propagateSparsity nz inputd outputd false
    = Some (inputd', outputd')
    /\ length inputd' = length inputd
    /\ length outputd' = length outputd
    /\ Forall (fun w => 0 <= w < 2 ^ 64) inputd'
    /\ Forall (fun w => 0 <= w < 2 ^ 64) outputd'.
Proof.
  intros nz inputd outputd.
  apply (propagateSparsity_keeps_words nz inputd outputd false).
  - repeat constructor.
  - reflexivity.
  - repeat constructor; lia.
  - repeat constructor; lia.
Defined.

Lemma contributions_none {T : Type} (j : nat) (nz : list Z) :
  forall seed : list T,
    Z.of_nat j ∉ nz -> GetNonzeros.spec_contributions j nz seed = [].
Proof.
  induction nz as [|k nz IH]; intros seed Hj; simpl; [done|].
  destruct seed as [|s seed]; [done|].
  apply not_elem_of_cons in Hj as [Hne Hj].
  case_decide; [congruence|]. by apply IH.
Qed.

(** X13. The adjoint pass of [evaluateGen] touches only the accumulator
    positions that some index selects: a position [j] that does not occur
    in [nz_] holds after the call what it held before, in every adjoint
    direction, and the accumulators keep their lengths. *)
Theorem evaluateGen_adjoint_frame {T : Type} (zero : T)
    (add : T -> T -> T) (nz : list Z) (input0 : list T)
    (fwdSeed : list (list T)) (b : GetNonzeros.buffers T)
    (Hws : GetNonzeros.well_sized nz input0 fwdSeed b) :
  exists b',
    GetNonzeros.evaluateGen zero add nz input0 fwdSeed b = Some b'
    /\ forall (d : nat) (asens : list T),
         (d < length (GetNonzeros.adjSeed b))%nat ->
         GetNonzeros.adjSens b !! d = Some asens ->
         exists asens',
           GetNonzeros.adjSens b' !! d = Some asens'
           /\ length asens' = length asens
           /\ forall j : nat, Z.of_nat j ∉ nz -> asens' !! j = asens !! j.
Proof.
  destruct (evaluateGen_spec zero add nz input0 fwdSeed b Hws)
    as (b' & Hrun & _ & _ & Hadj).
  exists b'. split; [done|]. intros d asens Hd Hs.
  destruct (lookup_lt_is_Some_2 (GetNonzeros.adjSeed b) d Hd) as [aseed Ha].
  destruct (Hadj d aseed asens Ha Hs)
    as (aseed' & asens' & _ & Hs' & _ & Hlen & Hacc).
  exists asens'. split; [done|]. split; [done|].
  intros j Hj. destruct (asens !! j) as [a|] eqn:Hj'.
  - rewrite (Hacc j a Hj'). by rewrite contributions_none.
  - apply lookup_ge_None. apply lookup_ge_None in Hj'. lia.
Qed.

Lemma evaluateGen_adjoint_frame_witness :
  let nz := [2; -1; 0] in
  let x := [Double.of_int 10; Double.of_int 20; Double.of_int 30] in
  let b := GetNonzeros.Buffers [Double.zero; Double.zero; Double.zero] []
             [[Double.of_int 5; Double.of_int 7; Double.of_int 9]]
             [[Double.of_int 1; Double.of_int 2; Double.of_int 3]] in
  exists b',
    GetNonzeros.evaluateGen Double.zero Double.add nz x [] b = Some b'
    /\ forall (d : nat) (asens : list double),
         (d < length (GetNonzeros.adjSeed b))%nat ->
         GetNonzeros.adjSens b !! d = Some asens ->
         exists asens',
           GetNonzeros.adjSens b' !! d = Some asens'
           /\ length asens' = length asens
           /\ forall j : nat, Z.of_nat j ∉ nz -> asens' !! j = asens !! j.
Proof.
  intros nz x b.
  apply (evaluateGen_adjoint_frame Double.zero Double.add nz x [] b).
  constructor; simpl; repeat constructor; simpl; lia.
Defined.

(** * The input order computed by [evaluateMX] *)

(** ** Counting lemmas *)

Lemma occurrences_cons (j k : Z) (l : list Z) :
  GetNonzeros.occurrences j (k :: l)
  = ((if decide (k = j) then 1 else 0) + GetNonzeros.occurrences j l)%nat.
Proof.
  unfold GetNonzeros.occurrences. rewrite filter_cons. by case_decide.
Qed.

Lemma smaller_cons (j k : Z) (l : list Z) :
  GetNonzeros.smaller j (k :: l)
  = ((if decide (k < j)%Z then 1 else 0) + GetNonzeros.smaller j l)%nat.
Proof.
  unfold GetNonzeros.smaller. rewrite filter_cons. by case_decide.
Qed.

Lemma occurrences_app (j : Z) (l1 l2 : list Z) :
  GetNonzeros.occurrences j (l1 ++ l2)
  = (GetNonzeros.occurrences j l1 + GetNonzeros.occurrences j l2)%nat.
Proof.
  unfold GetNonzeros.occurrences. by rewrite filter_app, length_app.
Qed.

Lemma smaller_succ (j : Z) (l : list Z) :
  GetNonzeros.smaller (j + 1) l
  = (GetNonzeros.smaller j l + GetNonzeros.occurrences j l)%nat.
Proof.
  induction l as [|k l IH]; [done|].
  rewrite !smaller_cons, occurrences_cons, IH.
  repeat case_decide; lia.
Qed.

Lemma smaller_mono (j j' : Z) (l : list Z) :
  j <= j' -> (GetNonzeros.smaller j l <= GetNonzeros.smaller j' l)%nat.
Proof.
  intros Hj. induction l as [|k l IH]; [done|].
  rewrite !smaller_cons. repeat case_decide; lia.
Qed.

Lemma smaller_below (j : Z) (l : list Z) :
  Forall (fun k => j <= k) l -> GetNonzeros.smaller j l = 0%nat.
Proof.
  induction 1 as [|k l Hk Hl IH]; [done|].
  rewrite smaller_cons, IH. case_decide; lia.
Qed.

Lemma smaller_above (j : Z) (l : list Z) :
  Forall (fun k => k < j) l -> GetNonzeros.smaller j l = length l.
Proof.
  induction 1 as [|k l Hk Hl IH]; [done|].
  rewrite smaller_cons, IH. simpl. case_decide; lia.
Qed.

Lemma occurrences_absent (j : Z) (l : list Z) :
  Forall (fun k => k <> j) l -> GetNonzeros.occurrences j l = 0%nat.
Proof.
  induction 1 as [|k l Hk Hl IH]; [done|].
  rewrite occurrences_cons, IH. case_decide; [done|lia].
Qed.

Lemma smaller_occurrences_le (j : Z) (l : list Z) :
  (GetNonzeros.smaller j l + GetNonzeros.occurrences j l <= length l)%nat.
Proof.
  rewrite <- smaller_succ. apply length_filter.
Qed.

Lemma occurrences_take_lt (j : Z) (l : list Z) (k : nat) :
  l !! k = Some j ->
  (GetNonzeros.occurrences j (take k l) < GetNonzeros.occurrences j l)%nat.
Proof.
  intros Hk. rewrite <- (take_drop_middle l k j Hk) at 2.
  rewrite occurrences_app, occurrences_cons. rewrite decide_True by done. lia.
Qed.

Lemma occurrences_take_le (j : Z) (l : list Z) (k : nat) :
  (GetNonzeros.occurrences j (take k l) <= GetNonzeros.occurrences j l)%nat.
Proof.
  rewrite <- (take_drop k l) at 2. rewrite occurrences_app. lia.
Qed.

Lemma length_positions (j : Z) (l : list Z) :
  forall base : nat,
    length (GetNonzeros.positions j l base) = GetNonzeros.occurrences j l.
Proof.
  induction l as [|k l IH]; intros base; [done|].
  simpl. rewrite occurrences_cons. case_decide; simpl; by rewrite IH.
Qed.

Lemma positions_app (j : Z) (l1 l2 : list Z) :
  forall base : nat,
    GetNonzeros.positions j (l1 ++ l2) base
    = GetNonzeros.positions j l1 base
      ++ GetNonzeros.positions j l2 (base + length l1).
Proof.
  induction l1 as [|k l1 IH]; intros base; simpl.
  - by rewrite Nat.add_0_r.
  - rewrite IH. replace (S base + length l1)%nat
      with (base + S (length l1))%nat by lia.
    by case_decide.
Qed.

(** Every listed position holds the key, and lies at or after [base]. *)
Lemma positions_lookup (j : Z) (l : list Z) :
  forall (base r : nat) (p : Z),
    GetNonzeros.positions j l base !! r = Some p ->
    exists i : nat, p = Z.of_nat (base + i) /\ l !! i = Some j.
Proof.
  induction l as [|k l IH]; intros base r p Hp; simpl in Hp; [done|].
  case_decide as Hk.
  - destruct r as [|r]; simpl in Hp.
    + injection Hp as <-. exists 0%nat. split; [f_equal; lia|by subst].
    + destruct (IH _ _ _ Hp) as (i & -> & Hi). exists (S i).
      split; [f_equal; lia|done].
  - destruct (IH _ _ _ Hp) as (i & -> & Hi). exists (S i).
    split; [f_equal; lia|done].
Qed.

(** Every position that holds the key is listed. *)
Lemma positions_complete (j : Z) (l : list Z) :
  forall (base i : nat),
    l !! i = Some j ->
    exists r : nat,
      GetNonzeros.positions j l base !! r = Some (Z.of_nat (base + i)).
Proof.
  induction l as [|k l IH]; intros base i Hi; [done|]. simpl.
  destruct i as [|i]; simpl in Hi.
  - injection Hi as ->. rewrite decide_True by done. exists 0%nat.
    simpl. do 2 f_equal. lia.
  - destruct (IH (S base) i Hi) as (r & Hr).
    replace (S base + i)%nat with (base + S i)%nat in Hr by lia.
    case_decide; [by exists (S r)|by exists r].
Qed.

(** The listed positions increase. *)
Lemma positions_increasing (j : Z) (l : list Z) :
  forall (base r r' : nat) (p p' : Z),
    (r < r')%nat ->
    GetNonzeros.positions j l base !! r = Some p ->
    GetNonzeros.positions j l base !! r' = Some p' ->
    p < p'.
Proof.
  induction l as [|k l IH]; intros base r r' p p' Hr Hp Hp'; simpl in *;
    [done|].
  case_decide as Hk; [|by eapply IH].
  destruct r' as [|r']; [lia|]. simpl in Hp'.
  destruct r as [|r]; simpl in Hp.
  - injection Hp as <-.
    destruct (positions_lookup _ _ _ _ _ Hp') as (i & -> & _). lia.
  - eapply (IH (S base) r r'); [lia|done..].
Qed.

(** Every slot below [smaller m' l] belongs to exactly one key below [m']:
    the slots of key [j] are those from [smaller j l], as many as [j]
    occurs. *)
Lemma slot_of_key (l : list Z) (m' : nat) :
  Forall (fun k => 0 <= k) l ->
  forall p : nat,
    (p < GetNonzeros.smaller (Z.of_nat m') l)%nat ->
    exists (j : Z) (r : nat),
      0 <= j < Z.of_nat m'
      /\ (r < GetNonzeros.occurrences j l)%nat
      /\ p = (GetNonzeros.smaller j l + r)%nat.
Proof.
  intros Hl. induction m' as [|m' IH]; intros p Hp.
  - rewrite smaller_below in Hp by done. lia.
  - replace (Z.of_nat (S m')) with (Z.of_nat m' + 1) in Hp by lia.
    rewrite smaller_succ in Hp.
    destruct (decide (p < GetNonzeros.smaller (Z.of_nat m') l)%nat) as [Hlt|Hge].
    + destruct (IH p Hlt) as (j & r & Hj & Hr & ->).
      exists j, r. split; [lia|done].
    + exists (Z.of_nat m'), (p - GetNonzeros.smaller (Z.of_nat m') l)%nat.
      split; [lia|]. split; lia.
Qed.

(** ** The three loops *)

(** The counting loop adds to entry [t] the number of indices equal to
    [t - 1]. *)
Lemma count_inputs_counts (nz : list Z) :
  forall c : list Z,
    Forall (fun k => 0 <= k /\ k + 1 < Z.of_nat (length c)) nz ->
    exists c',
      GetNonzeros.count_inputs nz c = Returns c'
      /\ length c' = length c
      /\ forall (t : nat) (v : Z),
           c !! t = Some v ->
           c' !! t
           = Some (v + Z.of_nat (GetNonzeros.occurrences (Z.of_nat t - 1) nz)).
Proof.
  induction nz as [|it nz IH]; intros c Hnz; simpl.
  - exists c. split; [done|]. split; [done|]. intros t v Ht.
    rewrite Ht. f_equal. unfold GetNonzeros.occurrences. simpl. lia.
  - apply Forall_cons in Hnz as [[H0 Hit] Hnz].
    destruct (Z.leb_spec 0 it); [|lia]. simpl.
    destruct (vget_Some c (it + 1)) as (cv & -> & Hcv); [lia|lia|]. simpl.
    rewrite vset_Some by lia.
    destruct (IH (<[Z.to_nat (it + 1) := cv + 1]> c))
      as (c' & -> & Hlen & Hc').
    { rewrite length_insert. done. }
    exists c'. split; [done|]. rewrite length_insert in Hlen.
    split; [done|]. intros t v Ht. rewrite occurrences_cons.
    destruct (decide (t = Z.to_nat (it + 1))) as [->|Hne].
    + rewrite (Hc' _ (cv + 1)) by (apply list_lookup_insert_eq; lia).
      rewrite decide_True by lia. f_equal.
      assert (v = cv) as -> by congruence. lia.
    + rewrite (Hc' t v) by (by rewrite list_lookup_insert_ne).
      rewrite decide_False by lia. f_equal.
Qed.

(** The cumulative sum turns the counts into, for each [t], the number of
    indices smaller than [t]. *)
Lemma cumsum_smaller (nz : list Z) (m : nat) (c1 : list Z) :
  Forall (fun k => 0 <= k) nz ->
  length c1 = (m + 1)%nat ->
  (forall t : nat, (t <= m)%nat ->
     c1 !! t
     = Some (Z.of_nat (GetNonzeros.occurrences (Z.of_nat t - 1) nz))) ->
  exists c2,
    GetNonzeros.cumsum (Z.of_nat m) c1 = Some c2
    /\ length c2 = (m + 1)%nat
    /\ forall t : nat, (t <= m)%nat ->
         c2 !! t = Some (Z.of_nat (GetNonzeros.smaller (Z.of_nat t) nz)).
Proof.
  intros Hnz Hlen Hc1. unfold GetNonzeros.cumsum.
  destruct (for_loop_inv
    (fun i c =>
       length c = (m + 1)%nat
       /\ (forall t : nat, Z.of_nat t <= i ->
             c !! t = Some (Z.of_nat (GetNonzeros.smaller (Z.of_nat t) nz)))
       /\ (forall t : nat, i < Z.of_nat t -> (t <= m)%nat ->
             c !! t
             = Some (Z.of_nat (GetNonzeros.occurrences (Z.of_nat t - 1) nz))))
    (Z.of_nat m)
    (fun i c => a ← vget c (i + 1); b ← vget c i; vset c (i + 1) (a + b)) c1)
    as (c2 & Hrun & Hlen2 & Hdone & _).
  - split; [done|]. split; [|intros; by apply Hc1].
    intros t Ht. assert (t = 0%nat) as -> by lia.
    rewrite Hc1 by lia. do 2 f_equal. simpl.
    rewrite smaller_below by done. apply occurrences_absent.
    eapply Forall_impl; [exact Hnz|]. simpl. lia.
  - intros i c Hi (Hl & Hdone & Hrest).
    destruct (vget_Some c (i + 1)) as (a & -> & Ha); [lia|lia|].
    destruct (vget_Some c i) as (b & -> & Hb); [lia|lia|]. simpl.
    rewrite vset_Some by lia. eexists. split; [done|].
    rewrite length_insert. split; [done|].
    rewrite Hrest in Ha by lia. rewrite Hdone in Hb by lia.
    injection Ha as <-. injection Hb as <-.
    split.
    + intros t Ht. destruct (decide (t = Z.to_nat (i + 1))) as [->|Hne].
      * rewrite list_lookup_insert_eq by lia. f_equal.
        replace (Z.of_nat (Z.to_nat (i + 1))) with (Z.of_nat (Z.to_nat i) + 1)
          by lia.
        rewrite smaller_succ.
        replace (Z.of_nat (Z.to_nat i) + 1 - 1) with (Z.of_nat (Z.to_nat i))
          by lia.
        lia.
      * rewrite list_lookup_insert_ne by done. apply Hdone. lia.
    + intros t Ht Htm. rewrite list_lookup_insert_ne by lia.
      apply Hrest; lia.
  - exists c2. split; [done|]. split; [done|].
    intros t Ht. apply Hdone. lia.
Qed.

Lemma positions_snoc (j i : Z) (l : list Z) :
  GetNonzeros.positions j (l ++ [i]) 0
  = GetNonzeros.positions j l 0
    ++ (if decide (i = j) then [Z.of_nat (length l)] else []).
Proof. rewrite positions_app. simpl. by case_decide. Qed.

Lemma occurrences_snoc (j i : Z) (l : list Z) :
  GetNonzeros.occurrences j (l ++ [i])
  = (GetNonzeros.occurrences j l + (if decide (i = j) then 1 else 0))%nat.
Proof.
  rewrite occurrences_app, occurrences_cons.
  change (GetNonzeros.occurrences j []) with 0%nat.
  case_decide; lia.
Qed.

(** The ordering loop, started from the numbers of smaller indices, puts
    every position into its slot. *)
Lemma assignment_order_sorts (nz : list Z) (m : nat) (c2 : list Z) :
  Forall (fun k => 0 <= k < Z.of_nat m) nz ->
  length c2 = (m + 1)%nat ->
  (forall t : nat, (t <= m)%nat ->
     c2 !! t = Some (Z.of_nat (GetNonzeros.smaller (Z.of_nat t) nz))) ->
  exists c3 order,
    GetNonzeros.assignment_order nz c2 = Some (c3, order)
    /\ GetNonzeros.is_input_order m nz order.
Proof.
  intros Hnz Hlen Hc2. unfold GetNonzeros.assignment_order.
  destruct (for_loop_inv
    (fun k (st : list Z * list Z) =>
       length st.1 = (m + 1)%nat
       /\ length st.2 = length nz
       /\ (forall t : nat, (t <= m)%nat ->
             st.1 !! t
             = Some (Z.of_nat
                       (GetNonzeros.smaller (Z.of_nat t) nz
                        + GetNonzeros.occurrences (Z.of_nat t)
                            (take (Z.to_nat k) nz))))
       /\ (forall (j : Z) (r : nat) (p : Z),
             0 <= j < Z.of_nat m ->
             GetNonzeros.positions j (take (Z.to_nat k) nz) 0 !! r = Some p ->
             st.2 !! (GetNonzeros.smaller j nz + r)%nat = Some p))
    (Z.of_nat (length nz))
    (fun k '(c, order) =>
       i ← vget nz k; pos ← vget c i; c' ← vset c i (pos + 1);
       order' ← vset order pos k; Some (c', order'))
    (c2, replicate (length nz) 0))
    as ([c3 order] & Hrun & _ & Hlo & _ & Hdone).
  - simpl. split; [done|]. split; [by rewrite length_replicate|].
    split; [|done]. intros t Ht. rewrite Hc2 by done.
    do 2 f_equal. unfold GetNonzeros.occurrences. simpl. lia.
  - intros k [c order] Hk (Hlc & Hlo & Hc & Hord). simpl in *.
    destruct (vget_Some nz k) as (i & -> & Hi); [lia|lia|]. simpl.
    pose proof (Forall_at _ _ _ _ Hnz Hi) as Hrange. simpl in Hrange.
    set (kn := Z.to_nat k) in *.
    set (occ := GetNonzeros.occurrences i (take kn nz)).
    pose proof (occurrences_take_lt i nz kn Hi) as Hocc.
    pose proof (smaller_occurrences_le i nz) as Hle.
    destruct (vget_Some c i) as (pos & -> & Hpos); [lia|lia|]. simpl.
    rewrite (Hc (Z.to_nat i)) in Hpos by lia.
    replace (Z.of_nat (Z.to_nat i)) with i in Hpos by lia.
    injection Hpos as <-. fold occ.
    rewrite vset_Some by lia. simpl.
    rewrite vset_Some by lia. simpl.
    rewrite Nat2Z.id.
    eexists. split; [done|]. simpl. rewrite !length_insert.
    split; [done|]. split; [done|].
    replace (Z.to_nat (k + 1)) with (S kn) by lia.
    rewrite (take_S_r _ _ _ Hi).
    split.
    + intros t Ht. rewrite occurrences_snoc.
      destruct (decide (t = Z.to_nat i)) as [->|Hne].
      * rewrite list_lookup_insert_eq by lia.
        replace (Z.of_nat (Z.to_nat i)) with i by lia.
        rewrite decide_True by done. f_equal. fold occ. lia.
      * rewrite list_lookup_insert_ne by done.
        rewrite decide_False by lia. rewrite Hc by done.
        do 2 f_equal. lia.
    + intros j r p Hj. rewrite positions_snoc.
      pose proof (length_positions j (take kn nz) 0) as Hlp.
      pose proof (occurrences_take_le j nz kn) as Hjle.
      destruct (decide (r < GetNonzeros.occurrences j (take kn nz))%nat)
        as [Hr|Hr].
      * rewrite lookup_app_l by lia. intros Hp.
        rewrite list_lookup_insert_ne; [by apply Hord|].
        destruct (Z.lt_trichotomy j i) as [Hlt|[->|Hgt]].
        -- pose proof (smaller_mono (j + 1) i nz ltac:(lia)) as Hm.
           rewrite smaller_succ in Hm. fold occ. lia.
        -- fold occ in Hr. lia.
        -- pose proof (smaller_mono (i + 1) j nz ltac:(lia)) as Hm.
           rewrite smaller_succ in Hm. fold occ. lia.
      * rewrite lookup_app_r by lia. rewrite Hlp.
        case_decide as Hij; [|by rewrite lookup_nil].
        destruct (r - GetNonzeros.occurrences j (take kn nz))%nat
          as [|r0] eqn:Hr0; simpl; [|by rewrite lookup_nil].
        intros [= <-]. subst j.
        assert (r = occ) as -> by (subst occ; lia).
        rewrite list_lookup_insert_eq by lia. f_equal.
        rewrite length_take. apply lookup_lt_Some in Hi. subst kn. lia.
  - exists c3, order. split; [done|]. simpl in *. split; [done|].
    intros j r p Hj Hp. apply Hdone; [done|].
    replace (Z.to_nat (Z.max 0 (Z.of_nat (length nz)))) with (length nz)
      by lia.
    by rewrite take_ge.
Qed.

(** ** Consequences of the slot rule *)

Section InputOrder.

Variables (m : nat) (nz order : list Z).
Hypothesis Hnz : Forall (fun k => 0 <= k < Z.of_nat m) nz.
Hypothesis Horder : GetNonzeros.is_input_order m nz order.

Lemma nz_nonnegative : Forall (fun k => 0 <= k) nz.
Proof. eapply Forall_impl; [exact Hnz|]. simpl. lia. Qed.

Lemma smaller_all : GetNonzeros.smaller (Z.of_nat m) nz = length nz.
Proof.
  apply smaller_above. eapply Forall_impl; [exact Hnz|]. simpl. lia.
Qed.

(** Every slot of the order holds a position of [nz], and the slot is the
    one the slot rule gives for that position. *)
Lemma order_slot (p : nat) :
  (p < length nz)%nat ->
  exists (i : nat) (j : Z) (r : nat),
    order !! p = Some (Z.of_nat i)
    /\ nz !! i = Some j
    /\ 0 <= j < Z.of_nat m
    /\ p = (GetNonzeros.smaller j nz + r)%nat
    /\ GetNonzeros.positions j nz 0 !! r = Some (Z.of_nat i).
Proof.
  intros Hp. rewrite <- smaller_all in Hp.
  destruct (slot_of_key nz m nz_nonnegative p Hp) as (j & r & Hj & Hr & ->).
  rewrite <- (length_positions j nz 0) in Hr.
  destruct (lookup_lt_is_Some_2 _ _ Hr) as [q Hq].
  destruct (positions_lookup _ _ _ _ _ Hq) as (i & -> & Hi).
  exists i, j, r. simpl in *. split; [by apply Horder|]. done.
Qed.

(** Every position of [nz] occurs in the order. *)
Lemma order_complete (i : nat) :
  (i < length nz)%nat -> Z.of_nat i ∈ order.
Proof.
  intros Hi. destruct (lookup_lt_is_Some_2 _ _ Hi) as [j Hj].
  destruct (positions_complete j nz 0 i Hj) as (r & Hr). simpl in Hr.
  apply list_elem_of_lookup. exists (GetNonzeros.smaller j nz + r)%nat.
  apply Horder; [|done]. exact (Forall_at _ _ _ _ Hnz Hj).
Qed.

Lemma order_permutation :
  Permutation order (Z.of_nat <$> seq 0 (length nz)).
Proof.
  symmetry. apply NoDup_Permutation_bis.
  - apply NoDup_ListNoDup, NoDup_fmap; [apply _|apply NoDup_seq].
  - destruct Horder as [Hlen _]. rewrite length_fmap, length_seq. lia.
  - intros x Hx. apply list_elem_of_In in Hx.
    apply list_elem_of_fmap in Hx as (i & -> & Hi).
    apply elem_of_seq in Hi. apply list_elem_of_In, order_complete. lia.
Qed.

(** Along the order the entries of [nz] do not decrease, and positions with
    the same entry keep their relative order. *)
Lemma order_sorted (p q i i' : nat) (j j' : Z) :
  (p < q)%nat ->
  order !! p = Some (Z.of_nat i) -> order !! q = Some (Z.of_nat i') ->
  nz !! i = Some j -> nz !! i' = Some j' ->
  j <= j' /\ (j = j' -> (i < i')%nat).
Proof.
  intros Hpq Hp Hq Hi Hi'.
  destruct Horder as [Hlen _].
  destruct (order_slot p) as (i0 & j0 & r & Hp0 & Hi0 & Hj0 & Hpr & Hr).
  { apply lookup_lt_Some in Hp. lia. }
  destruct (order_slot q) as (i1 & j1 & r' & Hq1 & Hi1 & Hj1 & Hqr & Hr').
  { apply lookup_lt_Some in Hq. lia. }
  assert (i0 = i) as -> by (rewrite Hp in Hp0; injection Hp0; lia).
  assert (i1 = i') as -> by (rewrite Hq in Hq1; injection Hq1; lia).
  assert (j0 = j) as -> by congruence.
  assert (j1 = j') as -> by congruence.
  pose proof (length_positions j nz 0) as Hlj.
  pose proof (length_positions j' nz 0) as Hlj'.
  apply lookup_lt_Some in Hr as Hrlt. apply lookup_lt_Some in Hr' as Hrlt'.
  split.
  - destruct (Z.le_gt_cases j j') as [?|Hgt]; [done|].
    pose proof (smaller_mono (j' + 1) j nz ltac:(lia)) as Hm.
    rewrite smaller_succ in Hm. lia.
  - intros <-.
    pose proof (positions_increasing j nz 0 r r' _ _ ltac:(lia) Hr Hr'). lia.
Qed.

(** The order in closed form. *)
Lemma order_closed_form : order = GetNonzeros.sorted_positions m nz.
Proof.
  destruct Horder as [Hlen Hslot].
  assert (forall m' : nat, (m' <= m)%nat ->
    take (GetNonzeros.smaller (Z.of_nat m') nz) order
    = GetNonzeros.sorted_positions m' nz) as Hprefix.
  { induction m' as [|m' IH]; intros Hm'.
    - rewrite smaller_below by exact nz_nonnegative. done.
    - unfold GetNonzeros.sorted_positions.
      rewrite seq_S, map_app, concat_app. simpl. rewrite app_nil_r.
      fold (GetNonzeros.sorted_positions m' nz). rewrite <- IH by lia.
      replace (Z.of_nat (S m')) with (Z.of_nat m' + 1) by lia.
      rewrite smaller_succ, <- take_take_drop. f_equal.
      apply list_eq. intros r.
      pose proof (length_positions (Z.of_nat m') nz 0) as Hl.
      destruct (decide (r < GetNonzeros.occurrences (Z.of_nat m') nz)%nat)
        as [Hr|Hr].
      + rewrite lookup_take_lt, lookup_drop by done.
        destruct (lookup_lt_is_Some_2
                    (GetNonzeros.positions (Z.of_nat m') nz 0) r) as [q Hq];
          [lia|].
        rewrite Hq. apply Hslot; [lia|done].
      + rewrite lookup_take_ge by lia. symmetry.
        apply lookup_ge_None. lia. }
  rewrite <- (Hprefix m) by done. rewrite smaller_all.
  by rewrite take_ge by lia.
Qed.

End InputOrder.


(** The three loops at the head of [evaluateMX] run to their end on a node
    with valid indices. *)
Lemma input_order_run (m : nat) (nz_ : list Z) :
  Forall (fun k => 0 <= k < Z.of_nat m) nz_ ->
  exists c1 c2 c3 order,
    GetNonzeros.count_inputs nz_ (replicate (m + 1) 0) = Returns c1
    /\ GetNonzeros.cumsum (Z.of_nat m) c1 = Some c2
    /\ GetNonzeros.assignment_order nz_ c2 = Some (c3, order)
    /\ (forall t : nat, (t <= m)%nat ->
          c2 !! t = Some (Z.of_nat (GetNonzeros.smaller (Z.of_nat t) nz_)))
    /\ GetNonzeros.is_input_order m nz_ order.
Proof.
  intros Hnz.
  destruct (count_inputs_counts nz_ (replicate (m + 1) 0))
    as (c1 & Hc1 & Hl1 & Hcount).
  { eapply Forall_impl; [exact Hnz|]. simpl. intros k Hk.
    rewrite length_replicate. lia. }
  rewrite length_replicate in Hl1.
  destruct (cumsum_smaller nz_ m c1) as (c2 & Hc2 & Hl2 & Hsmaller).
  { eapply Forall_impl; [exact Hnz|]. simpl. lia. }
  { done. }
  { intros t Ht. rewrite (Hcount t 0); [f_equal; lia|].
    apply lookup_replicate. split; [done|lia]. }
  destruct (assignment_order_sorts nz_ m c2 Hnz Hl2 Hsmaller)
    as (c3 & order & Hc3 & Horder).
  by exists c1, c2, c3, order.
Qed.

(** X14. For a node whose indices are valid nonzeros of the dependency, the
    counting loop, the cumulative sum and the ordering loop of [evaluateMX]
    run without leaving a vector; after the cumulative sum, [inz_count[t]]
    is the number of indices smaller than [t]; and [nz_order] lists the
    output positions grouped by input nonzero: first those selecting input
    nonzero [0], then those selecting [1], and so on, each group in
    increasing order. *)
Theorem assignment_order_is_counting_sort (m : nat) (nz_ : list Z)
    (Hnz : Forall (fun k => 0 <= k < Z.of_nat m) nz_) :
  exists c1 c2 c3,
    GetNonzeros.count_inputs nz_ (replicate (m + 1) 0) = Returns c1
    /\ GetNonzeros.cumsum (Z.of_nat m) c1 = Some c2
    /\ (forall t : nat, (t <= m)%nat ->
          c2 !! t = Some (Z.of_nat (GetNonzeros.smaller (Z.of_nat t) nz_)))
    /\ GetNonzeros.assignment_order nz_ c2
       = Some (c3, GetNonzeros.sorted_positions m nz_).
Proof.
  destruct (input_order_run m nz_ Hnz)
    as (c1 & c2 & c3 & order & H1 & H2 & H3 & Hsm & Horder).
  exists c1, c2, c3. split; [done|]. split; [done|]. split; [done|].
  by rewrite <- (order_closed_form m nz_ order Hnz Horder).
Qed.

Lemma assignment_order_is_counting_sort_witness :
  let nz := [1; 0; 0; 1] in
  exists c1 c2 c3,
    GetNonzeros.count_inputs nz (replicate (2 + 1) 0) = Returns c1
    /\ GetNonzeros.cumsum (Z.of_nat 2) c1 = Some c2
    /\ (forall t : nat, (t <= 2)%nat ->
          c2 !! t = Some (Z.of_nat (GetNonzeros.smaller (Z.of_nat t) nz)))
    /\ GetNonzeros.assignment_order nz c2
       = Some (c3, GetNonzeros.sorted_positions 2 nz).
Proof.
  intros nz.
  apply (assignment_order_is_counting_sort 2 nz).
  repeat constructor; simpl; lia.
Defined.

(** X15. The order [nz_order] computed by [evaluateMX] is a permutation of
    the output positions [0 .. nz_.size()-1]; along it the selected input
    nonzero never decreases; and output positions that select the same
    input nonzero keep their relative order (the sort is stable). *)
Theorem assignment_order_sorted_permutation (m : nat) (nz_ : list Z)
    (Hnz : Forall (fun k => 0 <= k < Z.of_nat m) nz_) :
  exists c1 c2 c3 nz_order,
    GetNonzeros.count_inputs nz_ (replicate (m + 1) 0) = Returns c1
    /\ GetNonzeros.cumsum (Z.of_nat m) c1 = Some c2
    /\ GetNonzeros.assignment_order nz_ c2 = Some (c3, nz_order)
    /\ Permutation nz_order (Z.of_nat <$> seq 0 (length nz_))
    /\ forall (p q i i' : nat) (j j' : Z),
         (p < q)%nat ->
         nz_order !! p = Some (Z.of_nat i) ->
         nz_order !! q = Some (Z.of_nat i') ->
         nz_ !! i = Some j -> nz_ !! i' = Some j' ->
         j <= j' /\ (j = j' -> (i < i')%nat).
Proof.
  destruct (input_order_run m nz_ Hnz)
    as (c1 & c2 & c3 & order & H1 & H2 & H3 & Hsm & Horder).
  exists c1, c2, c3, order. split; [done|]. split; [done|]. split; [done|].
  split; [by eapply order_permutation|].
  intros p q i i' j j'. by eapply order_sorted.
Qed.

Lemma assignment_order_sorted_permutation_witness :
  let nz := [1; 0; 0; 1] in
  exists c1 c2 c3 nz_order,
    GetNonzeros.count_inputs nz (replicate (2 + 1) 0) = Returns c1
    /\ GetNonzeros.cumsum (Z.of_nat 2) c1 = Some c2
    /\ GetNonzeros.assignment_order nz c2 = Some (c3, nz_order)
    /\ Permutation nz_order (Z.of_nat <$> seq 0 (length nz))
    /\ forall (p q i i' : nat) (j j' : Z),
         (p < q)%nat ->
         nz_order !! p = Some (Z.of_nat i) ->
         nz_order !! q = Some (Z.of_nat i') ->
         nz !! i = Some j -> nz !! i' = Some j' ->
         j <= j' /\ (j = j' -> (i < i')%nat).
Proof.
  intros nz.
  apply (assignment_order_sorted_permutation 2 nz).
  repeat constructor; simpl; lia.
Defined.



(** X8. Gather of a gather over a leaf, for requested indices that are all
    valid positions of the node's index vector: [getGetNonzeros] builds a
    single selection on the leaf whose index at [i] is [nz_[nz[i]]] (absent
    entries of [nz_] are carried over), and this node has the same value as
    the selection applied to the selection. *)
Theorem getGetNonzeros_composes (env : string -> list double)
    (name : string) (spx sp0 sp : CRSSparsity) (nz_ nz : list Z)
    (Hnz : Forall (fun k => 0 <= k < Z.of_nat (length nz_)) nz)
    (Hnz_ : Forall (fun k => k < Z.of_nat (length (env name))) nz_)
    (Hlen_ : length nz_ = sp_size sp0)
    (Hlen : length nz = sp_size sp) :
  let x := MXSymbolic name spx in
  exists nz_new v,
    GetNonzeros.getGetNonzeros (MXGetNonzeros sp0 x nz_) sp nz
    = Some (MXGetNonzeros sp x nz_new)
    /\ length nz_new = length nz
    /\ (forall (i : nat) (k : Z),
          nz !! i = Some k -> nz_new !! i = nz_ !! Z.to_nat k)
    /\ GetNonzeros.value env (MXGetNonzeros sp x nz_new) = Some v
    /\ GetNonzeros.value env (MXGetNonzeros sp (MXGetNonzeros sp0 x nz_) nz)
       = Some v.
Proof.
  intros x.
  destruct (getGetNonzeros_flattens env name spx sp0 sp nz_ nz
              Hnz Hnz_ Hlen_ Hlen) as (Hflat & Hval & [v Hv]).
  exists (map (fun k => nth (Z.to_nat k) nz_ 0) nz), v.
  split; [done|]. split; [by rewrite length_map|]. split.
  - intros i k Hi. rewrite list_lookup_fmap, Hi. simpl.
    pose proof (Forall_at _ _ _ _ Hnz Hi) as Hk. simpl in Hk.
    destruct (lookup_lt_is_Some_2 nz_ (Z.to_nat k)) as [w Hw]; [lia|].
    by rewrite Hw, (nth_lookup_Some _ _ 0 _ Hw).
  - split; [exact Hv|]. rewrite <- Hv. symmetry. exact Hval.
Qed.

Lemma getGetNonzeros_composes_witness :
  let sp2 := Sparsity 1 2 [0; 1] [0; 2] in
  let sp3 := Sparsity 1 3 [0; 1; 2] [0; 3] in
  let env := fun _ : string => [Double.of_int 10; Double.of_int 20] in
  let x := MXSymbolic "x" sp2 in
  let nz_ := [1; -1; 0] in
  let nz := [2; 1] in
  exists nz_new v,
    GetNonzeros.getGetNonzeros (MXGetNonzeros sp3 x nz_) sp2 nz
    = Some (MXGetNonzeros sp2 x nz_new)
    /\ length nz_new = length nz
    /\ (forall (i : nat) (k : Z),
          nz !! i = Some k -> nz_new !! i = nz_ !! Z.to_nat k)
    /\ GetNonzeros.value env (MXGetNonzeros sp2 x nz_new) = Some v
    /\ GetNonzeros.value env (MXGetNonzeros sp2 (MXGetNonzeros sp3 x nz_) nz)
       = Some v.
Proof.
  intros sp2 sp3 env x nz_ nz.
  apply (getGetNonzeros_composes env "x" sp2 sp3 sp2 nz_ nz).
  - repeat constructor; simpl; lia.
  - repeat constructor; simpl; lia.
  - reflexivity.
  - reflexivity.
Defined.

(** * The textual form of the norms *)

Lemma string_length_append (s t : string) :
  String.length (String.append s t) = (String.length s + String.length t)%nat.
Proof. induction s as [|c s IH]; simpl; [done|]. by rewrite IH. Qed.

Lemma string_append_assoc (s t u : string) :
  String.append (String.append s t) u = String.append s (String.append t u).
Proof. induction s as [|c s IH]; simpl; [done|]. by rewrite IH. Qed.

(** Two texts that end in suffixes of the same length agree piecewise. *)
Lemma string_append_inj_r (a : string) :
  forall b t t' : string,
    String.length t = String.length t' ->
    String.append a t = String.append b t' ->
    a = b /\ t = t'.
Proof.
  induction a as [|c a IH]; intros b t t' Hlen Heq; simpl in Heq.
  - destruct b as [|c' b]; simpl in Heq; [done|].
    subst t. simpl in Hlen. rewrite string_length_append in Hlen. lia.
  - destruct b as [|c' b]; simpl in Heq.
    + subst t'. simpl in Hlen. rewrite string_length_append in Hlen. lia.
    + injection Heq as -> Heq. destruct (IH b t t' Hlen Heq) as [-> ->].
      done.
Qed.

(** The last two characters of each suffix, and what precedes them. *)
Lemma print_suffix_split (k : Norm.kind) :
  exists pre last2 : string,
    Norm.print_suffix k = String.append pre last2
    /\ String.length last2 = 2%nat
    /\ last2 = match k with
               | Norm.Norm2 => "_2" | Norm.Norm22 => "^2"
               | Norm.Norm1 => "_1" | Norm.NormInf => "nf"
               end%string.
Proof.
  destruct k;
    [exists "||"%string, "_2"%string | exists "||_2"%string, "^2"%string
    |exists "||"%string, "_1"%string | exists "||_i"%string, "nf"%string];
    done.
Qed.

(** X17. The textual form of a norm is unambiguous: [print] fails exactly
    on an empty argument vector, and when two calls, for any two of the
    four norms and any argument texts, produce the same text, the norm and
    the printed argument are the same. *)
Theorem print_unambiguous (k k' : Norm.kind) (args args' : list string) :
  (Norm.print k args = None <-> args = [])
  /\ forall t : string,
       Norm.print k args = Some t -> Norm.print k' args' = Some t ->
       k = k' /\ args !! 0%nat = args' !! 0%nat.
Proof.
  split.
  - unfold Norm.print. destruct args; simpl; [done|]. split; done.
  - intros t. unfold Norm.print.
    destruct (args !! 0%nat) as [a|]; simpl; [|done].
    destruct (args' !! 0%nat) as [a'|]; simpl; [|done].
    intros [= <-] [= Heq].
    destruct (print_suffix_split k) as (pre & l2 & Hk & Hl & Hl2).
    destruct (print_suffix_split k') as (pre' & l2' & Hk' & Hl' & Hl2').
    rewrite Hk, Hk', <- !string_append_assoc in Heq.
    apply string_append_inj_r in Heq as [Heq Hlast]; [|congruence].
    assert (k = k') as <-.
    { rewrite Hl2, Hl2' in Hlast. by destruct k, k'. }
    split; [done|].
    assert (pre' = pre) as ->.
    { rewrite Hk in Hk'. symmetry in Hk'.
      apply (string_append_inj_r pre' pre l2' l2) in Hk' as [? _]; congruence. }
    apply string_append_inj_r in Heq as [-> _]; done.
Qed.

Lemma print_unambiguous_witness :
  Norm.print Norm.Norm2 ["x"%string] = Some "||x||_2"%string
  /\ (Norm.Norm2 = Norm.Norm2
      /\ ["x"%string] !! 0%nat = ["x"%string; "y"%string] !! 0%nat).
Proof.
  split; [reflexivity|].
  apply (proj2 (print_unambiguous Norm.Norm2 Norm.Norm2 ["x"%string]
                  ["x"%string; "y"%string]) "||x||_2"%string);
    reflexivity.
Defined.

(** * Enumerating a range *)

Lemma enumerate_from {A : Type} (rng : list A) (fuel : nat) :
  forall (z : Z) (p : nat),
    (p <= length rng)%nat -> (length rng - p < fuel)%nat ->
    IterAdapter.for_each fuel rng (IterAdapter.Iter z p)
    = Some (zip ((fun i => z + Z.of_nat i) <$> seq 0 (length rng - p))
                (drop p rng)).
Proof.
  induction fuel as [|fuel IH]; intros z p Hp Hfuel; [lia|]. simpl.
  unfold IterAdapter.neq, IterAdapter.end_. simpl.
  destruct (Nat.eqb_spec (length rng) p) as [->|Hne]; simpl.
  - by rewrite Nat.sub_diag.
  - unfold IterAdapter.deref. simpl.
    destruct (lookup_lt_is_Some_2 rng p) as [x Hx]; [lia|].
    rewrite Hx. simpl. unfold IterAdapter.incr. simpl.
    rewrite IH by lia. simpl.
    rewrite (drop_S _ _ _ Hx).
    replace (length rng - p)%nat with (S (length rng - S p)) by lia.
    simpl. rewrite Z.add_0_r. do 3 f_equal.
    rewrite <- fmap_S_seq, <- list_fmap_compose.
    apply list_fmap_ext. intros _ i _. simpl. lia.
Qed.

(** X18. A range-based [for] over [enumerate(rng)] ends after one test of
    the loop condition per element and one more, and its body receives the
    elements of [rng] in order, each paired with its position counted from
    0. *)
Theorem enumerate_pairs_positions {A : Type} (rng : list A) (fuel : nat)
    (Hfuel : (length rng < fuel)%nat) :
  IterAdapter.for_each fuel rng (IterAdapter.begin rng)
  = Some (zip (Z.of_nat <$> seq 0 (length rng)) rng)
  /\ IterAdapter.for_each (length rng) rng (IterAdapter.begin rng) = None.
Proof.
  split.
  - unfold IterAdapter.begin. rewrite enumerate_from by lia.
    rewrite Nat.sub_0_r. simpl. do 2 f_equal.
  - unfold IterAdapter.begin.
    assert (forall (n : nat) (z : Z) (p : nat),
      (p + n = length rng)%nat ->
      IterAdapter.for_each n rng (IterAdapter.Iter z p) = None) as Hnone.
    { induction n as [|n IH]; intros z p Hpn; [done|]. simpl.
      unfold IterAdapter.neq, IterAdapter.end_. simpl.
      destruct (Nat.eqb_spec (length rng) p); [lia|]. simpl.
      unfold IterAdapter.deref. simpl.
      destruct (lookup_lt_is_Some_2 rng p) as [x ->]; [lia|]. simpl.
      unfold IterAdapter.incr. simpl. by rewrite IH by lia. }
    by apply Hnone.
Qed.

Lemma enumerate_pairs_positions_witness :
  let rng := [Double.of_int 7; Double.of_int 8; Double.of_int 9] in
  IterAdapter.for_each 4 rng (IterAdapter.begin rng)
  = Some (zip (Z.of_nat <$> seq 0 (length rng)) rng)
  /\ IterAdapter.for_each (length rng) rng (IterAdapter.begin rng) = None.
Proof.
  intros rng. apply (enumerate_pairs_positions rng 4). simpl. lia.
Defined.

(** * Buffer sizes *)

(** A loop whose body keeps a property of the state keeps it whenever it
    returns. *)
Lemma for_range_keeps {S : Type} (P : S -> Prop)
    (body : Z -> S -> option S) (count : nat) :
  (forall i s0 s1, P s0 -> body i s0 = Some s1 -> P s1) ->
  forall (k : Z) (s s' : S),
    P s -> for_range body k count s = Some s' -> P s'.
Proof.
  intros Hbody. induction count as [|c IH]; intros k s s' HP; simpl.
  - by intros [= <-].
  - destruct (body k s) as [s1|] eqn:Hs1; [|done].
    apply IH. by eapply Hbody.
Qed.

Lemma sizes_insert {A : Type} (l : list (list A)) (d : nat) (x x' : list A) :
  l !! d = Some x -> length x' = length x ->
  length <$> <[d := x']> l = length <$> l.
Proof.
  intros Hd Hlen. rewrite list_fmap_insert, Hlen.
  apply list_insert_id. by rewrite list_lookup_fmap, Hd.
Qed.

Lemma vset_sizes {A : Type} (l l' : list (list A)) (d : Z) (x x' : list A) :
  vget l d = Some x -> length x' = length x -> vset l d x' = Some l' ->
  length <$> l' = length <$> l.
Proof.
  intros Hget Hlen Hset. apply vget_lookup in Hget as [_ Hget].
  apply vset_inv in Hset as (_ & _ & ->). by eapply sizes_insert.
Qed.

Section GatherSizes.

Context {T : Type}.
Variables (zero : T) (add : T -> T -> T).

Lemma gather_length (src : list T) (nz : list Z) :
  forall (it : nat) (dst dst' : list T),
    GetNonzeros.gather zero src nz it dst = Some dst' ->
    length dst' = length dst.
Proof.
  induction nz as [|k nz IH]; intros it dst dst'; simpl.
  - by intros [= <-].
  - destruct (if 0 <=? k then vget src k else Some zero) as [v|]; [|done].
    simpl. destruct (vset dst (Z.of_nat it) v) as [d1|] eqn:Hset; [|done].
    simpl. intros Hrun. apply IH in Hrun. apply vset_inv in Hset as (_ & _ & ->).
    by rewrite length_insert in Hrun.
Qed.

Lemma scatter_length (nz : list Z) :
  forall (it : nat) (aseed asens aseed' asens' : list T),
    GetNonzeros.scatter zero add nz it aseed asens = Some (aseed', asens') ->
    length aseed' = length aseed /\ length asens' = length asens.
Proof.
  induction nz as [|k nz IH]; intros it aseed asens aseed' asens'; simpl.
  - by intros [= <- <-].
  - destruct (vget aseed (Z.of_nat it)) as [s|]; [|done]. simpl.
    destruct (if 0 <=? k
              then old ← vget asens k; vset asens k (add old s)
              else Some asens) as [a1|] eqn:Ha1; [|done]. simpl.
    destruct (vset aseed (Z.of_nat it) zero) as [s1|] eqn:Hs1; [|done].
    simpl. intros Hrun. apply IH in Hrun as [Hl1 Hl2].
    apply vset_inv in Hs1 as (_ & _ & ->). rewrite length_insert in Hl1.
    split; [done|]. rewrite Hl2.
    destruct (0 <=? k); [|by injection Ha1 as <-].
    destruct (vget asens k) as [old|]; [|done]. simpl in Ha1.
    apply vset_inv in Ha1 as (_ & _ & ->). by rewrite length_insert.
Qed.

Lemma forward_sensitivities_sizes (nz : list Z) (nfwd : Z)
    (fwdSeed fS0 fS : list (list T)) :
  GetNonzeros.forward_sensitivities zero nz nfwd fwdSeed fS0 = Some fS ->
  length <$> fS = length <$> fS0.
Proof.
  unfold GetNonzeros.forward_sensitivities, for_loop.
  apply (for_range_keeps (fun fS => length <$> fS = length <$> fS0));
    [|done].
  intros d s0 s1 HP.
  destruct (vget fwdSeed d) as [fseed|]; [|done]. simpl.
  destruct (vget s0 d) as [fsens|] eqn:Hget; [|done]. simpl.
  destruct (GetNonzeros.gather zero fseed nz 0 fsens) as [fsens'|] eqn:Hg;
    [|done]. simpl.
  intros Hset. rewrite <- HP.
  eapply vset_sizes; [done| |done]. by eapply gather_length.
Qed.

Lemma adjoint_sensitivities_sizes (nz : list Z) (nadj : Z)
    (aSeed0 aSens0 aSeed aSens : list (list T)) :
  GetNonzeros.adjoint_sensitivities zero add nz nadj aSeed0 aSens0
  = Some (aSeed, aSens) ->
  length <$> aSeed = length <$> aSeed0
  /\ length <$> aSens = length <$> aSens0.
Proof.
  unfold GetNonzeros.adjoint_sensitivities, for_loop.
  apply (for_range_keeps
           (fun st : list (list T) * list (list T) =>
              length <$> st.1 = length <$> aSeed0
              /\ length <$> st.2 = length <$> aSens0)); [|done].
  intros d [s0 a0] [s1 a1] [HP1 HP2]. simpl in *.
  destruct (vget s0 d) as [aseed|] eqn:Hg1; [|done]. simpl.
  destruct (vget a0 d) as [asens|] eqn:Hg2; [|done]. simpl.
  destruct (GetNonzeros.scatter zero add nz 0 aseed asens)
    as [[aseed' asens']|] eqn:Hsc; [|done]. simpl.
  destruct (vset s0 d aseed') as [s0'|] eqn:Hs; [|done]. simpl.
  destruct (vset a0 d asens') as [a0'|] eqn:Ha; [|done]. simpl.
  intros [= <- <-]. apply scatter_length in Hsc as [Hl1 Hl2].
  rewrite <- HP1, <- HP2. split; by eapply vset_sizes.
Qed.

End GatherSizes.

(** X19. [evaluateGen] resizes nothing: on buffers of the declared sizes it
    returns with the same number of directions and the same length for the
    output, for every forward sensitivity, every adjoint seed and every
    adjoint sensitivity, so the buffers are again of the declared sizes and
    the node can be evaluated again on them. *)
Theorem evaluateGen_keeps_sizes {T : Type} (zero : T) (add : T -> T -> T)
    (nz : list Z) (input0 : list T) (fwdSeed : list (list T))
    (b : GetNonzeros.buffers T)
    (Hws : GetNonzeros.well_sized nz input0 fwdSeed b) :
  exists b',
    GetNonzeros.evaluateGen zero add nz input0 fwdSeed b = Some b'
    /\ length (GetNonzeros.output0 b') = length (GetNonzeros.output0 b)
    /\ length <$> GetNonzeros.fwdSens b' = length <$> GetNonzeros.fwdSens b
    /\ length <$> GetNonzeros.adjSeed b' = length <$> GetNonzeros.adjSeed b
    /\ length <$> GetNonzeros.adjSens b' = length <$> GetNonzeros.adjSens b
    /\ GetNonzeros.well_sized nz input0 fwdSeed b'.
Proof.
  destruct (evaluateGen_spec zero add nz input0 fwdSeed b Hws)
    as (b' & Hrun & _).
  exists b'. split; [done|].
  unfold GetNonzeros.evaluateGen in Hrun.
  destruct (GetNonzeros.gather zero input0 nz 0 (GetNonzeros.output0 b))
    as [out|] eqn:Hout; [|done]. simpl in Hrun.
  destruct (GetNonzeros.forward_sensitivities zero nz _ fwdSeed
              (GetNonzeros.fwdSens b)) as [fS|] eqn:HfS; [|done].
  simpl in Hrun.
  destruct (GetNonzeros.adjoint_sensitivities zero add nz _
              (GetNonzeros.adjSeed b) (GetNonzeros.adjSens b))
    as [[aSeed aSens]|] eqn:HaS; [|done].
  simpl in Hrun. injection Hrun as <-. simpl.
  apply gather_length in Hout. apply forward_sensitivities_sizes in HfS.
  apply adjoint_sensitivities_sizes in HaS as [Hs1 Hs2].
  split; [done|]. split; [done|]. split; [done|]. split; [done|].
  assert (forall (l l' : list (list T)) (n : nat),
            length <$> l' = length <$> l ->
            Forall (fun s => length s = n) l ->
            Forall (fun s => length s = n) l') as Hall.
  { intros l l' n Hl Hf. apply Forall_lookup. intros i s Hs.
    assert ((length <$> l') !! i = Some (length s)) as Hi
      by (by rewrite list_lookup_fmap, Hs).
    rewrite Hl, list_lookup_fmap in Hi.
    destruct (l !! i) as [s0|] eqn:Hs0; [|done]. simpl in Hi.
    injection Hi as <-. exact (Forall_at _ _ _ _ Hf Hs0). }
  assert (forall l l' : list (list T),
            length <$> l' = length <$> l -> length l' = length l) as Hlen.
  { intros l l' Hl. by rewrite <- (length_fmap length l'), Hl, length_fmap. }
  destruct Hws as [H1 H2 H3 H4 H5 H6 H7 H8].
  constructor; simpl; try done.
  - congruence.
  - rewrite (Hlen _ _ HfS). done.
  - by eapply Hall.
  - rewrite (Hlen _ _ Hs1), (Hlen _ _ Hs2). done.
  - by eapply Hall.
  - by eapply Hall.
Qed.

Lemma evaluateGen_keeps_sizes_witness :
  let nz := [1; -1; 0] in
  let x := [Double.of_int 10; Double.of_int 20] in
  let b := GetNonzeros.Buffers [Double.zero; Double.zero; Double.zero] []
             [[Double.of_int 5; Double.of_int 7; Double.of_int 9]]
             [[Double.zero; Double.zero]] in
  exists b',
    GetNonzeros.evaluateGen Double.zero Double.add nz x [] b = Some b'
    /\ length (GetNonzeros.output0 b') = length (GetNonzeros.output0 b)
    /\ length <$> GetNonzeros.fwdSens b' = length <$> GetNonzeros.fwdSens b
    /\ length <$> GetNonzeros.adjSeed b' = length <$> GetNonzeros.adjSeed b
    /\ length <$> GetNonzeros.adjSens b' = length <$> GetNonzeros.adjSens b
    /\ GetNonzeros.well_sized nz x [] b'.
Proof.
  intros nz x b.
  apply (evaluateGen_keeps_sizes Double.zero Double.add nz x [] b).
  constructor; simpl; repeat constructor; simpl; lia.
Defined.

Lemma vset_length {A : Type} (l l' : list A) (k : Z) (x : A) :
  vset l k x = Some l' -> length l' = length l.
Proof. intros (_ & _ & ->)%vset_inv. by rewrite length_insert. Qed.

Lemma propagate_forward_sizes (step : double -> double -> double -> double)
    (n nfwd : Z) (inputd : list double) (fwdSeed fwdSens fS : list (list double)) :
  Norm.propagate_forward step n nfwd inputd fwdSeed fwdSens = Some fS ->
  length <$> fS = length <$> fwdSens.
Proof.
  unfold Norm.propagate_forward, for_loop.
  apply (for_range_keeps (fun fS => length <$> fS = length <$> fwdSens));
    [|done].
  intros d s0 s1 HP.
  destruct (vget s0 d) as [fsens|] eqn:Hget; [|done]. simpl.
  destruct (vget fwdSeed d) as [fseed|]; [|done]. simpl.
  destruct (Norm.forward_direction step n inputd fseed fsens) as [fsens'|]
    eqn:Hdir; [|done]. simpl.
  intros Hset. rewrite <- HP. eapply vset_sizes; [done| |done].
  unfold Norm.forward_direction in Hdir.
  destruct (vset fsens 0 (Double.of_int 0)) as [f0|] eqn:Hf0; [|done].
  simpl in Hdir. apply vset_length in Hf0. rewrite <- Hf0.
  revert Hdir. unfold for_loop.
  apply (for_range_keeps (fun fs => length fs = length f0)); [|done].
  intros k fs fs' Hfs.
  destruct (vget fseed k); [|done]. simpl.
  destruct (vget inputd k); [|done]. simpl.
  destruct (vget fs 0); [|done]. simpl.
  intros ->%vset_length. done.
Qed.

Lemma propagate_adjoint_sizes (upd : double -> double -> double -> double)
    (n nadj : Z) (inputd : list double) (adjSeed adjSens aS : list (list double)) :
  Norm.propagate_adjoint upd n nadj inputd adjSeed adjSens = Some aS ->
  length <$> aS = length <$> adjSens.
Proof.
  unfold Norm.propagate_adjoint, for_loop.
  apply (for_range_keeps (fun aS => length <$> aS = length <$> adjSens));
    [|done].
  intros d s0 s1 HP.
  destruct (vget adjSeed d) as [seed|]; [|done]. simpl.
  destruct (vget seed 0) as [s|]; [|done]. simpl.
  destruct (Double.eqb s (Double.of_int 0)); [by intros [= <-]|].
  destruct (vget s0 d) as [asens|] eqn:Hget; [|done]. simpl.
  destruct (Norm.adjoint_direction upd n inputd s asens) as [asens'|]
    eqn:Hdir; [|done]. simpl.
  intros Hset. rewrite <- HP. eapply vset_sizes; [done| |done].
  revert Hdir. unfold Norm.adjoint_direction, for_loop.
  apply (for_range_keeps (fun a => length a = length asens)); [|done].
  intros k a a' Ha.
  destruct (vget inputd k); [|done]. simpl.
  destruct (vget a k); [|done]. simpl.
  intros ->%vset_length. done.
Qed.

Lemma well_sized_transfer (n : Z) (inputd : list double)
    (b b' : Norm.buffers) (fwdSeed adjSeed : list (list double))
    (nfwd nadj : Z) :
  Norm.well_sized n inputd b fwdSeed adjSeed nfwd nadj ->
  length (Norm.outputd b') = length (Norm.outputd b) ->
  length <$> Norm.fwdSens b' = length <$> Norm.fwdSens b ->
  length <$> Norm.adjSens b' = length <$> Norm.adjSens b ->
  Norm.well_sized n inputd b' fwdSeed adjSeed nfwd nadj.
Proof.
  intros [H1 H2 H3 H4 H5 H6 H7 H8 H9 H10] Ho Hf Ha.
  assert (forall (P : nat -> Prop) (l l' : list (list double)),
            length <$> l' = length <$> l ->
            Forall (fun s => P (length s)) l ->
            Forall (fun s => P (length s)) l') as Hall.
  { intros P l l' Hl Hfa. apply Forall_lookup. intros i s Hs.
    assert ((length <$> l') !! i = Some (length s)) as Hi
      by (by rewrite list_lookup_fmap, Hs).
    rewrite Hl, list_lookup_fmap in Hi.
    destruct (l !! i) as [s0|] eqn:Hs0; [|done]. simpl in Hi.
    injection Hi as <-. exact (Forall_at _ _ _ _ Hfa Hs0). }
  assert (forall l l' : list (list double),
            length <$> l' = length <$> l -> length l' = length l) as Hlen.
  { intros l l' Hl. by rewrite <- (length_fmap length l'), Hl, length_fmap. }
  constructor; try done.
  - by rewrite Ho.
  - by rewrite (Hlen _ _ Hf).
  - exact (Hall (fun k => (0 < k)%nat) _ _ Hf H6).
  - by rewrite (Hlen _ _ Ha).
  - exact (Hall (fun k => (Z.to_nat n <= k)%nat) _ _ Ha H10).
Qed.

(** X20. The norms resize nothing: on buffers of the declared sizes
    [Norm1::evaluate], [Norm2::evaluate] and [Norm22::evaluate] return with
    the same length for the output, the same number of directions and the
    same length for every sensitivity vector, so the buffers are again of
    the declared sizes. *)
Theorem norm_evaluate_keeps_sizes (n : Z) (inputd : list double)
    (b : Norm.buffers) (fwdSeed adjSeed : list (list double)) (nfwd nadj : Z)
    (Hws : Norm.well_sized n inputd b fwdSeed adjSeed nfwd nadj) :
  let same_sizes (b' : Norm.buffers) :=
    length (Norm.outputd b') = length (Norm.outputd b)
    /\ length <$> Norm.fwdSens b' = length <$> Norm.fwdSens b
    /\ length <$> Norm.adjSens b' = length <$> Norm.adjSens b
    /\ Norm.well_sized n inputd b' fwdSeed adjSeed nfwd nadj in
  (exists b', Norm.Norm1_evaluate n inputd b fwdSeed adjSeed nfwd nadj
              = Returns b' /\ same_sizes b')
  /\ (exists b', Norm.Norm2_evaluate n inputd b fwdSeed adjSeed nfwd nadj
                 = Returns b' /\ same_sizes b')
  /\ (exists b', Norm.Norm22_evaluate n inputd b fwdSeed adjSeed nfwd nadj
                 = Returns b' /\ same_sizes b').
Proof.
  intros same_sizes.
  assert (forall b',
    length (Norm.outputd b') = length (Norm.outputd b) ->
    length <$> Norm.fwdSens b' = length <$> Norm.fwdSens b ->
    length <$> Norm.adjSens b' = length <$> Norm.adjSens b ->
    same_sizes b') as Hsame.
  { intros b' Ho Hf Ha. split; [done|]. split; [done|]. split; [done|].
    by eapply well_sized_transfer. }
  split; [|split].
  - destruct (Norm1_evaluate_passes n inputd b fwdSeed adjSeed nfwd nadj Hws)
      as (fS & aS & HfS & HaS & ->).
    eexists. split; [done|].
    apply propagate_forward_sizes in HfS. apply propagate_adjoint_sizes in HaS.
    destruct ((nfwd =? 0) && (nadj =? 0)); apply Hsame; simpl; try done.
    by rewrite length_insert.
  - destruct (Norm2_evaluate_passes n inputd b fwdSeed adjSeed nfwd nadj Hws)
      as (fS & aS & HfS & HaS & ->).
    eexists. split; [done|].
    apply propagate_forward_sizes in HfS. apply propagate_adjoint_sizes in HaS.
    apply Hsame; simpl; try done. by rewrite length_insert.
  - destruct (Norm22_evaluate_passes n inputd b fwdSeed adjSeed nfwd nadj Hws)
      as (fS & aS & HfS & HaS & ->).
    eexists. split; [done|].
    apply propagate_forward_sizes in HfS. apply propagate_adjoint_sizes in HaS.
    apply Hsame; simpl; try done. by rewrite length_insert.
Qed.

Lemma norm_evaluate_keeps_sizes_witness :
  let x := [Double.of_int 3; Double.of_int 4] in
  let b := Norm.Buffers [Double.zero] [[Double.zero]]
             [[Double.of_int 1; Double.of_int 2]] in
  let fwdSeed := [[Double.of_int 1; Double.of_int 0]] in
  let adjSeed := [[Double.of_int 1]] in
  let same_sizes (b' : Norm.buffers) :=
    length (Norm.outputd b') = length (Norm.outputd b)
    /\ length <$> Norm.fwdSens b' = length <$> Norm.fwdSens b
    /\ length <$> Norm.adjSens b' = length <$> Norm.adjSens b
    /\ Norm.well_sized 2 x b' fwdSeed adjSeed 1 1 in
  (exists b', Norm.Norm1_evaluate 2 x b fwdSeed adjSeed 1 1
              = Returns b' /\ same_sizes b')
  /\ (exists b', Norm.Norm2_evaluate 2 x b fwdSeed adjSeed 1 1
                 = Returns b' /\ same_sizes b')
  /\ (exists b', Norm.Norm22_evaluate 2 x b fwdSeed adjSeed 1 1
                 = Returns b' /\ same_sizes b').
Proof.
  intros x b fwdSeed adjSeed.
  apply (norm_evaluate_keeps_sizes 2 x b fwdSeed adjSeed 1 1).
  constructor; simpl; repeat constructor; simpl; lia.
Defined.
